(** * Pixel-level semantic labeling evaluation: confusion matrix and scores

    A shallow embedding of
    [cityscapesscripts/evaluation/evalPixelLevelSemanticLabelingCustomAllBetween.py]
    and the properties of its accumulation loop, score functions and
    mismatch reports.

    Conventions of the embedding:
    - Python dictionaries are [gmap]s, numpy arrays are lists in row-major
      order, the confusion matrix is a list of rows;
    - [np.ulonglong] and [np.longlong] values are integers with their
      wrap-around written out ([wrap_u64], [wrap_i64]);
    - the quotient of an IoU score, the percentages of the reports and
      the counters of the instance statistics are exact rationals
      extended with [NaN]: a value stands for the float that the program
      computes from the same expression, its rounding is not
      represented, and what is stated of such a value beyond its
      expression is stated for counts below 2^53; the averages, which
      add up rounded values, are computed on binary64 values
      ([PrimFloat]), as the program computes them;
    - [printError] (print, then [sys.exit(-1)]) and the exceptions raised
      by dictionary and array indexing are values of type [error];
    - functions that mutate their arguments in place thread the mutated
      object through the [M] monad, which keeps the state reached when an
      error is raised. *)

From Stdlib Require Import ZArith QArith Qcanon Lia List Permutation Sorted.
From Stdlib Require PrimFloat SpecFloat FloatOps.
From stdpp Require Import base gmap strings list fin_maps.
Import ListNotations.

Local Open Scope Z_scope.

(** ** Machine integers and floats *)

Definition wrap_u64 (z : Z) : Z := z mod 2 ^ 64.
Definition wrap_i64 (z : Z) : Z := (z + 2 ^ 63) mod 2 ^ 64 - 2 ^ 63.

(** [np.longlong(x)] applied to an [np.ulonglong] value. *)
Definition longlong (z : Z) : Z := wrap_i64 z.

(** A Python float: [float('nan')] or a finite value. *)
Inductive num : Type :=
| NaN
| Num (q : Qc).

Definition Qc_is_zero (q : Qc) : bool := Qeq_bool (this q) 0.

(** Every division of the source is guarded by a test of the denominator
    against zero; [NaN] passes that test ([nan == 0] is false) and
    propagates. *)
Definition ndiv (x y : num) : num :=
  match x, y with
  | Num a, Num b => if Qc_is_zero b then NaN else Num (a / b)%Qc
  | _, _ => NaN
  end.

Definition ZtoQc (z : Z) : Qc := Q2Qc (inject_Z z).

(** ** Errors *)

Inductive pykey : Type :=
| KInt (z : Z)
| KStr (s : string).

Inductive error : Type :=
| UnknownLabel (pixel : Z)      (* printError("Unknown label with id ...") *)
| ListSizeMismatch              (* printError("List of images ... not of equal size.") *)
| WidthMismatch                 (* printError("Image widths ... are not equal.") *)
| HeightMismatch                (* printError("Image heights ... are not equal.") *)
| PixelCountDisagree (matrixSum nbPixels : Z)
                                (* printError("Number of analyzed pixels and entries ... disagree") *)
| KeyError (k : pykey)          (* dictionary lookup of a missing key *)
| IndexError                    (* array index out of bounds, mask of another shape *)
| ValueError                    (* max() of an empty list *)
| ZeroDivisionError.            (* division of a Python number by the Python integer 0 *)

Inductive outcome (A : Type) : Type :=
| Ok (a : A)
| Raise (e : error).
Arguments Ok {A} a.
Arguments Raise {A} e.

Definition is_ok {A} (o : outcome A) : bool :=
  match o with Ok _ => true | Raise _ => false end.

Global Instance outcome_ret : MRet outcome := fun A a => Ok a.
Global Instance outcome_bind : MBind outcome := fun A B f o =>
  match o with
  | Ok a => f a
  | Raise e => Raise e
  end.

Definition from_option {A} (e : error) (o : option A) : outcome A :=
  match o with Some a => Ok a | None => Raise e end.

Fixpoint mapM {A B} (f : A -> outcome B) (l : list A) : outcome (list B) :=
  match l with
  | [] => Ok []
  | x :: l' => y ← f x; ys ← mapM f l'; Ok (y :: ys)
  end.

(** List comprehension [[x for x in l if p(x)]] whose test may raise. *)
Fixpoint filterM {A} (p : A -> outcome bool) (l : list A) : outcome (list A) :=
  match l with
  | [] => Ok []
  | x :: l' => b ← p x; ys ← filterM p l'; Ok (if b : bool then x :: ys else ys)
  end.

(** ** The label taxonomy *)

Module label.
Record t : Type := mk
  { name : string;
    id : Z;
    category : string;
    hasInstances : bool;
    ignoreInEval : bool }.
End label.
Abbreviation Label := label.t.

(** ** Arrays *)

Abbreviation Matrix := (list (list Z)).

Definition zsum (l : list Z) : Z := foldr Z.add 0 l.

(** Sum of a [np.ulonglong] array: [arr.sum()]. *)
Definition u64sum (l : list Z) : Z := wrap_u64 (zsum l).

Definition matrix_total (m : Matrix) : Z := zsum (zsum <$> m).

(** [confMatrix.sum()] *)
Definition matrix_sum (m : Matrix) : Z := wrap_u64 (matrix_total m).

(** Integer index into an axis of length [n]: numpy counts negative
    indices from the end and raises [IndexError] outside [-n, n). *)
Definition np_index (n : nat) (i : Z) : option nat :=
  if decide (0 <= i < Z.of_nat n) then Some (Z.to_nat i)
  else if decide (- Z.of_nat n <= i < 0) then Some (Z.to_nat (i + Z.of_nat n))
  else None.

Definition getitem {A} (l : list A) (i : Z) : outcome A :=
  from_option IndexError (k ← np_index (length l) i; l !! k).

(** [confMatrix[i, j]] and [confMatrix[i][j]] *)
Definition getitem2 (m : Matrix) (i j : Z) : outcome Z :=
  row ← getitem m i; getitem row j.

(** [confMatrix[i][j] += 1] on an [np.ulonglong] matrix *)
Definition incr_cell (m : Matrix) (i j : Z) : outcome Matrix :=
  ki ← from_option IndexError (np_index (length m) i);
  row ← from_option IndexError (m !! ki);
  kj ← from_option IndexError (np_index (length row) j);
  x ← from_option IndexError (row !! kj);
  Ok (<[ki := <[kj := wrap_u64 (x + 1)]> row]> m).

(** [np.zeros(shape=(n, n), dtype=np.ulonglong)] *)
Definition zeros (n : nat) : Matrix := replicate n (replicate n 0).

(** ** Evaluation parameters and accumulators *)

(** The fields of the global [args] object that the evaluation reads. *)
Record Args : Type := mkArgs
  { evalLabels : list Z;
    evalInstLevelScore : bool;
    evalPixelAccuracy : bool;
    avgClassSize : gmap string Qc }.

Definition set_evalLabels (ls : list Z) (a : Args) : Args :=
  {| evalLabels := ls;
     evalInstLevelScore := evalInstLevelScore a;
     evalPixelAccuracy := evalPixelAccuracy a;
     avgClassSize := avgClassSize a |}.

(** The dictionary [{"tp", "tpWeighted", "fn", "fnWeighted"}] of floats. *)
Record Stats : Type := mkStats
  { tp : Qc; tpWeighted : Qc; fn : Qc; fnWeighted : Qc }.

Definition zeroStats : Stats :=
  {| tp := 0; tpWeighted := 0; fn := 0; fnWeighted := 0 |}.

(** [s[k] += ...] on the four fields. *)
Definition addStats (s : Stats) (dtp dfn dtpW dfnW : Qc) : Stats :=
  {| tp := (tp s + dtp)%Qc;
     tpWeighted := (tpWeighted s + dtpW)%Qc;
     fn := (fn s + dfn)%Qc;
     fnWeighted := (fnWeighted s + dfnW)%Qc |}.

Record CategoryStats : Type := mkCategoryStats
  { catStats : Stats; labelIds : list Z }.

Record InstanceStats : Type := mkInstanceStats
  { classes : gmap string Stats;
    categories : gmap string CategoryStats }.

Record PerImage : Type := mkPerImage
  { nbNotIgnoredPixels : Z; nbCorrectPixels : Z }.

Section Taxonomy.

(** The table [labels] of the helper module, supplied from outside. *)
Variable labels : list Label.

(** Modelled from the spec: the helper module that derives the lookup
    tables from the label table is not part of the sources. A label is
    looked up by its id; a later row of the table replaces an earlier
    one with the same id. *)
Definition id2label : gmap Z Label :=
  foldl (fun m l => <[label.id l := l]> m) ∅ labels.

(** Modelled from the spec: a category groups the labels that carry
    its name, in table order. *)
Definition category2labels : gmap string (list Label) :=
  foldl (fun m l =>
           <[label.category l := default [] (m !! label.category l) ++ [l]]> m)
        ∅ labels.

(** [id2label[i]] *)
Definition lookupLabel (i : Z) : outcome Label :=
  from_option (KeyError (KInt i)) (id2label !! i).

(** Generate empty confusion matrix and create list of relevant labels. *)
Definition generateMatrix (args : Args) : outcome (Args * Matrix) :=
  let evalLabels :=
    label.id <$> List.filter (fun l => negb (label.id l <? 0)) labels in
  match evalLabels with
  | [] => Raise ValueError
  | x :: rest =>
      let maxId := foldr Z.max x rest in
      Ok (set_evalLabels evalLabels args, zeros (Z.to_nat (maxId + 1)))
  end.

(** The inner loop over the labels of one category: [None] when the
    loop leaves through [break] with [allInstances = False]. *)
Fixpoint collectLabelIds (ls : list Label) (labelIds : list Z) : option (list Z) :=
  match ls with
  | [] => Some labelIds
  | l :: ls' =>
      if label.id l <? 0 then collectLabelIds ls' labelIds
      else if negb (label.hasInstances l) then None
      else collectLabelIds ls' (labelIds ++ [label.id l])
  end.

Definition generateInstanceStats : InstanceStats :=
  {| classes :=
       foldl (fun m l =>
                if label.hasInstances l && negb (label.ignoreInEval l)
                then <[label.name l := zeroStats]> m else m)
             ∅ labels;
     categories :=
       omap (fun ls => ids ← collectLabelIds ls [];
                       Some {| catStats := zeroStats; labelIds := ids |})
            category2labels |}.

(** The comprehension
    [[l for l in args.evalLabels if not id2label[l].ignoreInEval and not l==label]]. *)
Definition notIgnoredExcept (args : Args) (lbl : Z) : outcome (list Z) :=
  filterM (fun l => lab ← lookupLabel l;
                    Ok (negb (label.ignoreInEval lab) && negb (l =? lbl)))
          (evalLabels args).

(** Calculate and return IOU score for a particular label. *)
Definition getIouScoreForLabel (lbl : Z) (confMatrix : Matrix) (args : Args)
  : outcome (num * num) :=
  lab ← lookupLabel lbl;
  if label.ignoreInEval lab then Ok (NaN, NaN) else
  d ← getitem2 confMatrix lbl lbl;
  let tp := longlong d in
  row ← getitem confMatrix lbl;
  let gt := longlong (u64sum row) in
  let fn := wrap_i64 (gt - tp) in
  notIgnored ← notIgnoredExcept args lbl;
  col ← mapM (fun r => getitem2 confMatrix r lbl) notIgnored;
  let fp := longlong (u64sum col) in
  let denom := wrap_i64 (wrap_i64 (tp + fp) + fn) in
  if denom =? 0 then Ok (NaN, NaN)
  else Ok (ndiv (Num (ZtoQc tp)) (Num (ZtoQc denom)), Num (ZtoQc gt)).

End Taxonomy.

(** ** Averages of score collections *)

(** The averages add up values that the program has rounded, so their
    results depend on the rounding: here a score is a binary64 value
    ([PrimFloat.float], with its one [nan]). A weight is the second
    component of a score pair: an [np.longlong] for the pixel-level
    scores, a float for the instance-level scores and for undefined
    scores. *)
Inductive pynumber : Type :=
| PyInt (z : Z)
| PyFloat (f : PrimFloat.float).

(** The conversion of an integer to binary64, to the nearest value. *)
Definition float_of_Z (z : Z) : PrimFloat.float :=
  FloatOps.SF2Prim (SpecFloat.binary_normalize FloatOps.prec FloatOps.emax z 0 false).

Definition to_float (x : pynumber) : PrimFloat.float :=
  match x with
  | PyInt z => float_of_Z z
  | PyFloat f => f
  end.

(** [x + y]: integers add as [np.longlong], with its wrap-around; a
    float operand makes the sum a float. *)
Definition py_add (x y : pynumber) : pynumber :=
  match x, y with
  | PyInt a, PyInt b => PyInt (wrap_i64 (a + b))
  | _, _ => PyFloat (PrimFloat.add (to_float x) (to_float y))
  end.

(** [x == 0] *)
Definition py_is_zero (x : pynumber) : bool :=
  match x with
  | PyInt z => z =? 0
  | PyFloat f => PrimFloat.eqb f PrimFloat.zero
  end.

(** Get average of scores. Only computes the average over valid entries.
    The dictionary [scoreList] is given by its entries in the order in
    which the loop visits them. *)
Definition getScoreAverage (scoreList : list (string * (PrimFloat.float * pynumber)))
  : PrimFloat.float :=
  let '(validScores, scoreSum) :=
    foldl (fun '(validScores, scoreSum) '(_, (score, _)) =>
             if PrimFloat.is_nan score then (validScores, scoreSum)
             else (validScores + 1, PrimFloat.add scoreSum score))
          (0, PrimFloat.zero) scoreList in
  if validScores =? 0 then PrimFloat.nan
  else PrimFloat.div scoreSum (float_of_Z validScores).

(** Get weighted average of scores. Only computes the average over valid
    entries. *)
Definition getFreqScoreAverage (scoreList : list (string * (PrimFloat.float * pynumber)))
  : PrimFloat.float :=
  let '(validScores, scoreSum) :=
    foldl (fun '(validScores, scoreSum) '(_, (score, weight)) =>
             if PrimFloat.is_nan score then (validScores, scoreSum)
             else (py_add validScores weight,
                   PrimFloat.add scoreSum (PrimFloat.mul score (to_float weight))))
          (PyInt 0, PrimFloat.zero) scoreList in
  if py_is_zero validScores then PrimFloat.nan
  else PrimFloat.div scoreSum (to_float validScores).

(** ** Mismatch reports *)

(** A float produced by numpy's true division, which yields an infinity
    or [nan] for a zero divisor instead of raising. *)
Inductive npfloat : Type :=
| FNaN
| FInf (negative : bool)
| FNum (q : Qc).

Definition np_divide (x : Qc) (d : Z) : npfloat :=
  if d =? 0 then
    (if Qc_is_zero x then FNaN else FInf (negb (Qle_bool 0 (this x))))
  else FNum (x / ZtoQc d)%Qc.

(** [np.argsort(a)]: the indices of [a] in ascending order of value.
    numpy leaves the order of equal values to the sorting routine; the
    model keeps equal values in index order. *)
Fixpoint insert_by (key : nat -> Z) (i : nat) (l : list nat) : list nat :=
  match l with
  | [] => [i]
  | j :: l' => if key j <=? key i then j :: insert_by key i l' else i :: l
  end.

Definition argsort (a : list Z) : list nat :=
  foldl (fun acc i => insert_by (fun k => default 0 (a !! k)) i acc)
        [] (seq 0 (length a)).

(** [name[:13]] *)
Definition truncate13 (s : string) : string := String.substring 0 13 s.

(** One printed confusion: the other label, the percentage of the label's
    ground truth and the percentage of [totalPixelCt]. *)
Record Confusion : Type := mkConfusion
  { eleName : string; val : npfloat; pixError : npfloat }.

Inductive ReportLine : Type :=
| NoPixels (name : string)                          (* "----" *)
| Confusions (name : string) (entries : list Confusion).

(** One printed pair of the global report. *)
Record Mismatch : Type := mkMismatch
  { gtLabel : string; wrongLabel : string;
    pixErrorPercentage : npfloat; pixErrorCount : Z }.

Section Reports.

Variable labels : list Label.

(** The loop over [sortedArrayIndices] of [evaluatePixelError], with the
    counter [ct] of the labels seen so far. *)
Fixpoint topConfusions (confMatrix : Matrix) (totalPixelCt : Z)
    (lbl labelPixelSum : Z) (sortedArrayIndices : list nat) (ct : Z)
  : outcome (list Confusion) :=
  match sortedArrayIndices with
  | [] => Ok []
  | eleIdx :: rest =>
      if Z.of_nat eleIdx =? lbl
      then topConfusions confMatrix totalPixelCt lbl labelPixelSum rest ct
      else
        let ct := ct + 1 in
        if ct =? 5 then Ok []
        else
          lab ← lookupLabel labels (Z.of_nat eleIdx);
          x ← getitem2 confMatrix lbl (Z.of_nat eleIdx);
          let entry :=
            {| eleName := truncate13 (label.name lab);
               val := np_divide (ZtoQc x * ZtoQc 100)%Qc labelPixelSum;
               pixError := np_divide (ZtoQc x * ZtoQc 100)%Qc totalPixelCt |} in
          more ← topConfusions confMatrix totalPixelCt lbl labelPixelSum rest ct;
          Ok (entry :: more)
  end.

(** The body of the loop over [args.evalLabels] for one label that is
    not skipped. *)
Definition pixelErrorLine (confMatrix : Matrix) (totalPixelCt : Z) (lbl : Z)
  : outcome ReportLine :=
  row ← getitem confMatrix lbl;
  let labelPixelSum := longlong (u64sum row) in
  lab ← lookupLabel labels lbl;
  if labelPixelSum <=? 0 then Ok (NoPixels (label.name lab))
  else
    entries ← topConfusions confMatrix totalPixelCt lbl labelPixelSum
                (rev (argsort row)) 0;
    Ok (Confusions (label.name lab) entries).

(** Evaluating Pixel Error Relation Metric: the lines printed, one per
    label of [args.evalLabels] that is at least 4. *)
Definition evaluatePixelError (confMatrix : Matrix) (totalPixelCt : Z) (args : Args)
  : outcome (list ReportLine) :=
  mapM (pixelErrorLine confMatrix totalPixelCt)
       (List.filter (fun lbl => negb (lbl <? 4)) (evalLabels args)).

(** [np.dstack(np.unravel_index(np.argsort(arr.ravel()), confMatrix.shape))
       .squeeze(0)[::-1]] *)
Definition sorted2dArray (confMatrix : Matrix) : list (nat * nat) :=
  let ncols := length (default [] (confMatrix !! 0%nat)) in
  rev ((fun k => (k / ncols, k mod ncols)%nat) <$> argsort (concat confMatrix)).

(** The loop over the sorted cells of [evaluateTrueVsOtherPixError]. *)
Fixpoint mismatchLoop (confMatrix : Matrix) (totalPixelCt : Z)
    (cells : list (nat * nat)) (ct : Z) : outcome (list Mismatch) :=
  match cells with
  | [] => Ok []
  | (r, c) :: rest =>
      if (r =? c)%nat || (Z.of_nat r <? 4) || (Z.of_nat c <? 4)
      then mismatchLoop confMatrix totalPixelCt rest ct
      else
        let ct := ct + 1 in
        if ct =? 90 then Ok []
        else
          trueLable ← lookupLabel labels (Z.of_nat r);
          wrongLable ← lookupLabel labels (Z.of_nat c);
          x ← getitem2 confMatrix (Z.of_nat r) (Z.of_nat c);
          let entry :=
            {| gtLabel := label.name trueLable;
               wrongLabel := label.name wrongLable;
               pixErrorPercentage := np_divide (ZtoQc x * ZtoQc 100)%Qc totalPixelCt;
               pixErrorCount := x |} in
          more ← mismatchLoop confMatrix totalPixelCt rest ct;
          Ok (entry :: more)
  end.

(** Evaluate top true vs other pixel error: the lines printed. *)
Definition evaluateTrueVsOtherPixError (confMatrix : Matrix) (totalPixelCt : Z)
  : outcome (list Mismatch) :=
  mismatchLoop confMatrix totalPixelCt (sorted2dArray confMatrix) 0.

(** The second loop of [evaluatePixelAccuracy]: the diagonal summed over
    the evaluated labels that are at least 4. *)
Definition allNonEdgeTruePositives (confMatrix : Matrix) (args : Args) : outcome Z :=
  foldl (fun acc lbl =>
           total ← acc;
           d ← getitem2 confMatrix lbl lbl;
           Ok (wrap_i64 (total + longlong d)))
        (Ok 0)
        (List.filter (fun lbl => negb (lbl <? 4)) (evalLabels args)).

(** [np.longlong(confMatrix[label, :].sum())] added up over the labels
    [ls], in an [np.longlong] accumulator. *)
Definition pixelsOfLabels (confMatrix : Matrix) (ls : list Z) : outcome Z :=
  foldl (fun acc lbl =>
           total ← acc;
           row ← getitem confMatrix lbl;
           Ok (wrap_i64 (total + longlong (u64sum row))))
        (Ok 0) ls.

(** [np.longlong(confMatrix[label, label])] added up over the labels
    [ls]. *)
Definition truePositivesOfLabels (confMatrix : Matrix) (ls : list Z) : outcome Z :=
  foldl (fun acc lbl =>
           total ← acc;
           d ← getitem2 confMatrix lbl lbl;
           Ok (wrap_i64 (total + longlong d)))
        (Ok 0) ls.

(** [(truePositives * 100.0) / pixels] after a loop over the labels
    [counted]. Both accumulators start as the Python integer 0 and are
    [np.longlong] values from the first label added: when the loop has
    added no label the divisor is the Python integer 0, and the division
    raises; otherwise the division is numpy's, which gives nan or an
    infinity for a zero divisor. *)
Definition percentage (counted : list Z) (truePositives pixels : Z) : outcome npfloat :=
  match counted with
  | [] => Raise ZeroDivisionError
  | _ => Ok (np_divide (ZtoQc truePositives * ZtoQc 100)%Qc pixels)
  end.

(** Gives percent of correctly annotated pixels out of all: the two
    reports that it prints, then the two percentages. Both reports
    receive [allNonEdgeTruePositives] as their [totalPixelCt]. Each of
    the two loops adds the row sum and the diagonal entry of a label;
    the two sums of a loop are computed here one after the other, both
    failing at the same label with the same error. *)
Definition evaluatePixelAccuracy (confMatrix : Matrix) (args : Args)
  : outcome (list ReportLine * list Mismatch * (npfloat * npfloat)) :=
  let nonVoid := List.filter (fun lbl => negb (lbl <? 7)) (evalLabels args) in
  let nonEdge := List.filter (fun lbl => negb (lbl <? 4)) (evalLabels args) in
  nonVoidPixels ← pixelsOfLabels confMatrix nonVoid;
  allTruePositives ← truePositivesOfLabels confMatrix nonVoid;
  nonEdgePixels ← pixelsOfLabels confMatrix nonEdge;
  total ← allNonEdgeTruePositives confMatrix args;
  perLabel ← evaluatePixelError confMatrix total args;
  pairs ← evaluateTrueVsOtherPixError confMatrix total;
  voidPercent ← percentage nonVoid allTruePositives nonVoidPixels;
  edgePercent ← percentage nonEdge total nonEdgePixels;
  Ok (perLabel, pairs, (voidPercent, edgePercent)).

End Reports.

(** ** The accumulation loop *)

(** A decoded single-channel image: [size = (width, height)], and the
    pixel values of [getdata()], which are also those of the flattened
    [np.array]. *)
Record Image : Type := mkImage
  { width : nat; height : nat; pixels : list Z }.

Definition same_shape (a b : Image) : bool :=
  (width a =? width b)%nat && (height a =? height b)%nat.

(** The accumulators that [evaluatePair] mutates in place. *)
Record State : Type := mkState
  { confMatrix : Matrix;
    instanceStats : InstanceStats;
    perImageStats : gmap string PerImage }.

Definition set_confMatrix (m : Matrix) (s : State) : State :=
  {| confMatrix := m;
     instanceStats := instanceStats s;
     perImageStats := perImageStats s |}.

Definition set_instanceStats (i : InstanceStats) (s : State) : State :=
  {| confMatrix := confMatrix s;
     instanceStats := i;
     perImageStats := perImageStats s |}.

Definition set_perImageStats (p : gmap string PerImage) (s : State) : State :=
  {| confMatrix := confMatrix s;
     instanceStats := instanceStats s;
     perImageStats := p |}.

(** Computations over the shared accumulators. A raised error leaves the
    accumulators as they were when it was raised. *)
Definition M (A : Type) : Type := State -> outcome A * State.

Global Instance M_ret : MRet M := fun A a s => (Ok a, s).
Global Instance M_bind : MBind M := fun A B f m s =>
  match m s with
  | (Ok a, s') => f a s'
  | (Raise e, s') => (Raise e, s')
  end.

Definition raise {A} (e : error) : M A := fun s => (Raise e, s).
Definition lift {A} (o : outcome A) : M A := fun s => (o, s).
Definition get : M State := fun s => (Ok s, s).
Definition modify (f : State -> State) : M unit := fun s => (Ok tt, f s).

(** [if c: printError(...)] and other guards *)
Definition failWhen (c : bool) (e : error) : M unit :=
  if c then raise e else mret tt.

Fixpoint forM_ {A} (l : list A) (f : A -> M unit) : M unit :=
  match l with
  | [] => mret tt
  | x :: l' => f x;; forM_ l' f
  end.

(** [np.count_nonzero] of a boolean array *)
Definition count_nonzero (mask : list bool) : Z :=
  Z.of_nat (length (List.filter (fun b : bool => b) mask)).

(** [np.unique]: the sorted distinct values. *)
Fixpoint insert_unique (x : Z) (l : list Z) : list Z :=
  match l with
  | [] => [x]
  | y :: l' =>
      if x <? y then x :: l
      else if x =? y then l
      else y :: insert_unique x l'
  end.

Definition np_unique (l : list Z) : list Z := foldr insert_unique [] l.

Section Accumulation.

Variable labels : list Label.

(** The pixel loop of [evaluatePair] ("the slower python way") over the
    pairs [(groundTruthImgPixel, predictionImgPixel)]. The optional
    Cython module that replaces this loop when it can be imported is not
    part of the sources. *)
Fixpoint accumulatePixels (args : Args) (pxs : list (Z * Z)) : M unit :=
  match pxs with
  | [] => mret tt
  | (groundTruthImgPixel, predictionImgPixel) :: rest =>
      failWhen (negb (bool_decide (groundTruthImgPixel ∈ evalLabels args)))
               (UnknownLabel groundTruthImgPixel);;
      s ← get;
      m ← lift (incr_cell (confMatrix s) groundTruthImgPixel predictionImgPixel);
      modify (set_confMatrix m);;
      accumulatePixels args rest
  end.

(** [np.in1d(predictionNp, labelIds)] for every tracked category. *)
Definition categoryMasks (predictionNp : Image) (stats : InstanceStats)
  : gmap string (list bool) :=
  (fun cs => (fun p => bool_decide (p ∈ labelIds cs)) <$> pixels predictionNp)
    <$> categories stats.

(** [np.unique(instanceNp[instanceNp > 1000])] *)
Definition instList (instanceNp : Image) : list Z :=
  np_unique (List.filter (fun x => 1000 <? x) (pixels instanceNp)).

(** The body of the loop over [instList]. The label id is
    [int(instId/1000)]; on the ids of the list, which exceed 1000, integer
    and true division followed by [int] agree. A mask of another shape
    than the prediction makes [predictionNp[mask]] raise [IndexError]. *)
Definition instanceStep (args : Args) (predictionNp instanceNp : Image)
    (catMasks : gmap string (list bool)) (instId : Z) : M unit :=
  let labelId := instId / 1000 in
  lab ← lift (lookupLabel labels labelId);
  if label.ignoreInEval lab then mret tt else
  let mask := (fun x => x =? instId) <$> pixels instanceNp in
  let instSize := count_nonzero mask in
  failWhen (negb (same_shape instanceNp predictionNp)) IndexError;;
  let tp := count_nonzero
              (zip_with (fun (b : bool) p => b && (p =? labelId))
                        mask (pixels predictionNp)) in
  let fn := instSize - tp in
  let name := label.name lab in
  avg ← lift (from_option (KeyError (KStr name)) (avgClassSize args !! name));
  let weight := (avg / ZtoQc instSize)%Qc in
  let tpWeighted := (ZtoQc tp * weight)%Qc in
  let fnWeighted := (ZtoQc fn * weight)%Qc in
  s ← get;
  cls ← lift (from_option (KeyError (KStr name))
                          (classes (instanceStats s) !! name));
  modify (set_instanceStats
            {| classes :=
                 <[name := addStats cls (ZtoQc tp) (ZtoQc fn) tpWeighted fnWeighted]>
                   (classes (instanceStats s));
               categories := categories (instanceStats s) |});;
  let category := label.category lab in
  s ← get;
  match categories (instanceStats s) !! category with
  | None => mret tt
  | Some cs =>
      cmask ← lift (from_option (KeyError (KStr category)) (catMasks !! category));
      let catTp := count_nonzero (zip_with andb mask cmask) in
      let catFn := instSize - catTp in
      let catTpWeighted := (ZtoQc catTp * weight)%Qc in
      let catFnWeighted := (ZtoQc catFn * weight)%Qc in
      modify (set_instanceStats
                {| classes := classes (instanceStats s);
                   categories :=
                     <[category :=
                         {| catStats := addStats (catStats cs) (ZtoQc catTp) (ZtoQc catFn)
                                                 catTpWeighted catFnWeighted;
                            labelIds := labelIds cs |}]>
                       (categories (instanceStats s)) |})
  end.

(** The block under [if args.evalInstLevelScore]. *)
Definition accumulateInstances (args : Args) (predictionNp instanceNp : Image)
  : M unit :=
  s ← get;
  let catMasks := categoryMasks predictionNp (instanceStats s) in
  forM_ (instList instanceNp) (instanceStep args predictionNp instanceNp catMasks).

(** The block under [if args.evalPixelAccuracy]. *)
Definition accumulatePixelAccuracy (args : Args) (predictionImgFileName : string)
    (predictionNp groundTruthNp : Image) : M unit :=
  notIgnoredLabels ←
    lift (filterM (fun l => lab ← lookupLabel labels l;
                            Ok (negb (label.ignoreInEval lab)))
                  (evalLabels args));
  let notIgnoredPixels :=
    (fun g => negb (bool_decide (g ∈ notIgnoredLabels))) <$> pixels groundTruthNp in
  let erroneousPixels :=
    zip_with andb notIgnoredPixels
             (zip_with (fun p g => negb (p =? g))
                       (pixels predictionNp) (pixels groundTruthNp)) in
  s ← get;
  modify (set_perImageStats
            (<[predictionImgFileName :=
                 {| nbNotIgnoredPixels := count_nonzero notIgnoredPixels;
                    nbCorrectPixels := count_nonzero erroneousPixels |}]>
               (perImageStats s))).

(** Main evaluation method. Evaluates pairs of prediction and ground truth
    images which are passed as arguments. The images are passed decoded
    (loading them is the work of the image library) and single-channel,
    which the source checks for the prediction; [instanceImg] is the
    ground-truth instance image, read only when instances are evaluated. *)
Definition evaluatePair (predictionImgFileName : string)
    (predictionImg groundTruthImg instanceImg : Image) (args : Args) : M Z :=
  failWhen (negb (width predictionImg =? width groundTruthImg)%nat) WidthMismatch;;
  failWhen (negb (height predictionImg =? height groundTruthImg)%nat) HeightMismatch;;
  let imgWidth := width predictionImg in
  let imgHeight := height predictionImg in
  let nbPixels := Z.of_nat imgWidth * Z.of_nat imgHeight in
  accumulatePixels args (zip (pixels groundTruthImg) (pixels predictionImg));;
  (if evalInstLevelScore args
   then accumulateInstances args predictionImg instanceImg
   else mret tt);;
  (if evalPixelAccuracy args
   then accumulatePixelAccuracy args predictionImgFileName predictionImg groundTruthImg
   else mret tt);;
  mret nbPixels.

(** The sanity check of [evaluateImgLists]. *)
Definition sanityCheck (nbPixels : Z) : M unit :=
  s ← get;
  failWhen (negb (matrix_sum (confMatrix s) =? nbPixels))
           (PixelCountDisagree (matrix_sum (confMatrix s)) nbPixels).

(** A ground-truth file with its instance file. *)
Record GroundTruth : Type := mkGroundTruth
  { labelImg : Image; instImg : Image }.

(** The loop of [evaluateImgLists] over the pairs, from the running
    count [nbPixels]. *)
Fixpoint evaluateLoop (pairs : list ((string * Image) * GroundTruth))
    (args : Args) (nbPixels : Z) : M Z :=
  match pairs with
  | [] => mret nbPixels
  | ((predictionImgFileName, predictionImg), groundTruth) :: rest =>
      n ← evaluatePair predictionImgFileName predictionImg
            (labelImg groundTruth) (instImg groundTruth) args;
      let nbPixels := nbPixels + n in
      sanityCheck nbPixels;;
      evaluateLoop rest args nbPixels
  end.

(** Evaluate image lists pairwise: the accumulation phase, up to the
    sanity check that follows the loop. The result is the number of
    analysed pixels and the finished accumulators, from which the report
    is derived. *)
Definition evaluateImgLists (predictionImgList : list (string * Image))
    (groundTruthImgList : list GroundTruth) (args : Args)
  : outcome (Z * State) :=
  if negb (length predictionImgList =? length groundTruthImgList)%nat
  then Raise ListSizeMismatch
  else
    '(args, confMatrix) ← generateMatrix labels args;
    let init := {| confMatrix := confMatrix;
                   instanceStats := generateInstanceStats labels;
                   perImageStats := ∅ |} in
    let run := nbPixels ← evaluateLoop (zip predictionImgList groundTruthImgList) args 0;
               sanityCheck nbPixels;;
               mret nbPixels in
    match run init with
    | (Ok nbPixels, final) => Ok (nbPixels, final)
    | (Raise e, _) => Raise e
    end.

End Accumulation.

(** ** Quantities of the specification *)

(** Entry [[i][j]] of the matrix: pixels with ground truth [i] predicted
    as [j]. *)
Definition matrix_at (m : Matrix) (i j : Z) : Z :=
  default 0 (row ← m !! Z.to_nat i; row !! Z.to_nat j).

Definition row_sum (m : Matrix) (i : Z) : Z :=
  zsum (default [] (m !! Z.to_nat i)).

(** Whether the taxonomy marks label id [i] as excluded from scoring. *)
Definition ignoredId (labels : list Label) (i : Z) : bool :=
  match id2label labels !! i with
  | Some lab => label.ignoreInEval lab
  | None => false
  end.

Definition spec_tp (m : Matrix) (lbl : Z) : Z := matrix_at m lbl lbl.
Definition spec_gt (m : Matrix) (lbl : Z) : Z := row_sum m lbl.
Definition spec_fn (m : Matrix) (lbl : Z) : Z := spec_gt m lbl - spec_tp m lbl.

(** Column [lbl] summed over the rows of the evaluated labels that are
    neither ignored nor [lbl] itself. *)
Definition spec_fp (labels : list Label) (args : Args) (m : Matrix) (lbl : Z) : Z :=
  zsum ((fun r => matrix_at m r lbl)
          <$> List.filter (fun r => negb (ignoredId labels r) && negb (r =? lbl))
                          (evalLabels args)).

(** The matrix is square, of side [n], with non-negative counts. *)
Definition square_counts (n : nat) (m : Matrix) : Prop :=
  length m = n ∧
  Forall (fun row => length row = n ∧ Forall (fun x => 0 <= x) row) m.

(** Every evaluated label id is in the taxonomy and indexes the matrix. *)
Definition evalLabels_indexed (labels : list Label) (args : Args) (n : nat) : Prop :=
  Forall (fun r => is_Some (id2label labels !! r) ∧ 0 <= r < Z.of_nat n)
         (evalLabels args).


(** ** Averages in the words of the specification *)

(** The entries of a score collection whose score is not NaN, each
    with its weight, in the order of the collection. *)
Definition validEntries (scoreList : list (string * (PrimFloat.float * pynumber)))
  : list (PrimFloat.float * pynumber) :=
  snd <$> List.filter (fun e => negb (PrimFloat.is_nan e.2.1)) scoreList.

(** The binary64 sum of a list, added from the left to [0.0]. *)
Definition fsum (l : list PrimFloat.float) : PrimFloat.float :=
  foldl PrimFloat.add PrimFloat.zero l.

(** The sum of a list of weights, added from the left to the integer 0. *)
Definition wsum (l : list pynumber) : pynumber := foldl py_add (PyInt 0) l.

(** Mean of the non-NaN scores; undefined when there is none. *)
Definition spec_mean (scoreList : list (string * (PrimFloat.float * pynumber)))
  : PrimFloat.float :=
  match validEntries scoreList with
  | [] => PrimFloat.nan
  | es => PrimFloat.div (fsum (fst <$> es)) (float_of_Z (Z.of_nat (length es)))
  end.

(** [sum(score * weight) / sum(weight)] over the non-NaN scores;
    undefined when the weights sum to zero. *)
Definition spec_weighted_mean (scoreList : list (string * (PrimFloat.float * pynumber)))
  : PrimFloat.float :=
  let es := validEntries scoreList in
  let weightSum := wsum (snd <$> es) in
  if py_is_zero weightSum then PrimFloat.nan
  else PrimFloat.div (fsum ((fun e => PrimFloat.mul e.1 (to_float e.2)) <$> es))
                     (to_float weightSum).




(** ** A small taxonomy for the examples *)

(** Sixteen rows in the format of the label table: void labels with low
    ids, stuff labels, one label with instances and one special label
    with a negative id. *)
Definition demoLabels : list Label :=
  [ label.mk "unlabeled" 0 "void" false true;
    label.mk "ego vehicle" 1 "void" false true;
    label.mk "rectification border" 2 "void" false true;
    label.mk "out of roi" 3 "void" false true;
    label.mk "static" 4 "void" false true;
    label.mk "dynamic" 5 "void" false true;
    label.mk "ground" 6 "void" false true;
    label.mk "road" 7 "flat" false false;
    label.mk "sidewalk" 8 "flat" false false;
    label.mk "parking" 9 "flat" false true;
    label.mk "rail track" 10 "flat" false true;
    label.mk "building" 11 "construction" false false;
    label.mk "wall" 12 "construction" false false;
    label.mk "fence" 13 "construction" false false;
    label.mk "car" 14 "vehicle" true false;
    label.mk "license plate" (-1) "vehicle" false true ].

(** [args] after [generateMatrix], with an average instance size for the
    one label with instances. *)
Definition demoArgs : Args :=
  {| evalLabels := [0; 1; 2; 3; 4; 5; 6; 7; 8; 9; 10; 11; 12; 13; 14];
     evalInstLevelScore := true;
     evalPixelAccuracy := true;
     avgClassSize := {[ "car"%string := ZtoQc 500 ]} |}.

(** A finished matrix over [demoLabels]: 142 pixels of road, of which
    100 are predicted as road and the others as seven other labels, and
    52 pixels of sidewalk, of which 2 are predicted as road. *)
Definition demoMatrix : Matrix :=
  <[7%nat := [0; 0; 0; 0; 0; 0; 0; 100; 9; 8; 7; 6; 5; 4; 3]]>
    (<[8%nat := [0; 0; 0; 0; 0; 0; 0; 2; 50; 0; 0; 0; 0; 0; 0]]> (zeros 15)).

(** ** Reading the mismatch reports *)

(** The confusions printed on one line of the per-label report. *)
Definition lineEntries (l : ReportLine) : list Confusion :=
  match l with
  | NoPixels _ => []
  | Confusions _ entries => entries
  end.

(** The cells that the global report does not skip: off the diagonal,
    both label ids at least 4. *)
Definition eligibleCells (m : Matrix) : list (nat * nat) :=
  List.filter (fun '(r, c) => negb ((r =? c)%nat || (Z.of_nat r <? 4) || (Z.of_nat c <? 4)))
              (sorted2dArray m).

(** ** Well-formed inputs of the accumulation *)

(** A decoded image has [width * height] pixels. *)
Definition wf_image (img : Image) : Prop :=
  length (pixels img) = (width img * height img)%nat.

(** Every evaluated label id indexes a row of a matrix of side [n]. *)
Definition evalLabels_in_range (args : Args) (n : nat) : Prop :=
  Forall (fun r => 0 <= r < Z.of_nat n) (evalLabels args).

(** A two-pixel image pair whose second ground-truth pixel is not a label
    id of [demoLabels]. *)
Definition unknownGt : Image := {| width := 2; height := 1; pixels := [7; 99] |}.
Definition unknownPred : Image := {| width := 2; height := 1; pixels := [7; 7] |}.

(** The accumulators at the start of a run over [demoLabels]. *)
Definition demoInit : State :=
  {| confMatrix := zeros 15;
     instanceStats := generateInstanceStats demoLabels;
     perImageStats := ∅ |}.

(** ** Instance statistics in the words of the specification *)

(** Pixel count of the instance [instId]. *)
Definition spec_instSize (instanceNp : Image) (instId : Z) : Z :=
  Z.of_nat (length (List.filter (fun x => x =? instId) (pixels instanceNp))).

(** Pixels of the instance [instId] that are predicted as its label id,
    [instId] integer-divided by 1000. *)
Definition spec_instTp (predictionNp instanceNp : Image) (instId : Z) : Z :=
  Z.of_nat (length (List.filter
                      (fun ip => (ip.1 =? instId) && (ip.2 =? instId / 1000))
                      (zip (pixels instanceNp) (pixels predictionNp)))).

(** The class entry [cls] of the label named [name] after the instance
    [instId] has been added. *)
Definition classUpdate (args : Args) (predictionNp instanceNp : Image)
    (name : string) (cls : Stats) (instId : Z) : Stats :=
  let instSize := spec_instSize instanceNp instId in
  let tp := spec_instTp predictionNp instanceNp instId in
  let fn := instSize - tp in
  let weight := (default 0%Qc (avgClassSize args !! name) / ZtoQc instSize)%Qc in
  addStats cls (ZtoQc tp) (ZtoQc fn) (ZtoQc tp * weight)%Qc (ZtoQc fn * weight)%Qc.

(** The instance ids of [ids] whose decoded label is named [name] and is
    not ignored. *)
Definition idsOfClass (labels : list Label) (name : string) (ids : list Z) : list Z :=
  List.filter (fun instId =>
                 match id2label labels !! (instId / 1000) with
                 | Some lab => negb (label.ignoreInEval lab)
                               && bool_decide (label.name lab = name)
                 | None => false
                 end) ids.

(** What the instance loop needs of an instance id to process it: its
    decoded label is in the taxonomy and either is ignored or has an
    average size and a class entry. *)
Definition instanceKnown (labels : list Label) (args : Args)
    (cls : gmap string Stats) (instId : Z) : Prop :=
  ∃ lab, id2label labels !! (instId / 1000) = Some lab
         ∧ (label.ignoreInEval lab = true
            ∨ (is_Some (avgClassSize args !! label.name lab)
               ∧ is_Some (cls !! label.name lab))).

(** ** Example instance maps over [demoLabels] *)

(** Two instances of "car" (of 2 pixels and 1 pixel) and one pixel
    without instance; the prediction misses one pixel of the first car. *)
Definition carsInst : Image := {| width := 2; height := 2; pixels := [14001; 14001; 14002; 7] |}.
Definition carsPred : Image := {| width := 2; height := 2; pixels := [14; 7; 14; 7] |}.

(** An instance id above 1000 that decodes to "road", a label that is
    evaluated but has no instances. *)
Definition roadInst : Image := {| width := 2; height := 1; pixels := [7001; 7001] |}.
Definition roadPred : Image := {| width := 2; height := 1; pixels := [7; 7] |}.

(** ** Per-image pixel accuracy in the words of the specification *)

(** Pixels whose ground-truth label is evaluated and not ignored. *)
Definition spec_nbNotIgnoredPixels (labels : list Label) (args : Args)
    (groundTruthNp : Image) : Z :=
  Z.of_nat (length (List.filter
                      (fun g => bool_decide (g ∈ evalLabels args)
                                && negb (ignoredId labels g))
                      (pixels groundTruthNp))).

(** Those of them whose prediction equals the ground truth. *)
Definition spec_nbCorrectPixels (labels : list Label) (args : Args)
    (predictionNp groundTruthNp : Image) : Z :=
  Z.of_nat (length (List.filter
                      (fun gp => bool_decide (gp.1 ∈ evalLabels args)
                                 && negb (ignoredId labels gp.1)
                                 && (gp.2 =? gp.1))
                      (zip (pixels groundTruthNp) (pixels predictionNp)))).

(** Three pixels: two of road, one of them predicted as sidewalk, and one
    of the ignored label "unlabeled". *)
Definition accuracyGt : Image := {| width := 3; height := 1; pixels := [7; 7; 0] |}.
Definition accuracyPred : Image := {| width := 3; height := 1; pixels := [7; 8; 0] |}.

(** ** Inputs that the accumulation can count *)

(** Sum of [width * height] over the pairs. *)
Definition pixelCount (pairs : list ((string * Image) * GroundTruth)) : Z :=
  zsum ((fun p => Z.of_nat (width p.1.2) * Z.of_nat (height p.1.2)) <$> pairs).

(** A pair that [evaluatePair] processes without error on a matrix of
    side [n]: images of equal size, ground-truth values among the
    evaluated labels, predictions that index a column, and, when
    instances are evaluated, an instance map of the same shape whose
    instance ids the instance loop knows. *)
Definition countablePair (labels : list Label) (args : Args) (n : nat)
    (p : (string * Image) * GroundTruth) : Prop :=
  let predictionImg := p.1.2 in
  let groundTruthImg := labelImg p.2 in
  let instanceImg := instImg p.2 in
  width predictionImg = width groundTruthImg
  ∧ height predictionImg = height groundTruthImg
  ∧ wf_image predictionImg ∧ wf_image groundTruthImg
  ∧ Forall (fun g => g ∈ evalLabels args) (pixels groundTruthImg)
  ∧ Forall (fun x => is_Some (np_index n x)) (pixels predictionImg)
  ∧ (evalInstLevelScore args = true ->
     same_shape instanceImg predictionImg = true
     ∧ Forall (instanceKnown labels args (classes (generateInstanceStats labels)))
              (instList instanceImg)).

(** The 2x2 pair of the specification, with its instance map, and a
    second pair with two cars. *)
Definition scenarioGt : Image := {| width := 2; height := 2; pixels := [7; 7; 8; 8] |}.
Definition scenarioPred : Image := {| width := 2; height := 2; pixels := [7; 8; 8; 8] |}.
Definition carsGt : Image := {| width := 2; height := 2; pixels := [14; 14; 14; 7] |}.

Definition demoPredictions : list (string * Image) :=
  [("a_pred.png"%string, scenarioPred); ("b_pred.png"%string, carsPred)].
Definition demoGroundTruths : list GroundTruth :=
  [ {| labelImg := scenarioGt; instImg := scenarioGt |};
    {| labelImg := carsGt; instImg := carsInst |} ].

(** [args] before [generateMatrix] has run. *)
Definition demoArgs0 : Args := set_evalLabels [] demoArgs.

(** The blocks of [evaluatePair] that follow the pixel loop. *)
Definition afterPixels (labels : list Label) (predictionImgFileName : string)
    (predictionImg groundTruthImg instanceImg : Image) (args : Args) : M unit :=
  (if evalInstLevelScore args
   then accumulateInstances labels args predictionImg instanceImg
   else mret tt);;
  (if evalPixelAccuracy args
   then accumulatePixelAccuracy labels args predictionImgFileName predictionImg groundTruthImg
   else mret tt).


(** The invariant of the loop on the accumulators. *)
Definition accumulators_ok (labels : list Label) (n : nat) (s : State) : Prop :=
  square_counts n (confMatrix s)
  ∧ ∀ name, is_Some (classes (generateInstanceStats labels) !! name)
            -> is_Some (classes (instanceStats s) !! name).


(** ** More of the score calculator *)

(** Get absolute or normalized value from field in confusion matrix.
    [normalized] is the flag [args.normalized]. *)
Definition getMatrixFieldValue (confMatrix : Matrix) (i j : Z) (normalized : bool)
  : outcome num :=
  if normalized then
    row ← getitem confMatrix i;
    let rowSum := u64sum row in
    if rowSum =? 0 then Ok NaN
    else
      x ← getitem2 confMatrix i j;
      Ok (ndiv (Num (ZtoQc x)) (Num (ZtoQc rowSum)))
  else
    x ← getitem2 confMatrix i j;
    Ok (Num (ZtoQc x)).

(** Calculate prior for a particular class id. The division is numpy's:
    a matrix without any count gives [nan]. *)
Definition getPrior (lbl : Z) (confMatrix : Matrix) : outcome npfloat :=
  row ← getitem confMatrix lbl;
  Ok (np_divide (ZtoQc (u64sum row)) (matrix_sum confMatrix)).

(** [confMatrix[rows, :][:, cols].sum()] *)
Definition submatrixSum (confMatrix : Matrix) (rows cols : list Z) : outcome Z :=
  selected ← mapM (getitem confMatrix) rows;
  cells ← mapM (fun row => mapM (getitem row) cols) selected;
  Ok (u64sum (concat cells)).

(** [confMatrix[rows, :].sum()] *)
Definition rowsSum (confMatrix : Matrix) (rows : list Z) : outcome Z :=
  selected ← mapM (getitem confMatrix) rows;
  Ok (u64sum (concat selected)).

Section MoreScores.

Variable labels : list Label.

(** Calculate and return IOU score for a particular label, with the
    weighted instance counts in the place of the pixel counts. *)
Definition getInstanceIouScoreForLabel (lbl : Z) (confMatrix : Matrix)
    (instStats : InstanceStats) (args : Args) : outcome (num * num) :=
  lab ← lookupLabel labels lbl;
  if label.ignoreInEval lab then Ok (NaN, NaN) else
  let labelName := label.name lab in
  match classes instStats !! labelName with
  | None => Ok (NaN, NaN)
  | Some cls =>
      let tp := tpWeighted cls in
      let fn := fnWeighted cls in
      let gt := (tp + fn)%Qc in
      notIgnored ← notIgnoredExcept labels args lbl;
      col ← mapM (fun r => getitem2 confMatrix r lbl) notIgnored;
      let fp := longlong (u64sum col) in
      let denom := (tp + ZtoQc fp + fn)%Qc in
      if Qc_is_zero denom then Ok (NaN, NaN)
      else Ok (Num (tp / denom)%Qc, Num gt)
  end.

(** The comprehension
    [[l for l in args.evalLabels if not id2label[l].ignoreInEval
                                    and id2label[l].category != category]]. *)
Definition notIgnoredAndNotInCategory (args : Args) (category : string)
  : outcome (list Z) :=
  filterM (fun l => lab ← lookupLabel labels l;
                    Ok (negb (label.ignoreInEval lab)
                        && negb (bool_decide (label.category lab = category))))
          (evalLabels args).

(** The IDs of all valid labels in a category. *)
Definition validLabelIds (args : Args) (members : list Label) : list Z :=
  label.id <$> List.filter
                 (fun l => negb (label.ignoreInEval l)
                           && bool_decide (label.id l ∈ evalLabels args))
                 members.

(** Calculate and return IOU score for a particular category. *)
Definition getIouScoreForCategory (category : string) (confMatrix : Matrix)
    (args : Args) : outcome (num * num) :=
  members ← from_option (KeyError (KStr category))
                        (category2labels labels !! category);
  let labelIds := validLabelIds args members in
  match labelIds with
  | [] => Ok (NaN, NaN)
  | _ =>
      inside ← submatrixSum confMatrix labelIds labelIds;
      let tp := longlong inside in
      total ← rowsSum confMatrix labelIds;
      let fn := wrap_i64 (longlong total - tp) in
      others ← notIgnoredAndNotInCategory args category;
      outside ← submatrixSum confMatrix others labelIds;
      let fp := longlong outside in
      let denom := wrap_i64 (wrap_i64 (tp + fp) + fn) in
      if denom =? 0 then Ok (NaN, NaN)
      else Ok (ndiv (Num (ZtoQc tp)) (Num (ZtoQc denom)),
               Num (ZtoQc (wrap_i64 (tp + fn))))
  end.

(** Calculate and return IOU score for a particular category, with the
    weighted instance counts in the place of the pixel counts. *)
Definition getInstanceIouScoreForCategory (category : string) (confMatrix : Matrix)
    (instStats : InstanceStats) (args : Args) : outcome (num * num) :=
  match categories instStats !! category with
  | None => Ok (NaN, NaN)
  | Some cs =>
      let tp := tpWeighted (catStats cs) in
      let fn := fnWeighted (catStats cs) in
      others ← notIgnoredAndNotInCategory args category;
      outside ← submatrixSum confMatrix others (labelIds cs);
      let fp := longlong outside in
      let denom := (tp + ZtoQc fp + fn)%Qc in
      if Qc_is_zero denom then Ok (NaN, NaN)
      else Ok (Num (tp / denom)%Qc, Num (tp + fn)%Qc)
  end.

(** The loops of [evaluateImgLists] that fill [classScoreList] and
    [classInstScoreList]: one entry per evaluated label, under the name
    of the label. *)
Definition scoreListOver (score : Z -> outcome (num * num)) (args : Args)
  : outcome (gmap string (num * num)) :=
  foldl (fun acc lbl =>
           scores ← acc;
           lab ← lookupLabel labels lbl;
           s ← score lbl;
           Ok (<[label.name lab := s]> scores))
        (Ok ∅) (evalLabels args).


Definition classInstScoreList (confMatrix : Matrix) (instStats : InstanceStats)
    (args : Args) : outcome (gmap string (num * num)) :=
  scoreListOver
    (fun lbl => getInstanceIouScoreForLabel lbl confMatrix instStats args) args.

End MoreScores.

(** ** The lists of images that [main] evaluates *)

(** [sub in s] on strings. *)
Definition contains (sub s : string) : bool :=
  match String.index 0 sub s with
  | Some _ => true
  | None => false
  end.

(** What [main] hands to [evaluateImgLists], or the fatal error of an
    empty ground-truth search, or the ground-truth file at which a call
    of [getPrediction] ended the program. *)
Inductive ImageLists : Type :=
| NoGroundTruthFound
| PredictionSearchStopped (groundTruthFile : string)
| Lists (predictionImgList groundTruthImgList : list string).

(** The loop over the arguments when there are more than three. *)
Definition listsOfArguments (argv : list string) : list string * list string :=
  foldl (fun '(predictionImgList, groundTruthImgList) arg =>
           if contains "gt" arg || contains "groundtruth" arg
           then (predictionImgList, groundTruthImgList ++ [arg])
           else if contains "pred" arg
           then (predictionImgList ++ [arg], groundTruthImgList)
           else (predictionImgList, groundTruthImgList))
        ([], []) argv.

(** The loop over the predictions found for one ground-truth file. *)
Definition addPredictions (gt : string) (elements : list string)
    (lists : list string * list string) : list string * list string :=
  foldl (fun '(predictionImgList, groundTruthImgList) ele =>
           if negb (String.eqb gt ele)
              && negb (bool_decide (ele ∈ groundTruthImgList))
           then (predictionImgList ++ [ele], groundTruthImgList ++ [gt])
           else (predictionImgList, groundTruthImgList))
        lists elements.

(** The loop over the ground-truth files of the search. A call of
    [getPrediction] that ends the program ends the loop. *)
Fixpoint searchPredictions (getPrediction : string -> option (list string))
    (groundTruthImgListCopy : list string) (lists : list string * list string)
  : string + (list string * list string) :=
  match groundTruthImgListCopy with
  | [] => inr lists
  | gt :: rest =>
      match getPrediction gt with
      | None => inl gt
      | Some elements =>
          searchPredictions getPrediction rest (addPredictions gt elements lists)
      end
  end.

(** The main method, up to the call of [evaluateImgLists]. The file
    system is seen through [globbed], the result of the ground-truth
    search, and [getPrediction], the predictions found for a ground-truth
    file: [getPrediction] reads the environment and the result folder
    and calls a helper to split the file name; it gives [None] where it
    ends the program through [printError]. *)
Definition mainLists (argv : list string) (globbed : list string)
    (getPrediction : string -> option (list string)) : ImageLists :=
  if (3 <? length argv)%nat then
    let '(predictionImgList, groundTruthImgList) := listsOfArguments argv in
    Lists predictionImgList groundTruthImgList
  else if (length argv =? 0)%nat then
    match globbed with
    | [] => NoGroundTruthFound
    | _ =>
        match searchPredictions getPrediction globbed ([], []) with
        | inl gt => PredictionSearchStopped gt
        | inr (predictionImgList, groundTruthImgList) =>
            Lists predictionImgList groundTruthImgList
        end
    end
  else Lists [] [].

(** ** Properties of the lists of [main] *)

(** The pairs that the search mode builds for the ground-truth files of
    [globbed]: each prediction comes from the predictions of its
    ground-truth file and differs from it. *)
Definition searched (globbed : list string)
    (getPrediction : string -> option (list string)) (p g : list string) : Prop :=
  Forall2 (fun pe ge => pe ≠ ge ∧ ge ∈ globbed
                        ∧ ∃ elements, getPrediction ge = Some elements ∧ pe ∈ elements)
          p g.

(** ** Counting pixels per cell *)

(** The pixels of [pxs] with ground truth [i] whose prediction indexes
    column [j] of a matrix of side [n]. *)
Definition countCell (n : nat) (i j : Z) (pxs : list (Z * Z)) : Z :=
  Z.of_nat (length (List.filter
                      (fun gp => (gp.1 =? i)
                                 && bool_decide (np_index n gp.2 = Some (Z.to_nat j)))
                      pxs)).

(** ** The frame of the instance accumulation *)

(** What no step of the instance loop changes, whether it succeeds or
    fails. *)
Definition sameFrame (s s' : State) : Prop :=
  confMatrix s' = confMatrix s
  ∧ perImageStats s' = perImageStats s
  ∧ (∀ name, is_Some (classes (instanceStats s') !! name)
             ↔ is_Some (classes (instanceStats s) !! name))
  ∧ (∀ c, labelIds <$> categories (instanceStats s') !! c
          = labelIds <$> categories (instanceStats s) !! c).


(** ** Reading the cells of the global mismatch report *)

(** The count of the cell with row number [rc.1] and column number
    [rc.2]. *)
Definition cellCount (m : Matrix) (rc : nat * nat) : Z :=
  matrix_at m (Z.of_nat rc.1) (Z.of_nat rc.2).

(** ** Reading the lines of the per-label report *)

(** The columns that the line of label [lbl] does not skip, in the order
    in which the loop meets them. *)
Definition otherColumns (m : Matrix) (lbl : Z) : list nat :=
  List.filter (fun j => negb (Z.of_nat j =? lbl))
              (rev (argsort (default [] (m !! Z.to_nat lbl)))).

(** * Properties *)

Section Wrapping.

Lemma wrap_u64_small z : 0 <= z < 2 ^ 64 -> wrap_u64 z = z.
Proof. intros H. unfold wrap_u64. now apply Z.mod_small. Qed.

Lemma wrap_i64_small z : - 2 ^ 63 <= z < 2 ^ 63 -> wrap_i64 z = z.
Proof.
  intros H. unfold wrap_i64.
  rewrite Z.mod_small; lia.
Qed.

Lemma longlong_u64_small z : 0 <= z < 2 ^ 63 -> longlong (wrap_u64 z) = z.
Proof.
  intros H. unfold longlong.
  rewrite wrap_u64_small by lia. apply wrap_i64_small. lia.
Qed.

Lemma Qc_is_zero_ZtoQc z : Qc_is_zero (ZtoQc z) = (z =? 0).
Proof.
  unfold Qc_is_zero, ZtoQc. simpl.
  destruct (Z.eqb_spec z 0) as [->|Hz].
  - reflexivity.
  - apply not_true_is_false. intros Heq.
    apply Qeq_bool_iff in Heq. rewrite Qred_correct in Heq.
    unfold Qeq in Heq. simpl in Heq. lia.
Qed.

End Wrapping.

Section Indexing.

Lemma np_index_nonneg n i :
  0 <= i < Z.of_nat n -> np_index n i = Some (Z.to_nat i).
Proof.
  intros H. unfold np_index. destruct (decide _) as [_|Hn]; [reflexivity|lia].
Qed.

Lemma getitem_nonneg {A} (l : list A) i :
  0 <= i < Z.of_nat (length l) ->
  getitem l i = from_option IndexError (l !! Z.to_nat i).
Proof.
  intros H. unfold getitem. rewrite np_index_nonneg by exact H. reflexivity.
Qed.

Lemma zsum_nonneg l : Forall (fun x => 0 <= x) l -> 0 <= zsum l.
Proof. induction 1; simpl; lia. Qed.

Lemma zsum_lookup_le l k x :
  Forall (fun x => 0 <= x) l -> l !! k = Some x -> 0 <= x <= zsum l.
Proof.
  intros H. revert k. induction H as [|y l Hy Hl IH]; intros k Hk.
  - discriminate.
  - destruct k as [|k]; simpl in *.
    + injection Hk as ->. pose proof (zsum_nonneg l Hl). lia.
    + specialize (IH k Hk). lia.
Qed.

Lemma square_counts_row n m i :
  square_counts n m -> 0 <= i < Z.of_nat n ->
  ∃ row, m !! Z.to_nat i = Some row ∧ length row = n
         ∧ Forall (fun x => 0 <= x) row.
Proof.
  intros [Hlen Hrows] Hi.
  destruct (lookup_lt_is_Some_2 m (Z.to_nat i)) as [row Hrow]; [lia|].
  exists row. split; [exact Hrow|].
  rewrite Forall_forall in Hrows.
  apply Hrows. eapply list_elem_of_lookup_2. exact Hrow.
Qed.

Lemma getitem2_matrix_at n m i j :
  square_counts n m -> 0 <= i < Z.of_nat n -> 0 <= j < Z.of_nat n ->
  getitem2 m i j = Ok (matrix_at m i j) ∧ 0 <= matrix_at m i j <= row_sum m i.
Proof.
  intros Hm Hi Hj.
  destruct (square_counts_row n m i Hm Hi) as (row & Hrow & Hlen & Hpos).
  destruct (lookup_lt_is_Some_2 row (Z.to_nat j)) as [x Hx]; [lia|].
  unfold getitem2, matrix_at, row_sum.
  rewrite getitem_nonneg by (destruct Hm; lia).
  rewrite Hrow. simpl.
  rewrite getitem_nonneg by lia. rewrite Hx. simpl.
  split; [reflexivity|]. eapply zsum_lookup_le; eauto.
Qed.

End Indexing.

Section LabelIoU.

Variable labels : list Label.

Lemma lookupLabel_Some i lab :
  id2label labels !! i = Some lab -> lookupLabel labels i = Ok lab.
Proof. intros H. unfold lookupLabel. now rewrite H. Qed.

Lemma filterM_known (f : Label -> bool) (l : list Z) :
  Forall (fun r => is_Some (id2label labels !! r)) l ->
  filterM (fun r => lab ← lookupLabel labels r; Ok (f lab)) l
  = Ok (List.filter
          (fun r => match id2label labels !! r with
                    | Some lab => f lab
                    | None => false
                    end) l).
Proof.
  induction 1 as [|r l [lab Hr] _ IH]; [reflexivity|].
  cbn [filterM List.filter]. rewrite (lookupLabel_Some _ _ Hr), Hr. cbn.
  rewrite IH. cbn. reflexivity.
Qed.

Lemma notIgnoredExcept_filter args n lbl :
  evalLabels_indexed labels args n ->
  notIgnoredExcept labels args lbl
  = Ok (List.filter (fun r => negb (ignoredId labels r) && negb (r =? lbl))
                    (evalLabels args)).
Proof.
  unfold evalLabels_indexed, notIgnoredExcept. intros H.
  induction H as [|r l [[lab Hr] _] _ IH]; [reflexivity|].
  cbn [filterM List.filter]. unfold ignoredId at 1.
  rewrite (lookupLabel_Some _ _ Hr), Hr. cbn.
  rewrite IH. cbn. reflexivity.
Qed.

Lemma mapM_column n m lbl rs :
  square_counts n m -> 0 <= lbl < Z.of_nat n ->
  Forall (fun r => 0 <= r < Z.of_nat n) rs ->
  mapM (fun r => getitem2 m r lbl) rs = Ok ((fun r => matrix_at m r lbl) <$> rs)
  ∧ 0 <= zsum ((fun r => matrix_at m r lbl) <$> rs).
Proof.
  intros Hm Hl. induction 1 as [|r rs Hr _ [IH1 IH2]]; [split; [reflexivity|cbn; unfold zsum; simpl; lia]|].
  destruct (getitem2_matrix_at n m r lbl Hm Hr Hl) as [Hg Hb].
  cbn [mapM]. rewrite Hg. cbn. rewrite IH1. cbn. split; [reflexivity|].
  unfold zsum in *. cbn in *. lia.
Qed.

(** The score of a label that is evaluated and not ignored, on a matrix
    whose counts fit the machine integers. *)
Lemma getIouScoreForLabel_run args n m lbl lab :
  lbl ∈ evalLabels args ->
  id2label labels !! lbl = Some lab ->
  label.ignoreInEval lab = false ->
  evalLabels_indexed labels args n ->
  square_counts n m ->
  spec_gt m lbl + spec_fp labels args m lbl < 2 ^ 63 ->
  let tp := spec_tp m lbl in
  let fn := spec_fn m lbl in
  let fp := spec_fp labels args m lbl in
  getIouScoreForLabel labels lbl m args
  = Ok (if tp + fp + fn =? 0 then (NaN, NaN)
        else (Num (ZtoQc tp / ZtoQc (tp + fp + fn))%Qc, Num (ZtoQc (spec_gt m lbl)))).
Proof.
  intros Hin Hlab Hign Hidx Hm Hbound tp fn fp.
  assert (Hl : 0 <= lbl < Z.of_nat n).
  { unfold evalLabels_indexed in Hidx. rewrite Forall_forall in Hidx.
    apply (Hidx lbl Hin). }
  destruct (getitem2_matrix_at n m lbl lbl Hm Hl Hl) as [Hd Hdb].
  destruct (square_counts_row n m lbl Hm Hl) as (row & Hrow & Hlen & Hpos).
  assert (Hrs : row_sum m lbl = zsum row) by (unfold row_sum; now rewrite Hrow).
  assert (Hrows : Forall (fun r => 0 <= r < Z.of_nat n)
            (List.filter (fun r => negb (ignoredId labels r) && negb (r =? lbl))
                         (evalLabels args))).
  { apply Forall_forall. intros r Hr. apply list_elem_of_In, filter_In in Hr.
    destruct Hr as [Hr _]. unfold evalLabels_indexed in Hidx.
    rewrite Forall_forall in Hidx. apply (Hidx r). now apply list_elem_of_In. }
  destruct (mapM_column n m lbl _ Hm Hl Hrows) as [Hcol Hfp].
  fold (spec_fp labels args m lbl) in Hfp. fold fp in Hfp.
  unfold spec_gt in *. fold (spec_tp m lbl) in Hdb. fold tp in Hdb.
  unfold getIouScoreForLabel.
  rewrite (lookupLabel_Some _ _ Hlab). cbn. rewrite Hign.
  rewrite Hd. cbn.
  rewrite getitem_nonneg by (destruct Hm; lia). rewrite Hrow. cbn.
  rewrite (notIgnoredExcept_filter args n lbl Hidx). cbn.
  rewrite Hcol. cbn.
  unfold u64sum. fold (spec_fp labels args m lbl). fold fp.
  rewrite <- Hrs.
  assert (Htp : longlong (matrix_at m lbl lbl) = tp).
  { unfold longlong. apply wrap_i64_small. unfold tp, spec_tp in *. lia. }
  rewrite Htp.
  rewrite !longlong_u64_small by (fold fp in Hbound; lia).
  assert (Hfn : wrap_i64 (row_sum m lbl - tp) = fn).
  { apply wrap_i64_small. unfold fn, spec_fn, spec_gt.
    fold tp. fold fp in Hbound. lia. }
  rewrite Hfn.
  assert (Hfn' : fn = row_sum m lbl - tp) by reflexivity.
  fold fp in Hbound.
  rewrite (wrap_i64_small (tp + fp)) by lia.
  rewrite (wrap_i64_small (tp + fp + fn)) by lia.
  destruct (Z.eqb_spec (tp + fp + fn) 0) as [Hz|Hz]; [reflexivity|].
  unfold ndiv. rewrite Qc_is_zero_ZtoQc.
  destruct (Z.eqb_spec (tp + fp + fn) 0); [contradiction|reflexivity].
Qed.

(** C1: for a label of the evaluated set that is not ignored, the
    semantic IoU of a finished matrix is [tp / (tp + fp + fn)] with
    [tp] the diagonal entry, [fn] the row sum minus [tp] and [fp] the
    column summed over the evaluated, non-ignored, other rows; it is
    [(NaN, NaN)] when the denominator is zero, and otherwise its second
    component is the row sum. *)
Theorem getIouScoreForLabel_formula args n m lbl lab :
  lbl ∈ evalLabels args ->
  id2label labels !! lbl = Some lab ->
  label.ignoreInEval lab = false ->
  evalLabels_indexed labels args n ->
  square_counts n m ->
  spec_gt m lbl + spec_fp labels args m lbl < 2 ^ 63 ->
  let tp := spec_tp m lbl in
  let fn := spec_fn m lbl in
  let fp := spec_fp labels args m lbl in
  getIouScoreForLabel labels lbl m args
  = Ok (if tp + fp + fn =? 0 then (NaN, NaN)
        else (Num (ZtoQc tp / ZtoQc (tp + fp + fn))%Qc, Num (ZtoQc (spec_gt m lbl)))).
Proof. apply getIouScoreForLabel_run. Qed.

End LabelIoU.

Lemma getIouScoreForLabel_formula_witness :
  getIouScoreForLabel demoLabels 7 demoMatrix demoArgs
  = Ok (Num (ZtoQc 100 / ZtoQc 144)%Qc, Num (ZtoQc 142)).
Proof.
  rewrite (getIouScoreForLabel_formula demoLabels demoArgs 15 demoMatrix 7
             (label.mk "road" 7 "flat" false false)).
  - vm_compute. reflexivity.
  - apply (bool_decide_unpack _). vm_compute. exact I.
  - vm_compute. reflexivity.
  - reflexivity.
  - unfold evalLabels_indexed. apply (bool_decide_unpack _). vm_compute. exact I.
  - unfold square_counts. apply (bool_decide_unpack _). vm_compute. exact I.
  - vm_compute. reflexivity.
Defined.

Section Averages.

Lemma ZtoQc_add a b : ZtoQc (a + b) = (ZtoQc a + ZtoQc b)%Qc.
Proof.
  apply Qc_is_canon. unfold ZtoQc. simpl.
  rewrite !Qred_correct. rewrite inject_Z_plus. reflexivity.
Qed.

Lemma ZtoQc_1 : ZtoQc 1 = 1%Qc.
Proof. apply Qc_is_canon. reflexivity. Qed.

Lemma ZtoQc_nonzero z : z ≠ 0 -> ZtoQc z ≠ 0%Qc.
Proof.
  intros Hz Heq. pose proof (Qc_is_zero_ZtoQc z) as H.
  rewrite Heq in H. destruct (Z.eqb_spec z 0); [contradiction|].
  discriminate H.
Qed.

Lemma Qc_is_zero_false q : q ≠ 0%Qc -> Qc_is_zero q = false.
Proof.
  intros Hq. apply not_true_is_false. intros H. apply Hq.
  apply Qc_is_canon. now apply Qeq_bool_iff.
Qed.

Lemma Qc_is_zero_true q : Qc_is_zero q = true -> q = 0%Qc.
Proof. intros H. apply Qc_is_canon. now apply Qeq_bool_iff. Qed.

(** The accumulators of [getScoreAverage] after a run over [l]. *)
Lemma plain_fold (l : list (string * (PrimFloat.float * pynumber))) c s :
  foldl (fun '(validScores, scoreSum) '(_, (score, _)) =>
           if PrimFloat.is_nan score then (validScores, scoreSum)
           else (validScores + 1, PrimFloat.add scoreSum score))
        (c, s) l
  = (c + Z.of_nat (length (validEntries l)),
     foldl PrimFloat.add s (fst <$> validEntries l)).
Proof.
  revert c s. induction l as [|[k [score w]] l IH]; intros c s.
  - cbn. f_equal. lia.
  - cbn [foldl]. cbv beta iota. unfold validEntries. cbn [List.filter snd fst].
    destruct (PrimFloat.is_nan score); cbn [negb]; rewrite IH; [reflexivity|].
    unfold validEntries. cbn [fmap list_fmap length foldl fst snd]. f_equal. lia.
Qed.

(** The accumulators of [getFreqScoreAverage] after a run over [l]. *)
Lemma freq_fold (l : list (string * (PrimFloat.float * pynumber))) c s :
  foldl (fun '(validScores, scoreSum) '(_, (score, weight)) =>
           if PrimFloat.is_nan score then (validScores, scoreSum)
           else (py_add validScores weight,
                 PrimFloat.add scoreSum (PrimFloat.mul score (to_float weight))))
        (c, s) l
  = (foldl py_add c (snd <$> validEntries l),
     foldl PrimFloat.add s
           ((fun e => PrimFloat.mul e.1 (to_float e.2)) <$> validEntries l)).
Proof.
  revert c s. induction l as [|[k [score w]] l IH]; intros c s; [reflexivity|].
  cbn [foldl]. cbv beta iota. unfold validEntries. cbn [List.filter snd fst].
  destruct (PrimFloat.is_nan score); cbn [negb]; rewrite IH; reflexivity.
Qed.

Lemma getScoreAverage_mean scoreList :
  getScoreAverage scoreList = spec_mean scoreList.
Proof.
  unfold getScoreAverage, spec_mean, fsum. rewrite plain_fold.
  destruct (validEntries scoreList) as [|e es]; [reflexivity|].
  rewrite Z.add_0_l.
  destruct (Z.eqb_spec (Z.of_nat (length (e :: es))) 0) as [H|_];
    [cbn [length] in H; lia|reflexivity].
Qed.

Lemma getFreqScoreAverage_mean scoreList :
  getFreqScoreAverage scoreList = spec_weighted_mean scoreList.
Proof.
  unfold getFreqScoreAverage, spec_weighted_mean, fsum, wsum.
  rewrite freq_fold. reflexivity.
Qed.





(** Without any non-NaN score, both averages are NaN. *)
Lemma averages_of_undefined_scores scoreList :
  validEntries scoreList = [] ->
  getScoreAverage scoreList = PrimFloat.nan
  ∧ getFreqScoreAverage scoreList = PrimFloat.nan.
Proof.
  intros H. rewrite getScoreAverage_mean, getFreqScoreAverage_mean.
  unfold spec_mean, spec_weighted_mean. rewrite H. split; reflexivity.
Qed.

End Averages.



Section MismatchReports.

Variable labels : list Label.

Lemma bind_Ok_inv {A B} (o : outcome A) (f : A -> outcome B) b :
  o ≫= f = Ok b -> ∃ a, o = Ok a ∧ f a = Ok b.
Proof. destruct o as [a|e]; cbn; [eauto|discriminate]. Qed.

(** The counter is incremented before it is compared with 5, so the
    loop prints while the counter is 1, 2, 3 or 4. *)
Lemma topConfusions_length m total lbl labelPixelSum idxs ct entries :
  0 <= ct <= 4 ->
  topConfusions labels m total lbl labelPixelSum idxs ct = Ok entries ->
  Z.of_nat (length entries) <= 4 - ct.
Proof.
  revert ct entries. induction idxs as [|i idxs IH]; intros ct entries Hct H.
  - injection H as <-. simpl. lia.
  - cbn [topConfusions] in H. destruct (Z.of_nat i =? lbl).
    + apply IH; assumption.
    + destruct (Z.eqb_spec (ct + 1) 5) as [E|E].
      * injection H as <-. simpl. lia.
      * apply bind_Ok_inv in H as (lab & _ & H).
        apply bind_Ok_inv in H as (x & _ & H).
        apply bind_Ok_inv in H as (more & Hmore & H).
        injection H as <-. apply IH in Hmore; [|lia].
        cbn [length]. lia.
Qed.

Lemma pixelErrorLine_at_most_four m total lbl line :
  pixelErrorLine labels m total lbl = Ok line ->
  (length (lineEntries line) <= 4)%nat.
Proof.
  unfold pixelErrorLine. intros H.
  apply bind_Ok_inv in H as (row & _ & H).
  apply bind_Ok_inv in H as (lab & _ & H).
  destruct (_ <=? 0).
  - injection H as <-. simpl. lia.
  - apply bind_Ok_inv in H as (entries & He & H). injection H as <-.
    apply topConfusions_length in He; [|lia]. simpl. lia.
Qed.

Lemma mismatchLoop_length m total cells ct pairs :
  0 <= ct <= 89 ->
  mismatchLoop labels m total cells ct = Ok pairs ->
  Z.of_nat (length pairs) <= 89 - ct.
Proof.
  revert ct pairs. induction cells as [|[r c] cells IH]; intros ct pairs Hct H.
  - injection H as <-. simpl. lia.
  - cbn [mismatchLoop] in H. destruct (_ || _).
    + apply IH; assumption.
    + destruct (Z.eqb_spec (ct + 1) 90) as [E|E].
      * injection H as <-. simpl. lia.
      * apply bind_Ok_inv in H as (l1 & _ & H).
        apply bind_Ok_inv in H as (l2 & _ & H).
        apply bind_Ok_inv in H as (x & _ & H).
        apply bind_Ok_inv in H as (more & Hmore & H).
        injection H as <-. apply IH in Hmore; [|lia].
        cbn [length]. lia.
Qed.

Lemma evaluateTrueVsOtherPixError_at_most_89 m total pairs :
  evaluateTrueVsOtherPixError labels m total = Ok pairs ->
  (length pairs <= 89)%nat.
Proof.
  unfold evaluateTrueVsOtherPixError. intros H.
  apply mismatchLoop_length in H; lia.
Qed.

End MismatchReports.

(** C7: on [demoMatrix] the label "road" has a positive row sum and is
    confused with seven other labels; the line printed for it lists four
    of them, in descending order of count, and leaves out the fifth,
    "wall", which has 5 pixels. *)
Theorem evaluatePixelError_road_line :
  ∃ lines entries,
    evaluatePixelError demoLabels demoMatrix 194 demoArgs = Ok lines
    ∧ lines !! 3%nat = Some (Confusions "road" entries)
    ∧ eleName <$> entries = ["sidewalk"; "parking"; "rail track"; "building"]%string
    ∧ matrix_at demoMatrix 7 12 = 5
    ∧ label.name <$> id2label demoLabels !! 12 = Some "wall"%string.
Proof.
  eexists. eexists. split; [vm_compute; reflexivity|].
  split; [vm_compute; reflexivity|].
  split; [vm_compute; reflexivity|].
  split; vm_compute; reflexivity.
Qed.

(** The caller hands both reports the number of correctly labelled pixels
    of the labels from 4 on as [totalPixelCt]: 150 on [demoMatrix], which
    holds 194 pixels. *)
Lemma evaluatePixelAccuracy_total :
  allNonEdgeTruePositives demoMatrix demoArgs = Ok 150
  ∧ matrix_total demoMatrix = 194.
Proof. split; vm_compute; reflexivity. Qed.

(** C8: on [demoMatrix] 110 cells are off the diagonal with both ids at
    least 4; the global report prints 89 of them, in descending order of
    count. *)
Theorem evaluateTrueVsOtherPixError_reports_89 :
  ∃ pairs,
    evaluateTrueVsOtherPixError demoLabels demoMatrix 194 = Ok pairs
    ∧ length pairs = 89%nat
    ∧ length (eligibleCells demoMatrix) = 110%nat
    ∧ (fun p => (gtLabel p, wrongLabel p, pixErrorCount p)) <$> take 3 pairs
      = [("road", "sidewalk", 9); ("road", "parking", 8);
         ("road", "rail track", 7)]%string.
Proof.
  eexists. split; [vm_compute; reflexivity|].
  split; [vm_compute; reflexivity|].
  split; vm_compute; reflexivity.
Qed.


Section InstanceStatsConstruction.

Variable labels : list Label.

Lemma collectLabelIds_spec (ls : list Label) (acc : list Z) :
  collectLabelIds ls acc
  = if forallb (fun l => (label.id l <? 0) || label.hasInstances l) ls
    then Some (acc ++ (label.id <$> List.filter (fun l => negb (label.id l <? 0)) ls))
    else None.
Proof.
  revert acc. induction ls as [|l ls IH]; intros acc; cbn.
  - now rewrite app_nil_r.
  - destruct (label.id l <? 0); cbn.
    + apply IH.
    + destruct (label.hasInstances l); cbn; [|reflexivity].
      rewrite IH. destruct (forallb _ ls); [|reflexivity].
      now rewrite <- app_assoc.
Qed.

(** The members of a category are the rows of the table that carry it. *)
Lemma category2labels_fold (ls : list Label) (m : gmap string (list Label)) c :
  foldl (fun m l =>
           <[label.category l := default [] (m !! label.category l) ++ [l]]> m)
        m ls !! c
  = match List.filter (fun l => bool_decide (label.category l = c)) ls with
    | [] => m !! c
    | ms => Some (default [] (m !! c) ++ ms)
    end.
Proof.
  revert m. induction ls as [|l ls IH]; intros m; cbn; [reflexivity|].
  rewrite IH. case_bool_decide as Hc.
  - subst c. rewrite lookup_insert_eq. cbn.
    destruct (List.filter _ ls); cbn; [reflexivity|].
    now rewrite <- app_assoc.
  - rewrite lookup_insert_ne by exact Hc. reflexivity.
Qed.

Lemma category2labels_members c :
  category2labels labels !! c
  = match List.filter (fun l => bool_decide (label.category l = c)) labels with
    | [] => None
    | ms => Some ms
    end.
Proof.
  unfold category2labels. rewrite category2labels_fold, lookup_empty.
  destruct (List.filter _ labels); reflexivity.
Qed.

(** C9, amended: [categories] has an entry, with the four counters at
    zero, exactly for the categories whose every member label of id at
    least 0 has [hasInstances]; member labels of negative id are skipped:
    they do not exclude the category and are left out of [labelIds],
    which lists the other members' ids in table order. *)
Theorem generateInstanceStats_categories c :
  categories (generateInstanceStats labels) !! c
  = match category2labels labels !! c with
    | None => None
    | Some members =>
        if forallb (fun l => (label.id l <? 0) || label.hasInstances l) members
        then Some {| catStats := zeroStats;
                     labelIds := label.id <$>
                       List.filter (fun l => negb (label.id l <? 0)) members |}
        else None
    end.
Proof.
  unfold generateInstanceStats. cbn [categories].
  rewrite lookup_omap. destruct (category2labels labels !! c) as [members|]; cbn; [|reflexivity].
  rewrite collectLabelIds_spec. destruct (forallb _ members); reflexivity.
Qed.

End InstanceStatsConstruction.

(** C9 as stated fails on [demoLabels]: the category "vehicle" has the
    member "license plate", of id -1 and without instances, and is
    tracked all the same, with [labelIds = [14]]. *)
Lemma mixed_category_is_tracked :
  ¬ (∀ c members,
        category2labels demoLabels !! c = Some members ->
        (is_Some (categories (generateInstanceStats demoLabels) !! c)
         ↔ Forall (fun l => label.hasInstances l = true ∧ 0 <= label.id l) members)).
Proof.
  intros H.
  destruct (H "vehicle"%string
              [label.mk "car" 14 "vehicle" true false;
               label.mk "license plate" (-1) "vehicle" false true]) as [Hm _].
  - vm_compute. reflexivity.
  - assert (Hs : is_Some (categories (generateInstanceStats demoLabels)
                            !! "vehicle"%string)).
    { vm_compute. eauto. }
    specialize (Hm Hs). rewrite Forall_cons, Forall_cons in Hm.
    destruct Hm as (_ & [Hinst _] & _). discriminate Hinst.
Qed.


Section Monad.

Lemma run_bind {A B} (m : M A) (f : A -> M B) s :
  (m ≫= f) s = match m s with
               | (Ok a, s') => f a s'
               | (Raise e, s') => (Raise e, s')
               end.
Proof. reflexivity. Qed.

Lemma run_failWhen_false e s : failWhen false e s = (Ok tt, s).
Proof. reflexivity. Qed.

Lemma run_failWhen_true e s : failWhen true e s = (Raise e, s).
Proof. reflexivity. Qed.

End Monad.

Section MatrixUpdate.

Lemma zsum_cons a l : zsum (a :: l) = a + zsum l.
Proof. reflexivity. Qed.

Lemma zsum_insert (l : list Z) k x y :
  l !! k = Some x -> zsum (<[k := y]> l) = zsum l - x + y.
Proof.
  revert k. induction l as [|a l IH]; intros k Hk; [discriminate|].
  destruct k as [|k]; cbn in Hk.
  - injection Hk as ->. change (<[0%nat:=y]> (x :: l)) with (y :: l).
    rewrite !zsum_cons. lia.
  - change (<[S k:=y]> (a :: l)) with (a :: <[k:=y]> l).
    rewrite !zsum_cons, (IH k Hk). lia.
Qed.

Lemma matrix_total_insert (m : Matrix) k row row' :
  m !! k = Some row ->
  matrix_total (<[k := row']> m) = matrix_total m - zsum row + zsum row'.
Proof.
  intros Hk. unfold matrix_total. rewrite list_fmap_insert.
  erewrite zsum_insert; [reflexivity|]. rewrite list_lookup_fmap, Hk. reflexivity.
Qed.

Lemma matrix_total_nonneg n m : square_counts n m -> 0 <= matrix_total m.
Proof.
  intros [_ H]. unfold matrix_total. apply zsum_nonneg.
  apply Forall_fmap. eapply Forall_impl; [exact H|].
  intros row [_ Hrow]. now apply zsum_nonneg.
Qed.

Lemma matrix_total_row_le n m k row :
  square_counts n m -> m !! k = Some row -> zsum row <= matrix_total m.
Proof.
  intros Hm Hk. unfold matrix_total.
  eapply (zsum_lookup_le (zsum <$> m) k).
  - apply Forall_fmap. destruct Hm as [_ H]. eapply Forall_impl; [exact H|].
    intros r [_ Hr]. now apply zsum_nonneg.
  - rewrite list_lookup_fmap, Hk. reflexivity.
Qed.

Lemma np_index_lt n i k : np_index n i = Some k -> (k < n)%nat.
Proof.
  unfold np_index. repeat destruct (decide _); intros H; inversion H; lia.
Qed.

(** One pixel adds one count and keeps the shape of the matrix. *)
Lemma incr_cell_ok n m g p :
  square_counts n m ->
  0 <= g < Z.of_nat n ->
  is_Some (np_index n p) ->
  matrix_total m + 1 < 2 ^ 64 ->
  ∃ m', incr_cell m g p = Ok m' ∧ square_counts n m'
        ∧ matrix_total m' = matrix_total m + 1.
Proof.
  intros Hm Hg [kp Hkp] Hbound.
  destruct (square_counts_row n m g Hm Hg) as (row & Hrow & Hlen & Hpos).
  pose proof (np_index_lt _ _ _ Hkp) as Hlt.
  destruct (lookup_lt_is_Some_2 row kp) as [x Hx]; [lia|].
  pose proof (zsum_lookup_le row kp x Hpos Hx) as Hxb.
  pose proof (matrix_total_row_le n m _ row Hm Hrow) as Hrb.
  assert (Hlenm : length m = n) by apply Hm.
  unfold incr_cell. rewrite Hlenm, np_index_nonneg by exact Hg. cbn.
  rewrite Hrow. cbn. rewrite Hlen, Hkp. cbn. rewrite Hx. cbn.
  eexists. split; [reflexivity|].
  rewrite wrap_u64_small by lia.
  split.
  - destruct Hm as [_ Hrows]. split; [now rewrite length_insert|].
    apply Forall_insert; [exact Hrows|].
    split; [now rewrite length_insert|].
    apply Forall_insert; [exact Hpos|lia].
  - rewrite (matrix_total_insert m _ row _ Hrow).
    rewrite (zsum_insert row kp x _ Hx). lia.
Qed.

End MatrixUpdate.

Section PixelLoop.

Lemma confMatrix_set m s : confMatrix (set_confMatrix m s) = m.
Proof. reflexivity. Qed.

Variable args : Args.

Lemma accumulatePixels_cons g p rest s :
  accumulatePixels args ((g, p) :: rest) s
  = if bool_decide (g ∈ evalLabels args)
    then match incr_cell (confMatrix s) g p with
         | Ok m => accumulatePixels args rest (set_confMatrix m s)
         | Raise e => (Raise e, s)
         end
    else (Raise (UnknownLabel g), s).
Proof.
  cbn [accumulatePixels]. rewrite run_bind.
  destruct (bool_decide (g ∈ evalLabels args)); cbn; [|reflexivity].
  unfold mbind, M_bind, get, lift, modify. destruct (incr_cell _ g p); reflexivity.
Qed.

Lemma accumulatePixels_app pre post s :
  accumulatePixels args (pre ++ post) s
  = match accumulatePixels args pre s with
    | (Ok _, s1) => accumulatePixels args post s1
    | (Raise e, s1) => (Raise e, s1)
    end.
Proof.
  revert s. induction pre as [|[g p] pre IH]; intros s; [reflexivity|].
  rewrite <- app_comm_cons, !accumulatePixels_cons.
  destruct (bool_decide _); [|reflexivity].
  destruct (incr_cell _ g p); [apply IH|reflexivity].
Qed.

(** Countable pixels: the loop succeeds, touches the matrix only, and
    adds one count per pixel. *)
Lemma accumulatePixels_ok n pxs s :
  square_counts n (confMatrix s) ->
  evalLabels_in_range args n ->
  Forall (fun gp => gp.1 ∈ evalLabels args ∧ is_Some (np_index n gp.2)) pxs ->
  matrix_total (confMatrix s) + Z.of_nat (length pxs) < 2 ^ 64 ->
  ∃ m', accumulatePixels args pxs s = (Ok tt, set_confMatrix m' s)
        ∧ square_counts n m'
        ∧ matrix_total m' = matrix_total (confMatrix s) + Z.of_nat (length pxs).
Proof.
  intros Hm Hrange Hpx. revert s Hm.
  induction Hpx as [|[g p] pxs [Hg Hp] _ IH]; intros s Hm Hbound.
  - exists (confMatrix s). destruct s as [m i p]. cbn [confMatrix] in *.
    split; [reflexivity|]. split; [exact Hm|]. cbn [length]. lia.
  - cbn [length] in Hbound. cbn [fst snd] in *.
    assert (Hgr : 0 <= g < Z.of_nat n).
    { unfold evalLabels_in_range in Hrange. rewrite Forall_forall in Hrange. auto. }
    destruct (incr_cell_ok n _ g p Hm Hgr Hp) as (m1 & Hinc & Hm1 & Ht1); [lia|].
    rewrite accumulatePixels_cons, bool_decide_eq_true_2 by exact Hg.
    rewrite Hinc.
    destruct (IH (set_confMatrix m1 s)) as (m' & Hrun & Hm' & Ht');
      [exact Hm1|rewrite confMatrix_set; lia|].
    exists m'. rewrite Hrun. rewrite confMatrix_set in Ht'.
    split; [destruct s; reflexivity|]. split; [exact Hm'|].
    cbn [length]. lia.
Qed.

(** A ground-truth pixel outside the evaluated labels makes the loop
    fail, whatever precedes it. *)
Lemma accumulatePixels_unknown_fails pxs s :
  Exists (fun gp => gp.1 ∉ evalLabels args) pxs ->
  ∃ e s', accumulatePixels args pxs s = (Raise e, s').
Proof.
  intros H. revert s. induction H as [[g p] pxs Hg|[g p] pxs _ IH]; intros s.
  - rewrite accumulatePixels_cons, bool_decide_eq_false_2 by exact Hg. eauto.
  - rewrite accumulatePixels_cons. destruct (bool_decide _); [|eauto].
    destruct (incr_cell _ g p); [apply IH|eauto].
Qed.

End PixelLoop.


Section Unique.

Lemma insert_unique_elem x y l : y ∈ insert_unique x l ↔ y = x ∨ y ∈ l.
Proof.
  induction l as [|z l IH]; cbn.
  - rewrite list_elem_of_singleton, elem_of_nil. tauto.
  - destruct (Z.ltb_spec x z); [now rewrite elem_of_cons|].
    destruct (Z.eqb_spec x z) as [->|Hne].
    + rewrite elem_of_cons. tauto.
    + rewrite !elem_of_cons, IH. tauto.
Qed.

Lemma np_unique_elem y l : y ∈ np_unique l ↔ y ∈ l.
Proof.
  induction l as [|x l IH]; cbn; [reflexivity|].
  rewrite insert_unique_elem, IH, elem_of_cons. reflexivity.
Qed.

Lemma insert_unique_sorted x l :
  StronglySorted Z.lt l -> StronglySorted Z.lt (insert_unique x l).
Proof.
  induction 1 as [|z l Hs IH Hz]; cbn.
  - repeat constructor.
  - destruct (Z.ltb_spec x z).
    + constructor; [now constructor|].
      constructor; [assumption|]. eapply Forall_impl; [exact Hz|]. intros; cbn in *; lia.
    + destruct (Z.eqb_spec x z); [now constructor|].
      constructor; [assumption|].
      apply Forall_forall. intros y Hy. apply insert_unique_elem in Hy as [->|Hy]; [lia|].
      rewrite Forall_forall in Hz. auto.
Qed.

Lemma np_unique_sorted l : StronglySorted Z.lt (np_unique l).
Proof.
  induction l; cbn; [constructor|]. now apply insert_unique_sorted.
Qed.

Lemma np_unique_NoDup l : NoDup (np_unique l).
Proof.
  pose proof (np_unique_sorted l) as H.
  induction H as [|z l' Hs IH Hz]; constructor; [|assumption].
  intros Hin. rewrite Forall_forall in Hz. specialize (Hz z Hin). lia.
Qed.

(** The instance ids visited are the distinct values of the instance map
    that exceed 1000. *)
Lemma instList_spec instanceNp :
  NoDup (instList instanceNp)
  ∧ ∀ x, x ∈ instList instanceNp ↔ x ∈ pixels instanceNp ∧ 1000 < x.
Proof.
  split; [apply np_unique_NoDup|].
  intros x. unfold instList. rewrite np_unique_elem.
  rewrite !list_elem_of_In, filter_In. rewrite Z.ltb_lt. reflexivity.
Qed.

End Unique.

Section Counting.

Lemma count_mask instId (l : list Z) :
  count_nonzero ((fun x => x =? instId) <$> l)
  = Z.of_nat (length (List.filter (fun x => x =? instId) l)).
Proof.
  unfold count_nonzero. f_equal. induction l as [|x l IH]; cbn; [reflexivity|].
  destruct (x =? instId); cbn; now rewrite IH.
Qed.

Lemma count_mask_zip instId lid (li lp : list Z) :
  count_nonzero
    (zip_with (fun (b : bool) p => b && (p =? lid)) ((fun x => x =? instId) <$> li) lp)
  = Z.of_nat (length (List.filter (fun ip => (ip.1 =? instId) && (ip.2 =? lid))
                                  (zip li lp))).
Proof.
  unfold count_nonzero. f_equal. revert lp.
  induction li as [|x li IH]; intros [|p lp]; cbn; try reflexivity.
  destruct ((x =? instId) && (p =? lid)); cbn; now rewrite IH.
Qed.

End Counting.

Section InstanceLoop.

Variable labels : list Label.
Variable args : Args.
Variables predictionNp instanceNp : Image.
Variable catMasks : gmap string (list bool).

Let step := instanceStep labels args predictionNp instanceNp catMasks.

(** An instance of an ignored label leaves the statistics alone. *)
Lemma instanceStep_ignored instId lab s :
  id2label labels !! (instId / 1000) = Some lab ->
  label.ignoreInEval lab = true ->
  step instId s = (Ok tt, s).
Proof.
  intros Hlab Hign. unfold step, instanceStep.
  rewrite run_bind. unfold lift, lookupLabel. rewrite Hlab. cbn. now rewrite Hign.
Qed.

(** An instance of a label that is not ignored adds its counts to the
    class entry of the label. *)
Lemma instanceStep_counts instId lab avg cls s :
  id2label labels !! (instId / 1000) = Some lab ->
  label.ignoreInEval lab = false ->
  same_shape instanceNp predictionNp = true ->
  avgClassSize args !! label.name lab = Some avg ->
  classes (instanceStats s) !! label.name lab = Some cls ->
  (∀ c, is_Some (categories (instanceStats s) !! c) -> is_Some (catMasks !! c)) ->
  ∃ s', step instId s = (Ok tt, s')
        ∧ confMatrix s' = confMatrix s
        ∧ perImageStats s' = perImageStats s
        ∧ classes (instanceStats s')
          = <[label.name lab :=
                classUpdate args predictionNp instanceNp (label.name lab) cls instId]>
              (classes (instanceStats s))
        ∧ (∀ c, is_Some (categories (instanceStats s') !! c)
                ↔ is_Some (categories (instanceStats s) !! c)).
Proof.
  intros Hlab Hign Hshape Havg Hcls Hmasks.
  unfold step, instanceStep.
  rewrite run_bind. unfold lift at 1, lookupLabel. rewrite Hlab. cbn [from_option].
  rewrite Hign. rewrite run_bind, Hshape. cbn [negb]. rewrite run_failWhen_false.
  rewrite run_bind. unfold lift at 1. rewrite Havg. cbn [from_option].
  rewrite run_bind. unfold get at 1.
  rewrite run_bind. unfold lift at 1. rewrite Hcls. cbn [from_option].
  rewrite run_bind. unfold modify at 1.
  rewrite run_bind. unfold get at 1.
  cbn [instanceStats set_instanceStats categories classes].
  rewrite count_mask, count_mask_zip.
  fold (spec_instSize instanceNp instId).
  fold (spec_instTp predictionNp instanceNp instId).
  assert (Hupd : addStats cls (ZtoQc (spec_instTp predictionNp instanceNp instId))
            (ZtoQc (spec_instSize instanceNp instId - spec_instTp predictionNp instanceNp instId))
            (ZtoQc (spec_instTp predictionNp instanceNp instId) *
               (avg / ZtoQc (spec_instSize instanceNp instId)))%Qc
            (ZtoQc (spec_instSize instanceNp instId - spec_instTp predictionNp instanceNp instId) *
               (avg / ZtoQc (spec_instSize instanceNp instId)))%Qc
          = classUpdate args predictionNp instanceNp (label.name lab) cls instId).
  { unfold classUpdate. rewrite Havg. reflexivity. }
  rewrite Hupd.
  destruct (categories (instanceStats s) !! label.category lab) as [cs|] eqn:Hcat.
  - destruct (Hmasks (label.category lab)) as [cmask Hcmask]; [rewrite Hcat; eauto|].
    rewrite run_bind. unfold lift at 1. rewrite Hcmask. cbn [from_option].
    unfold modify. eexists. split; [reflexivity|].
    cbn [confMatrix perImageStats instanceStats set_instanceStats classes categories].
    repeat split; try reflexivity.
    + intros H. destruct (decide (c = label.category lab)) as [->|Hne].
      * rewrite Hcat. eauto.
      * now rewrite lookup_insert_ne in H by congruence.
    + intros H. destruct (decide (c = label.category lab)) as [->|Hne].
      * rewrite lookup_insert_eq. eauto.
      * now rewrite lookup_insert_ne by congruence.
  - eexists. split; [reflexivity|].
    cbn [confMatrix perImageStats instanceStats set_instanceStats classes categories].
    repeat split; try reflexivity; auto.
Qed.

(** The loop over a list of instance ids that it can process. *)
Lemma instanceLoop_classes ids s :
  same_shape instanceNp predictionNp = true ->
  (∀ c, is_Some (categories (instanceStats s) !! c) -> is_Some (catMasks !! c)) ->
  Forall (instanceKnown labels args (classes (instanceStats s))) ids ->
  ∃ s', forM_ ids step s = (Ok tt, s')
        ∧ confMatrix s' = confMatrix s
        ∧ perImageStats s' = perImageStats s
        ∧ ∀ name,
            classes (instanceStats s') !! name
            = (fun cls => foldl (classUpdate args predictionNp instanceNp name) cls
                                (idsOfClass labels name ids))
                <$> classes (instanceStats s) !! name.
Proof.
  intros Hshape. revert s.
  induction ids as [|instId ids IH]; intros s Hmasks Hids.
  - exists s. cbn. repeat split; try reflexivity.
    intros name. now destruct (classes (instanceStats s) !! name).
  - apply Forall_cons in Hids as [(lab & Hlab & Hcase) Hids].
    cbn [forM_]. rewrite run_bind.
    destruct (label.ignoreInEval lab) eqn:Hign.
    + fold step. rewrite (instanceStep_ignored instId lab s Hlab Hign).
      destruct (IH s Hmasks Hids) as (s' & Hrun & Hm & Hp & Hc).
      exists s'. repeat split; try assumption.
      intros name. rewrite Hc. unfold idsOfClass at 2. cbn [List.filter].
      rewrite Hlab, Hign. reflexivity.
    + destruct Hcase as [Hcase|[[avg Havg] [cls Hcls]]]; [discriminate|].
      destruct (instanceStep_counts instId lab avg cls s Hlab Hign Hshape Havg Hcls Hmasks)
        as (s1 & Hstep & Hm1 & Hp1 & Hc1 & Hcat1).
      fold step. rewrite Hstep.
      destruct (IH s1) as (s' & Hrun & Hm & Hp & Hc).
      { intros c Hc. apply Hmasks, Hcat1, Hc. }
      { eapply Forall_impl; [exact Hids|].
        intros i (lab' & Hlab' & Hcase'). exists lab'. split; [exact Hlab'|].
        destruct Hcase' as [?|[Ha Hk]]; [now left|right]. split; [exact Ha|].
        rewrite Hc1. destruct (decide (label.name lab = label.name lab')) as [->|Hne].
        - rewrite lookup_insert_eq. eauto.
        - now rewrite lookup_insert_ne. }
      exists s'. split; [exact Hrun|]. split; [congruence|]. split; [congruence|].
      intros name. rewrite Hc, Hc1. unfold idsOfClass at 2. cbn [List.filter].
      rewrite Hlab, Hign. cbn [negb andb].
      case_bool_decide as Hname.
      * subst name. rewrite lookup_insert_eq, Hcls. reflexivity.
      * rewrite lookup_insert_ne by exact Hname. reflexivity.
Qed.

(** With images of one shape, the only failure of a step is a missing
    dictionary key, and a step never adds or removes a class. *)
Lemma instanceStep_outcome instId s r s' :
  same_shape instanceNp predictionNp = true ->
  step instId s = (r, s') ->
  (r = Ok tt ∨ ∃ k, r = Raise (KeyError k))
  ∧ ∀ name, is_Some (classes (instanceStats s') !! name)
            ↔ is_Some (classes (instanceStats s) !! name).
Proof.
  intros Hshape. unfold step, instanceStep.
  rewrite run_bind. unfold lift at 1, lookupLabel.
  destruct (id2label labels !! (instId / 1000)) as [lab|]; cbn [from_option];
    [|intros [= <- <-]; split; [eauto|reflexivity]].
  destruct (label.ignoreInEval lab); [intros [= <- <-]; split; [eauto|reflexivity]|].
  rewrite run_bind, Hshape. cbn [negb]. rewrite run_failWhen_false.
  rewrite run_bind. unfold lift at 1.
  destruct (avgClassSize args !! label.name lab) as [avg|]; cbn [from_option];
    [|intros [= <- <-]; split; [eauto|reflexivity]].
  rewrite run_bind. unfold get at 1.
  rewrite run_bind. unfold lift at 1.
  destruct (classes (instanceStats s) !! label.name lab) as [cls|] eqn:Hcls;
    cbn [from_option]; [|intros [= <- <-]; split; [eauto|reflexivity]].
  rewrite run_bind. unfold modify at 1.
  rewrite run_bind. unfold get at 1.
  cbn [instanceStats set_instanceStats categories classes].
  assert (Hdom : ∀ x name,
             is_Some (<[label.name lab := x]> (classes (instanceStats s)) !! name)
             ↔ is_Some (classes (instanceStats s) !! name)).
  { intros x name. destruct (decide (label.name lab = name)) as [<-|Hne].
    - rewrite lookup_insert_eq, Hcls. split; eauto.
    - now rewrite lookup_insert_ne. }
  destruct (categories (instanceStats s) !! label.category lab) as [cs|].
  - rewrite run_bind. unfold lift at 1.
    destruct (catMasks !! label.category lab); cbn [from_option].
    + unfold modify. intros [= <- <-]. split; [eauto|]. apply Hdom.
    + intros [= <- <-]. split; [eauto|]. apply Hdom.
  - intros [= <- <-]. split; [eauto|]. apply Hdom.
Qed.

(** An instance whose label is not ignored and has no class entry stops
    the step with a missing key. *)
Lemma instanceStep_missing_class instId lab s :
  id2label labels !! (instId / 1000) = Some lab ->
  label.ignoreInEval lab = false ->
  same_shape instanceNp predictionNp = true ->
  classes (instanceStats s) !! label.name lab = None ->
  step instId s = (Raise (KeyError (KStr (label.name lab))), s).
Proof.
  intros Hlab Hign Hshape Hcls. unfold step, instanceStep.
  rewrite run_bind. unfold lift at 1, lookupLabel. rewrite Hlab. cbn [from_option].
  rewrite Hign. rewrite run_bind, Hshape. cbn [negb]. rewrite run_failWhen_false.
  rewrite run_bind. unfold lift at 1.
  destruct (avgClassSize args !! label.name lab) as [avg|]; cbn [from_option];
    [|reflexivity].
  rewrite run_bind. unfold get at 1.
  rewrite run_bind. unfold lift at 1. rewrite Hcls. reflexivity.
Qed.

Lemma instanceLoop_missing_class ids instId lab s :
  same_shape instanceNp predictionNp = true ->
  instId ∈ ids ->
  id2label labels !! (instId / 1000) = Some lab ->
  label.ignoreInEval lab = false ->
  classes (instanceStats s) !! label.name lab = None ->
  ∃ k s', forM_ ids step s = (Raise (KeyError k), s').
Proof.
  intros Hshape Hin Hlab Hign. revert s.
  induction ids as [|i ids IH]; intros s Hcls; [inversion Hin|].
  cbn [forM_]. rewrite run_bind.
  destruct (step i s) as [r s1] eqn:Hstep.
  destruct (instanceStep_outcome i s r s1 Hshape Hstep) as [[->|[k ->]] Hdom]; [|eauto].
  apply elem_of_cons in Hin as [<-|Hin].
  - rewrite (instanceStep_missing_class instId lab s Hlab Hign Hshape Hcls) in Hstep.
    discriminate.
  - apply (IH Hin s1).
    destruct (classes (instanceStats s1) !! label.name lab) eqn:E; [|reflexivity].
    assert (is_Some (classes (instanceStats s) !! label.name lab)) as [x Hx]
      by (apply Hdom; eauto).
    congruence.
Qed.

End InstanceLoop.


Section Bounds.

(** Distinct positions of a list of non-negative numbers sum to at most
    the sum of the list. *)
Lemma zsum_distinct_le (v : list Z) (ks : list nat) :
  Forall (fun x => 0 <= x) v -> NoDup ks ->
  zsum ((fun k => default 0 (v !! k)) <$> ks) <= zsum v.
Proof.
  intros Hv Hnd. revert v Hv. induction Hnd as [|k ks Hk Hnd IH]; intros v Hv.
  - cbn. now apply zsum_nonneg.
  - rewrite fmap_cons, zsum_cons.
    destruct (v !! k) as [x|] eqn:Hx; cbn [default].
    + assert (Hv' : Forall (fun x => 0 <= x) (<[k := 0]> v))
        by (apply Forall_insert; [exact Hv|lia]).
      specialize (IH _ Hv'). rewrite (zsum_insert v k x 0 Hx) in IH.
      assert (Heq : (fun j => default 0 (<[k := 0]> v !! j)) <$> ks
                    = (fun j => default 0 (v !! j)) <$> ks).
      { apply list_fmap_ext. intros i j Hj.
        rewrite list_lookup_insert_ne; [reflexivity|].
        intros ->. apply Hk. eapply list_elem_of_lookup_2. exact Hj. }
      rewrite Heq in IH. unfold id in *. lia.
    + specialize (IH v Hv). unfold id in *. lia.
Qed.

Lemma row_sums_nonneg n m :
  square_counts n m -> Forall (fun x => 0 <= x) (zsum <$> m).
Proof.
  intros [_ H]. apply Forall_fmap. eapply Forall_impl; [exact H|].
  intros row [_ Hrow]. now apply zsum_nonneg.
Qed.

(** A matrix of fewer than 2^63 counts, with distinct evaluated labels,
    meets the bound that [getIouScoreForLabel_formula] asks for. *)
Lemma iou_operands_bounded labels args n m lbl :
  square_counts n m ->
  NoDup (evalLabels args) ->
  evalLabels_in_range args n ->
  lbl ∈ evalLabels args ->
  matrix_total m < 2 ^ 63 ->
  spec_gt m lbl + spec_fp labels args m lbl < 2 ^ 63.
Proof.
  intros Hm Hnd Hrange Hin Hbound.
  set (rows := List.filter (fun r => negb (ignoredId labels r) && negb (r =? lbl))
                           (evalLabels args)).
  assert (Hrows : ∀ r, r ∈ rows -> r ∈ evalLabels args ∧ r ≠ lbl).
  { intros r Hr. apply list_elem_of_In, filter_In in Hr as [Hr Hc].
    split; [now apply list_elem_of_In|].
    apply andb_true_iff in Hc as [_ Hc]. destruct (Z.eqb_spec r lbl); [discriminate|assumption]. }
  assert (Hnd' : NoDup (lbl :: rows)).
  { constructor.
    - intros H. now destruct (Hrows _ H).
    - unfold rows. clear -Hnd. induction Hnd as [|x l Hx Hnd IH]; cbn; [constructor|].
      destruct (_ && _); [|exact IH]. constructor; [|exact IH].
      intros H. apply Hx. apply list_elem_of_In, filter_In in H as [H _].
      now apply list_elem_of_In. }
  assert (Hall : Forall (fun r => 0 <= r < Z.of_nat n) (lbl :: rows)).
  { unfold evalLabels_in_range in Hrange. rewrite Forall_forall in Hrange.
    constructor; [auto|]. apply Forall_forall. intros r Hr. apply Hrange, Hrows, Hr. }
  assert (Hle : spec_gt m lbl + spec_fp labels args m lbl
                <= zsum ((fun k => default 0 ((zsum <$> m) !! k)) <$> (Z.to_nat <$> (lbl :: rows)))).
  { unfold spec_fp. fold rows. rewrite !fmap_cons, zsum_cons.
    apply Z.add_le_mono.
    - unfold spec_gt, row_sum. rewrite list_lookup_fmap.
      destruct (m !! Z.to_nat lbl); apply Z.le_refl.
    - apply Forall_cons in Hall as [Hl Hall]. clear Hnd' Hrows.
      induction Hall as [|r rs Hr _ IH]; [cbn; lia|].
      rewrite !fmap_cons, !zsum_cons. apply Z.add_le_mono; [|exact IH].
      destruct (getitem2_matrix_at n m r lbl Hm Hr Hl) as [_ Hb].
      unfold row_sum in Hb. rewrite list_lookup_fmap.
      destruct (m !! Z.to_nat r); exact (proj2 Hb). }
  assert (Hnd'' : NoDup (Z.to_nat <$> (lbl :: rows))).
  { apply NoDup_fmap_2_strong; [|exact Hnd'].
    intros x y Hx Hy Heq. rewrite Forall_forall in Hall.
    pose proof (Hall x Hx). pose proof (Hall y Hy). lia. }
  pose proof (zsum_distinct_le _ _ (row_sums_nonneg n m Hm) Hnd'') as Hsum.
  unfold matrix_total in Hbound. lia.
Qed.

End Bounds.


(** The instance block on an instance map that the loop can process. *)
Lemma accumulateInstances_run labels args predictionNp instanceNp s :
  same_shape instanceNp predictionNp = true ->
  Forall (instanceKnown labels args (classes (instanceStats s)))
         (instList instanceNp) ->
  ∃ s', accumulateInstances labels args predictionNp instanceNp s = (Ok tt, s')
        ∧ confMatrix s' = confMatrix s
        ∧ (∀ name,
             classes (instanceStats s') !! name
             = (fun cls => foldl (classUpdate args predictionNp instanceNp name) cls
                                 (idsOfClass labels name (instList instanceNp)))
                 <$> classes (instanceStats s) !! name)
        ∧ NoDup (instList instanceNp)
        ∧ (∀ x, x ∈ instList instanceNp ↔ x ∈ pixels instanceNp ∧ 1000 < x).
Proof.
  intros Hshape Hids.
  unfold accumulateInstances. rewrite run_bind. unfold get.
  destruct (instanceLoop_classes labels args predictionNp instanceNp
              (categoryMasks predictionNp (instanceStats s))
              (instList instanceNp) s Hshape) as (s' & Hrun & Hm & _ & Hc).
  - intros c [cs Hcs]. unfold categoryMasks. rewrite lookup_fmap, Hcs. cbn. eauto.
  - exact Hids.
  - exists s'. split; [exact Hrun|]. split; [exact Hm|]. split; [exact Hc|].
    apply instList_spec.
Qed.


(** C3, amended: when the instance map and the prediction have one
    shape and every instance id above 1000 decodes to a label of the
    taxonomy that is ignored or has an average size and a class entry
    (as the labels with instances have), the accumulation succeeds,
    visits each distinct instance id above 1000 once and no id of at
    most 1000, and leaves in every class entry its former value plus, for
    each visited id whose label is not ignored and has that name, [tp],
    [fn = instSize - tp], [tp * weight] and [fn * weight] with
    [weight = avgClassSize[name] / instSize]. *)
Theorem accumulateInstances_classes labels args predictionNp instanceNp s :
  same_shape instanceNp predictionNp = true ->
  Forall (instanceKnown labels args (classes (instanceStats s)))
         (instList instanceNp) ->
  ∃ s', accumulateInstances labels args predictionNp instanceNp s = (Ok tt, s')
        ∧ confMatrix s' = confMatrix s
        ∧ (∀ name,
             classes (instanceStats s') !! name
             = (fun cls => foldl (classUpdate args predictionNp instanceNp name) cls
                                 (idsOfClass labels name (instList instanceNp)))
                 <$> classes (instanceStats s) !! name)
        ∧ NoDup (instList instanceNp)
        ∧ (∀ x, x ∈ instList instanceNp ↔ x ∈ pixels instanceNp ∧ 1000 < x).
Proof. apply accumulateInstances_run. Qed.

Lemma accumulateInstances_classes_witness :
  ∃ s', accumulateInstances demoLabels demoArgs carsPred carsInst demoInit = (Ok tt, s')
        ∧ classes (instanceStats s') !! "car"%string
          = Some (classUpdate demoArgs carsPred carsInst "car"
                    (classUpdate demoArgs carsPred carsInst "car" zeroStats 14001)
                    14002).
Proof.
  destruct (accumulateInstances_classes demoLabels demoArgs carsPred carsInst demoInit)
    as (s' & Hrun & _ & Hc & _).
  - reflexivity.
  - change (instList carsInst) with [14001; 14002].
    unfold instanceKnown.
    repeat (apply Forall_cons; split); [| |constructor];
      (exists (label.mk "car" 14 "vehicle" true false);
       split; [vm_compute; reflexivity
              |right; unfold is_Some; split; eexists; vm_compute; reflexivity]).
  - exists s'. split; [exact Hrun|]. rewrite Hc.
    change (idsOfClass demoLabels "car" (instList carsInst)) with [14001; 14002].
    reflexivity.
Defined.

(** C3 as stated fails on an instance id above 1000 whose label is not
    ignored but has no instances: nothing is added, the accumulation
    stops with a missing key. *)
Lemma instance_of_label_without_instances_not_added :
  ∃ s', accumulateInstances demoLabels demoArgs roadPred roadInst demoInit
        = (Raise (KeyError (KStr "road")), s')
        ∧ instList roadInst = [7001]
        ∧ label.ignoreInEval <$> id2label demoLabels !! (7001 / 1000) = Some false.
Proof.
  eexists. split; [vm_compute; reflexivity|].
  split; vm_compute; reflexivity.
Qed.

Section Cells.

Lemma matrix_at_insert (m : Matrix) (k kj : nat) row v i j :
  m !! k = Some row -> (kj < length row)%nat -> 0 <= i -> 0 <= j ->
  matrix_at (<[k := <[kj := v]> row]> m) i j
  = if decide (Z.to_nat i = k ∧ Z.to_nat j = kj) then v else matrix_at m i j.
Proof.
  intros Hrow Hkj Hi Hj. unfold matrix_at.
  destruct (decide (Z.to_nat i = k)) as [->|Hne].
  - rewrite list_lookup_insert_eq by (eapply lookup_lt_Some; exact Hrow).
    rewrite Hrow. cbn.
    destruct (decide (Z.to_nat j = kj)) as [->|Hnj].
    + rewrite list_lookup_insert_eq by exact Hkj.
      destruct (decide _) as [_|H]; [reflexivity|tauto].
    + rewrite list_lookup_insert_ne by congruence.
      destruct (decide _) as [[_ H]|_]; [contradiction|reflexivity].
  - rewrite list_lookup_insert_ne by congruence.
    destruct (decide _) as [[H _]|_]; [contradiction|reflexivity].
Qed.

(** One pixel adds one to its cell and leaves the other cells alone. *)
Lemma incr_cell_cells n m g p kp :
  square_counts n m ->
  0 <= g < Z.of_nat n ->
  np_index n p = Some kp ->
  matrix_total m + 1 < 2 ^ 64 ->
  ∃ m', incr_cell m g p = Ok m'
        ∧ ∀ i j, 0 <= i -> 0 <= j ->
            matrix_at m' i j
            = matrix_at m i j + (if decide (i = g ∧ Z.to_nat j = kp) then 1 else 0).
Proof.
  intros Hm Hg Hkp Hbound.
  destruct (square_counts_row n m g Hm Hg) as (row & Hrow & Hlen & Hpos).
  pose proof (np_index_lt _ _ _ Hkp) as Hlt.
  destruct (lookup_lt_is_Some_2 row kp) as [x Hx]; [lia|].
  pose proof (zsum_lookup_le row kp x Hpos Hx) as Hxb.
  pose proof (matrix_total_row_le n m _ row Hm Hrow) as Hrb.
  assert (Hlenm : length m = n) by apply Hm.
  unfold incr_cell. rewrite Hlenm, np_index_nonneg by exact Hg. cbn.
  rewrite Hrow. cbn. rewrite Hlen, Hkp. cbn. rewrite Hx. cbn.
  eexists. split; [reflexivity|]. intros i j Hi Hj.
  rewrite wrap_u64_small by lia.
  rewrite (matrix_at_insert m _ kp row _ i j Hrow) by lia.
  destruct (decide (Z.to_nat i = Z.to_nat g ∧ Z.to_nat j = kp)) as [[Hig Hjk]|Hn].
  - assert (i = g) by lia. subst i.
    destruct (decide _) as [_|H]; [|tauto].
    unfold matrix_at. rewrite Hrow. cbn. rewrite Hjk, Hx. reflexivity.
  - destruct (decide _) as [[-> H]|_]; [tauto|lia].
Qed.

Lemma countable_zip args n (lg lp : list Z) :
  length lg = length lp ->
  Forall (fun g => g ∈ evalLabels args) lg ->
  Forall (fun x => is_Some (np_index n x)) lp ->
  Forall (fun gp => gp.1 ∈ evalLabels args ∧ is_Some (np_index n gp.2)) (zip lg lp).
Proof.
  intros Hl Hg. revert lp Hl.
  induction Hg as [|g lg Hg _ IH]; intros [|x lp] Hl Hp; try discriminate;
    cbn; [constructor|].
  apply Forall_cons in Hp as [Hx Hp]. constructor; [now split|].
  apply IH; [|exact Hp]. cbn in Hl. lia.
Qed.

(** The pixel loop adds to each cell the number of its pixels. *)
Lemma accumulatePixels_cells args n pxs s :
  square_counts n (confMatrix s) ->
  evalLabels_in_range args n ->
  Forall (fun gp => gp.1 ∈ evalLabels args ∧ is_Some (np_index n gp.2)) pxs ->
  matrix_total (confMatrix s) + Z.of_nat (length pxs) < 2 ^ 64 ->
  ∃ m', accumulatePixels args pxs s = (Ok tt, set_confMatrix m' s)
        ∧ square_counts n m'
        ∧ ∀ i j, 0 <= i -> 0 <= j ->
            matrix_at m' i j = matrix_at (confMatrix s) i j + countCell n i j pxs.
Proof.
  intros Hm Hrange Hpx. revert s Hm.
  induction Hpx as [|[g p] pxs [Hg [kp Hp]] _ IH]; intros s Hm Hbound.
  - exists (confMatrix s). destruct s as [m i p]. cbn [confMatrix] in *.
    split; [reflexivity|]. split; [exact Hm|]. intros. unfold countCell. cbn. lia.
  - cbn [length] in Hbound. cbn [fst snd] in *.
    assert (Hgr : 0 <= g < Z.of_nat n).
    { unfold evalLabels_in_range in Hrange. rewrite Forall_forall in Hrange. auto. }
    destruct (incr_cell_ok n _ g p Hm Hgr (ex_intro _ kp Hp)) as (m1 & Hinc & Hm1 & Ht1);
      [lia|].
    destruct (incr_cell_cells n _ g p kp Hm Hgr Hp) as (m1' & Hinc' & Hcells); [lia|].
    assert (m1' = m1) by congruence. subst m1'.
    rewrite accumulatePixels_cons, bool_decide_eq_true_2 by exact Hg.
    rewrite Hinc.
    destruct (IH (set_confMatrix m1 s)) as (m' & Hrun & Hm' & Hc');
      [exact Hm1|rewrite confMatrix_set; lia|].
    exists m'. rewrite Hrun. rewrite confMatrix_set in Hc'.
    split; [destruct s; reflexivity|]. split; [exact Hm'|].
    intros i j Hi Hj. rewrite (Hc' i j Hi Hj), (Hcells i j Hi Hj).
    unfold countCell. cbn [List.filter fst snd]. rewrite Hp.
    destruct (decide (i = g ∧ Z.to_nat j = kp)) as [[-> Hjk]|Hn].
    + rewrite Z.eqb_refl, bool_decide_eq_true_2 by congruence. cbn [andb length]. lia.
    + destruct (Z.eqb_spec g i) as [->|Hgi]; cbn [andb]; [|lia].
      rewrite bool_decide_eq_false_2; [lia|]. intros [= Heq]. apply Hn. now split.
Qed.

End Cells.


Section Pair.

Variable labels : list Label.

Lemma evaluatePair_run name predictionImg groundTruthImg instanceImg args s :
  width predictionImg = width groundTruthImg ->
  height predictionImg = height groundTruthImg ->
  evaluatePair labels name predictionImg groundTruthImg instanceImg args s
  = match accumulatePixels args (zip (pixels groundTruthImg) (pixels predictionImg)) s with
    | (Ok _, s1) =>
        match afterPixels labels name predictionImg groundTruthImg instanceImg args s1 with
        | (Ok _, s2) =>
            (Ok (Z.of_nat (width predictionImg) * Z.of_nat (height predictionImg)), s2)
        | (Raise e, s2) => (Raise e, s2)
        end
    | (Raise e, s1) => (Raise e, s1)
    end.
Proof.
  intros Hw Hh. unfold evaluatePair, afterPixels.
  rewrite !run_bind, Hw, Hh, !Nat.eqb_refl. cbn [negb].
  rewrite run_failWhen_false, run_bind, run_failWhen_false, run_bind.
  destruct (accumulatePixels _ _ s) as [[[]|e] s1]; [|reflexivity].
  rewrite !run_bind.
  set (inst := if evalInstLevelScore args then _ else _).
  destruct (inst s1) as [[[]|e] s2]; [|reflexivity].
  rewrite run_bind.
  set (acc := if evalPixelAccuracy args then _ else _).
  destruct (acc s2) as [[[]|e] s3]; reflexivity.
Qed.

Lemma evaluatePair_size_fails name predictionImg groundTruthImg instanceImg args s :
  width predictionImg ≠ width groundTruthImg
  ∨ height predictionImg ≠ height groundTruthImg ->
  ∃ e, evaluatePair labels name predictionImg groundTruthImg instanceImg args s
       = (Raise e, s).
Proof.
  intros H. unfold evaluatePair. rewrite run_bind.
  destruct (Nat.eqb_spec (width predictionImg) (width groundTruthImg)) as [Hw|Hw];
    cbn [negb]; [|rewrite run_failWhen_true; eauto].
  rewrite run_failWhen_false, run_bind.
  destruct (Nat.eqb_spec (height predictionImg) (height groundTruthImg)) as [Hh|Hh];
    cbn [negb]; [|rewrite run_failWhen_true; eauto].
  destruct H; contradiction.
Qed.

Lemma Exists_zip_fst {A B} (P : A -> Prop) (la : list A) (lb : list B) :
  length la = length lb -> Exists P la -> Exists (fun ab => P ab.1) (zip la lb).
Proof.
  intros Hlen H. revert lb Hlen.
  induction H as [a la Ha|a la _ IH]; intros [|b lb] Hlen; try discriminate; cbn.
  - now apply Exists_cons_hd.
  - apply Exists_cons_tl, IH. cbn in Hlen. lia.
Qed.

(** C4, amended: a pair of well-formed images whose ground truth holds a
    value outside the evaluated labels makes [evaluatePair] fail. When
    the pixels before the first such value can be counted (evaluated
    ground truth, prediction indexing a column, no overflow), the
    failure is the fatal unknown-label error, and the matrix at the
    failure is the matrix before the pair plus one count for each of
    those earlier pixels, in the cell of its ground truth and its
    prediction: it is unchanged only when the unknown value is the
    first pixel. *)
Theorem unknown_label_aborts name predictionImg groundTruthImg instanceImg args s :
  (wf_image predictionImg -> wf_image groundTruthImg ->
   Exists (fun g => g ∉ evalLabels args) (pixels groundTruthImg) ->
   ∃ e s', evaluatePair labels name predictionImg groundTruthImg instanceImg args s
           = (Raise e, s'))
  ∧ (∀ n gpre g gpost ppre p ppost,
       width predictionImg = width groundTruthImg ->
       height predictionImg = height groundTruthImg ->
       pixels groundTruthImg = gpre ++ g :: gpost ->
       pixels predictionImg = ppre ++ p :: ppost ->
       length gpre = length ppre ->
       g ∉ evalLabels args ->
       Forall (fun x => x ∈ evalLabels args) gpre ->
       Forall (fun x => is_Some (np_index n x)) ppre ->
       square_counts n (confMatrix s) ->
       evalLabels_in_range args n ->
       matrix_total (confMatrix s) + Z.of_nat (length gpre) < 2 ^ 64 ->
       ∃ m1,
         evaluatePair labels name predictionImg groundTruthImg instanceImg args s
         = (Raise (UnknownLabel g), set_confMatrix m1 s)
         ∧ (∀ i j, 0 <= i -> 0 <= j ->
              matrix_at m1 i j
              = matrix_at (confMatrix s) i j + countCell n i j (zip gpre ppre))
         ∧ matrix_total m1 = matrix_total (confMatrix s) + Z.of_nat (length gpre)
         ∧ (gpre = [] -> m1 = confMatrix s)).
Proof.
  split.
  - intros Hwp Hwg Hex.
    destruct (decide (width predictionImg = width groundTruthImg)) as [Hw|Hw];
      [|destruct (evaluatePair_size_fails name predictionImg groundTruthImg
                    instanceImg args s) as [e He]; [now left|eauto]].
    destruct (decide (height predictionImg = height groundTruthImg)) as [Hh|Hh];
      [|destruct (evaluatePair_size_fails name predictionImg groundTruthImg
                    instanceImg args s) as [e He]; [now right|eauto]].
    rewrite (evaluatePair_run _ _ _ _ _ _ Hw Hh).
    destruct (accumulatePixels_unknown_fails args
                (zip (pixels groundTruthImg) (pixels predictionImg)) s)
      as (e & s' & Hrun).
    { apply (Exists_zip_fst (fun g => g ∉ evalLabels args)); [|exact Hex].
      unfold wf_image in *. congruence. }
    rewrite Hrun. eauto.
  - intros n gpre g gpost ppre p ppost Hw Hh Hg Hp Hlen Hunk Hgpre Hppre Hm Hrange Hbound.
    rewrite (evaluatePair_run _ _ _ _ _ _ Hw Hh), Hg, Hp.
    rewrite zip_with_app by exact Hlen. cbn [zip_with].
    rewrite accumulatePixels_app.
    assert (Hpre : Forall (fun gp => gp.1 ∈ evalLabels args ∧ is_Some (np_index n gp.2))
                          (zip gpre ppre))
      by (apply countable_zip; assumption).
    assert (Hb : matrix_total (confMatrix s) + Z.of_nat (length (zip gpre ppre)) < 2 ^ 64)
      by (rewrite length_zip_with_l_eq by exact Hlen; exact Hbound).
    destruct (accumulatePixels_ok args n (zip gpre ppre) s Hm Hrange Hpre Hb)
      as (m1 & Hrun & _ & Htot).
    destruct (accumulatePixels_cells args n (zip gpre ppre) s Hm Hrange Hpre Hb)
      as (m1' & Hrun' & _ & Hcells).
    assert (m1' = m1).
    { rewrite Hrun in Hrun'. injection Hrun' as Heq. now symmetry. }
    subst m1'.
    rewrite Hrun, accumulatePixels_cons, bool_decide_eq_false_2 by exact Hunk.
    exists m1. split; [reflexivity|]. split; [exact Hcells|].
    rewrite length_zip_with_l_eq in Htot by exact Hlen.
    split; [exact Htot|].
    intros ->. destruct ppre; [|discriminate]. cbn in Hrun.
    injection Hrun as Hs. rewrite Hs at 1. reflexivity.
Qed.

End Pair.

Lemma unknown_label_aborts_witness :
  ∃ m1,
    evaluatePair demoLabels "prediction.png" unknownPred unknownGt unknownGt
                 demoArgs demoInit
    = (Raise (UnknownLabel 99), set_confMatrix m1 demoInit)
    ∧ (∀ i j, 0 <= i -> 0 <= j ->
         matrix_at m1 i j
         = matrix_at (confMatrix demoInit) i j + countCell 15 i j (zip [7] [7]))
    ∧ matrix_total m1 = matrix_total (confMatrix demoInit) + Z.of_nat (length [7])
    ∧ ([7] = [] -> m1 = confMatrix demoInit).
Proof.
  apply (proj2 (unknown_label_aborts demoLabels "prediction.png" unknownPred unknownGt
                  unknownGt demoArgs demoInit) 15%nat [7] 99 [] [7] 7 []);
    try reflexivity;
    try (apply (bool_decide_unpack _); vm_compute; exact I).
Defined.

(** C4 as stated fails when a counted pixel precedes the unknown value:
    the run aborts with the matrix already incremented. *)
Lemma unknown_label_after_counted_pixel :
  ∃ s',
    evaluatePair demoLabels "prediction.png" unknownPred unknownGt unknownGt
                 demoArgs demoInit
    = (Raise (UnknownLabel 99), s')
    ∧ matrix_at (confMatrix demoInit) 7 7 = 0
    ∧ matrix_at (confMatrix s') 7 7 = 1.
Proof.
  eexists. split; [vm_compute; reflexivity|].
  split; vm_compute; reflexivity.
Qed.


Section PixelAccuracy.

Variable labels : list Label.

(** The block records one entry, under the name of the prediction file,
    and touches nothing else. *)
Lemma accumulatePixelAccuracy_ok args predictionImgFileName predictionNp groundTruthNp s :
  Forall (fun r => is_Some (id2label labels !! r)) (evalLabels args) ->
  ∃ entry,
    accumulatePixelAccuracy labels args predictionImgFileName predictionNp groundTruthNp s
    = (Ok tt, set_perImageStats (<[predictionImgFileName := entry]> (perImageStats s)) s).
Proof.
  intros Hknown. unfold accumulatePixelAccuracy.
  rewrite run_bind. unfold lift at 1.
  rewrite (filterM_known labels (fun lab => negb (label.ignoreInEval lab)) _ Hknown).
  rewrite run_bind. unfold get at 1. unfold modify. eauto.
Qed.

End PixelAccuracy.

(** C5: with pixel accuracy enabled, the pair of [accuracyGt] and
    [accuracyPred] gets one entry under the name of the prediction file;
    two of its pixels have a label that is not ignored and one of these
    is predicted correctly, but the entry holds 1 and 0: the mask named
    [notIgnoredPixels] is computed with [invert=True], and
    [nbCorrectPixels] is the count of [erroneousPixels]. *)
Theorem pixel_accuracy_entry_on_example :
  ∃ s',
    evaluatePair demoLabels "prediction.png" accuracyPred accuracyGt accuracyGt
                 demoArgs demoInit = (Ok 3, s')
    ∧ perImageStats s' !! "prediction.png"%string
      = Some {| nbNotIgnoredPixels := 1; nbCorrectPixels := 0 |}
    ∧ spec_nbNotIgnoredPixels demoLabels demoArgs accuracyGt = 2
    ∧ spec_nbCorrectPixels demoLabels demoArgs accuracyPred accuracyGt = 1.
Proof.
  eexists. split; [vm_compute; reflexivity|].
  split; [vm_compute; reflexivity|].
  split; vm_compute; reflexivity.
Qed.


Section Generate.

Variable labels : list Label.

Lemma id2label_fold_complete (ls : list Label) (m : gmap Z Label) i :
  (∃ l, l ∈ ls ∧ label.id l = i) ∨ is_Some (m !! i) ->
  is_Some (foldl (fun m l => <[label.id l := l]> m) m ls !! i).
Proof.
  revert m. induction ls as [|l ls IH]; intros m H; cbn.
  - destruct H as [(l & Hin & _)|H]; [inversion Hin|exact H].
  - apply IH. destruct H as [(l' & Hin & Hid)|H].
    + apply elem_of_cons in Hin as [->|Hin]; [|left; eauto].
      right. rewrite <- Hid, lookup_insert_eq. eauto.
    + right. destruct (decide (label.id l = i)) as [->|Hne].
      * rewrite lookup_insert_eq. eauto.
      * now rewrite lookup_insert_ne.
Qed.

(** Every row of the table can be looked up by its id. *)
Lemma id2label_complete l : l ∈ labels -> is_Some (id2label labels !! label.id l).
Proof. intros H. apply id2label_fold_complete. left. eauto. Qed.

Lemma zsum_replicate_0 k : zsum (replicate k 0) = 0.
Proof. induction k; [reflexivity|]. cbn [replicate]. rewrite zsum_cons. lia. Qed.

Lemma zeros_square n : square_counts n (zeros n) ∧ matrix_total (zeros n) = 0.
Proof.
  unfold zeros. split.
  - split; [apply length_replicate|].
    apply Forall_replicate. split; [apply length_replicate|].
    apply Forall_replicate. lia.
  - unfold matrix_total. rewrite fmap_replicate, zsum_replicate_0.
    apply zsum_replicate_0.
Qed.

Lemma foldr_max_ge x rest : Forall (fun y => y <= foldr Z.max x rest) (x :: rest).
Proof.
  induction rest as [|y rest IH]; cbn.
  - repeat constructor. lia.
  - apply Forall_cons in IH as [Hx IH]. constructor; [lia|].
    constructor; [lia|]. eapply Forall_impl; [exact IH|]. intros; cbn in *; lia.
Qed.

(** What [generateMatrix] sets up: the evaluated labels are the
    non-negative ids of the table, all known and all indexing the empty
    square matrix. *)
Lemma generateMatrix_spec args0 args m0 :
  generateMatrix labels args0 = Ok (args, m0) ->
  args = set_evalLabels
           (label.id <$> List.filter (fun l => negb (label.id l <? 0)) labels) args0
  ∧ square_counts (length m0) m0
  ∧ matrix_total m0 = 0
  ∧ evalLabels_in_range args (length m0)
  ∧ Forall (fun r => is_Some (id2label labels !! r)) (evalLabels args).
Proof.
  unfold generateMatrix.
  set (ids := label.id <$> List.filter _ labels).
  assert (Hids : Forall (fun r => 0 <= r ∧ is_Some (id2label labels !! r)) ids).
  { apply Forall_forall. intros r Hr. apply list_elem_of_fmap in Hr as (l & -> & Hl).
    apply list_elem_of_In, filter_In in Hl as [Hl Hpos].
    split; [destruct (Z.ltb_spec (label.id l) 0); [discriminate|lia]|].
    apply id2label_complete. now apply list_elem_of_In. }
  destruct ids as [|x rest] eqn:E; [discriminate|].
  intros [= <- <-]. split; [reflexivity|].
  pose proof (foldr_max_ge x rest) as Hmax.
  set (n := Z.to_nat (foldr Z.max x rest + 1)) in *.
  assert (Hlen : length (zeros n) = n) by apply length_replicate.
  rewrite Hlen. destruct (zeros_square n) as [Hsq Htot].
  split; [exact Hsq|]. split; [exact Htot|].
  cbn [evalLabels set_evalLabels]. split.
  - unfold evalLabels_in_range. cbn [evalLabels set_evalLabels].
    apply Forall_forall. intros r Hr.
    rewrite Forall_forall in Hids, Hmax.
    specialize (Hids r Hr). specialize (Hmax r Hr). unfold n. lia.
  - eapply Forall_impl; [exact Hids|]. intros r [_ H]. exact H.
Qed.

End Generate.

Section Conservation.

Variable labels : list Label.
Variable args : Args.
Variable n : nat.

Hypothesis Hrange : evalLabels_in_range args n.
Hypothesis Hknown : Forall (fun r => is_Some (id2label labels !! r)) (evalLabels args).

Lemma afterPixels_ok name predictionImg groundTruthImg instanceImg s :
  accumulators_ok labels n s ->
  (evalInstLevelScore args = true ->
   same_shape instanceImg predictionImg = true
   ∧ Forall (instanceKnown labels args (classes (generateInstanceStats labels)))
            (instList instanceImg)) ->
  ∃ s', afterPixels labels name predictionImg groundTruthImg instanceImg args s
        = (Ok tt, s')
        ∧ confMatrix s' = confMatrix s ∧ accumulators_ok labels n s'.
Proof.
  intros [Hsq Hcls] Hinst. unfold afterPixels. rewrite run_bind.
  assert (Hstep1 : ∃ s1, (if evalInstLevelScore args
                          then accumulateInstances labels args predictionImg instanceImg
                          else mret tt) s = (Ok tt, s1)
                         ∧ confMatrix s1 = confMatrix s ∧ accumulators_ok labels n s1).
  { destruct (evalInstLevelScore args).
    - destruct (Hinst eq_refl) as [Hshape Hids].
      destruct (accumulateInstances_run labels args predictionImg instanceImg s Hshape)
        as (s1 & Hrun & Hm & Hc & _).
      { eapply Forall_impl; [exact Hids|].
        intros i (lab & Hlab & Hcase). exists lab. split; [exact Hlab|].
        destruct Hcase as [?|[Ha Hk]]; [now left|right; auto]. }
      exists s1. split; [exact Hrun|]. split; [exact Hm|].
      split; [now rewrite Hm|].
      intros name' H. rewrite Hc. destruct (Hcls name' H) as [x ->]. cbn. eauto.
    - exists s. split; [reflexivity|]. split; [reflexivity|]. split; assumption. }
  destruct Hstep1 as (s1 & -> & Hm1 & Hok1).
  destruct (evalPixelAccuracy args).
  - destruct (accumulatePixelAccuracy_ok labels args name predictionImg groundTruthImg
                s1 Hknown) as [entry ->].
    eexists. split; [reflexivity|]. split; [exact Hm1|]. exact Hok1.
  - exists s1. split; [reflexivity|]. split; [exact Hm1|exact Hok1].
Qed.

(** One countable pair adds [width * height] counts to the matrix. *)
Lemma evaluatePair_ok (p : (string * Image) * GroundTruth) s :
  accumulators_ok labels n s ->
  countablePair labels args n p ->
  matrix_total (confMatrix s) + Z.of_nat (width p.1.2) * Z.of_nat (height p.1.2) < 2 ^ 64 ->
  ∃ s', evaluatePair labels p.1.1 p.1.2 (labelImg p.2) (instImg p.2) args s
        = (Ok (Z.of_nat (width p.1.2) * Z.of_nat (height p.1.2)), s')
        ∧ accumulators_ok labels n s'
        ∧ matrix_total (confMatrix s')
          = matrix_total (confMatrix s)
            + Z.of_nat (width p.1.2) * Z.of_nat (height p.1.2).
Proof.
  intros Hok (Hw & Hh & Hwp & Hwg & Hgt & Hpred & Hinst) Hbound.
  set (pxs := zip (pixels (labelImg p.2)) (pixels p.1.2)).
  assert (Hlen : length pxs = (width p.1.2 * height p.1.2)%nat).
  { unfold pxs. rewrite length_zip_with_l_eq; unfold wf_image in *; congruence. }
  destruct (accumulatePixels_ok args n pxs s) as (m1 & Hrun & Hsq1 & Htot1);
    [apply Hok|exact Hrange| |rewrite Hlen; lia|].
  { unfold pxs.
    assert (Hl : length (pixels (labelImg p.2)) = length (pixels p.1.2))
      by (unfold wf_image in *; congruence).
    revert Hgt Hpred Hl. generalize (pixels (labelImg p.2)) (pixels p.1.2).
    intros lg lp Hg. revert lp.
    induction Hg as [|g lg Hg _ IH]; intros [|x lp] Hp Hl; try discriminate;
      cbn; [constructor|].
    apply Forall_cons in Hp as [Hx Hp]. constructor; [now split|].
    apply IH; [exact Hp|]. cbn in Hl. lia. }
  rewrite (evaluatePair_run labels _ _ _ _ _ _ Hw Hh). fold pxs. rewrite Hrun.
  destruct (afterPixels_ok p.1.1 p.1.2 (labelImg p.2) (instImg p.2)
              (set_confMatrix m1 s)) as (s' & Hafter & Hm' & Hok').
  { split; [exact Hsq1|]. apply Hok. }
  { exact Hinst. }
  rewrite Hafter. exists s'. split; [reflexivity|]. split; [exact Hok'|].
  rewrite Hm'. cbn [confMatrix set_confMatrix]. rewrite Htot1, Hlen. lia.
Qed.

End Conservation.


Section Loop.

Variable labels : list Label.

Lemma run_sanityCheck nbPixels s :
  sanityCheck nbPixels s
  = if matrix_sum (confMatrix s) =? nbPixels then (Ok tt, s)
    else (Raise (PixelCountDisagree (matrix_sum (confMatrix s)) nbPixels), s).
Proof.
  unfold sanityCheck. rewrite run_bind. unfold get.
  destruct (matrix_sum (confMatrix s) =? nbPixels); reflexivity.
Qed.

Lemma evaluateLoop_cons (p : (string * Image) * GroundTruth) rest args nb s :
  evaluateLoop labels (p :: rest) args nb s
  = match evaluatePair labels p.1.1 p.1.2 (labelImg p.2) (instImg p.2) args s with
    | (Ok n, s1) =>
        if matrix_sum (confMatrix s1) =? nb + n
        then evaluateLoop labels rest args (nb + n) s1
        else (Raise (PixelCountDisagree (matrix_sum (confMatrix s1)) (nb + n)), s1)
    | (Raise e, s1) => (Raise e, s1)
    end.
Proof.
  destruct p as [[name predictionImg] groundTruth]. cbn [evaluateLoop fst snd].
  rewrite run_bind. destruct (evaluatePair _ _ _ _ _ _ s) as [[n|e] s1]; [|reflexivity].
  rewrite run_bind, run_sanityCheck.
  destruct (matrix_sum (confMatrix s1) =? nb + n); reflexivity.
Qed.

Lemma evaluateLoop_app pre post args nb s :
  evaluateLoop labels (pre ++ post) args nb s
  = match evaluateLoop labels pre args nb s with
    | (Ok nb1, s1) => evaluateLoop labels post args nb1 s1
    | (Raise e, s1) => (Raise e, s1)
    end.
Proof.
  revert nb s. induction pre as [|p pre IH]; intros nb s; [reflexivity|].
  rewrite <- app_comm_cons, !evaluateLoop_cons.
  destruct (evaluatePair _ _ _ _ _ _ s) as [[n|e] s1]; [|reflexivity].
  destruct (matrix_sum (confMatrix s1) =? nb + n); [apply IH|reflexivity].
Qed.

(** [evaluatePair] returns the pixel count of the prediction image. *)
Lemma evaluatePair_returns name predictionImg groundTruthImg instanceImg args s n s1 :
  evaluatePair labels name predictionImg groundTruthImg instanceImg args s = (Ok n, s1) ->
  n = Z.of_nat (width predictionImg) * Z.of_nat (height predictionImg).
Proof.
  intros H.
  destruct (decide (width predictionImg = width groundTruthImg)) as [Hw|Hw];
    [|destruct (evaluatePair_size_fails labels name predictionImg groundTruthImg
                  instanceImg args s) as [e He]; [now left|congruence]].
  destruct (decide (height predictionImg = height groundTruthImg)) as [Hh|Hh];
    [|destruct (evaluatePair_size_fails labels name predictionImg groundTruthImg
                  instanceImg args s) as [e He]; [now right|congruence]].
  rewrite (evaluatePair_run _ _ _ _ _ _ _ Hw Hh) in H.
  destruct (accumulatePixels _ _ s) as [[[]|e] s2]; [|discriminate].
  destruct (afterPixels _ _ _ _ _ _ s2) as [[[]|e] s3]; [|discriminate].
  now injection H as <- _.
Qed.

Lemma pixelCount_cons p pairs :
  pixelCount (p :: pairs)
  = Z.of_nat (width p.1.2) * Z.of_nat (height p.1.2) + pixelCount pairs.
Proof. reflexivity. Qed.

Lemma pixelCount_nonneg pairs : 0 <= pixelCount pairs.
Proof.
  induction pairs as [|p pairs IH]; [reflexivity|]. rewrite pixelCount_cons. lia.
Qed.

(** A loop that ends normally ends with the matrix sum equal to the
    running pixel count: the sanity check has passed after each pair. *)
Lemma evaluateLoop_checked pairs args nb s nb' s' :
  matrix_sum (confMatrix s) = nb ->
  evaluateLoop labels pairs args nb s = (Ok nb', s') ->
  matrix_sum (confMatrix s') = nb' ∧ nb' = nb + pixelCount pairs.
Proof.
  revert nb s. induction pairs as [|p pairs IH]; intros nb s Hsum H.
  - injection H as <- <-. split; [exact Hsum|]. cbn. lia.
  - rewrite evaluateLoop_cons in H.
    destruct (evaluatePair _ _ _ _ _ _ s) as [[n|e] s1] eqn:Hpair; [|discriminate].
    apply evaluatePair_returns in Hpair.
    destruct (Z.eqb_spec (matrix_sum (confMatrix s1)) (nb + n)) as [Hs|]; [|discriminate].
    destruct (IH _ _ Hs H) as [H1 H2]. split; [exact H1|].
    rewrite pixelCount_cons. lia.
Qed.

(** Countable pairs: the loop ends normally and the matrix holds exactly
    one count per pixel. *)
Lemma evaluateLoop_ok args n pairs nb s :
  evalLabels_in_range args n ->
  Forall (fun r => is_Some (id2label labels !! r)) (evalLabels args) ->
  accumulators_ok labels n s ->
  matrix_total (confMatrix s) = nb ->
  Forall (countablePair labels args n) pairs ->
  nb + pixelCount pairs < 2 ^ 64 ->
  ∃ s', evaluateLoop labels pairs args nb s = (Ok (nb + pixelCount pairs), s')
        ∧ accumulators_ok labels n s'
        ∧ matrix_total (confMatrix s') = nb + pixelCount pairs.
Proof.
  intros Hrange Hknown Hok Htot Hpairs. revert nb s Hok Htot.
  induction Hpairs as [|p pairs Hp _ IH]; intros nb s Hok Htot Hbound.
  - exists s. cbn. rewrite Z.add_0_r. auto.
  - rewrite pixelCount_cons in Hbound. pose proof (pixelCount_nonneg pairs) as Hnn.
    destruct (evaluatePair_ok labels args n Hrange Hknown p s Hok Hp)
      as (s1 & Hpair & Hok1 & Htot1); [lia|].
    rewrite evaluateLoop_cons, Hpair.
    assert (Hsum : matrix_sum (confMatrix s1)
                   = nb + Z.of_nat (width p.1.2) * Z.of_nat (height p.1.2)).
    { unfold matrix_sum. rewrite wrap_u64_small; [lia|].
      pose proof (matrix_total_nonneg n _ (proj1 Hok1)). lia. }
    rewrite Hsum, Z.eqb_refl.
    destruct (IH _ s1 Hok1 (eq_trans Htot1 (f_equal (fun x => x + _) Htot)))
      as (s' & Hrun & Hok' & Htot'); [lia|].
    exists s'. rewrite Hrun, pixelCount_cons. rewrite Htot'.
    split; [f_equal; f_equal; lia|]. split; [exact Hok'|]. lia.
Qed.

Lemma evaluateImgLists_run predictionImgList groundTruthImgList args0 args m0 :
  length predictionImgList = length groundTruthImgList ->
  generateMatrix labels args0 = Ok (args, m0) ->
  evaluateImgLists labels predictionImgList groundTruthImgList args0
  = match evaluateLoop labels (zip predictionImgList groundTruthImgList) args 0
            {| confMatrix := m0;
               instanceStats := generateInstanceStats labels;
               perImageStats := ∅ |} with
    | (Ok nb, s) =>
        if matrix_sum (confMatrix s) =? nb then Ok (nb, s)
        else Raise (PixelCountDisagree (matrix_sum (confMatrix s)) nb)
    | (Raise e, _) => Raise e
    end.
Proof.
  intros Hlen Hgen. unfold evaluateImgLists.
  rewrite Hlen, Nat.eqb_refl. cbn [negb]. rewrite Hgen. cbn.
  rewrite run_bind.
  destruct (evaluateLoop _ _ _ _ _) as [[nb|e] s]; [|reflexivity].
  rewrite run_bind, run_sanityCheck.
  destruct (matrix_sum (confMatrix s) =? nb); reflexivity.
Qed.

Lemma evaluateImgLists_Ok_inv predictionImgList groundTruthImgList args0 nb final :
  evaluateImgLists labels predictionImgList groundTruthImgList args0 = Ok (nb, final) ->
  length predictionImgList = length groundTruthImgList
  ∧ ∃ args m0, generateMatrix labels args0 = Ok (args, m0).
Proof.
  unfold evaluateImgLists.
  destruct (Nat.eqb_spec (length predictionImgList) (length groundTruthImgList))
    as [Hlen|Hlen]; cbn [negb]; [|discriminate].
  destruct (generateMatrix labels args0) as [[args m0]|err]; [eauto|discriminate].
Qed.

(** Countable pairs: the accumulation phase ends normally, with a square
    matrix of counts that holds one count per pixel. *)
Lemma evaluateImgLists_finished predictionImgList groundTruthImgList args0 args m0 :
  generateMatrix labels args0 = Ok (args, m0) ->
  length predictionImgList = length groundTruthImgList ->
  Forall (countablePair labels args (length m0))
         (zip predictionImgList groundTruthImgList) ->
  pixelCount (zip predictionImgList groundTruthImgList) < 2 ^ 64 ->
  ∃ final,
    evaluateImgLists labels predictionImgList groundTruthImgList args0
    = Ok (pixelCount (zip predictionImgList groundTruthImgList), final)
    ∧ square_counts (length m0) (confMatrix final)
    ∧ matrix_total (confMatrix final)
      = pixelCount (zip predictionImgList groundTruthImgList).
Proof.
  intros Hgen Hlen Hpairs Hbound.
  rewrite (evaluateImgLists_run _ _ _ _ _ Hlen Hgen).
  pose proof (generateMatrix_spec labels _ _ _ Hgen) as (_ & Hsq & Htot & Hrange & Hknown).
  destruct (evaluateLoop_ok args (length m0)
              (zip predictionImgList groundTruthImgList) 0
              {| confMatrix := m0;
                 instanceStats := generateInstanceStats labels;
                 perImageStats := ∅ |} Hrange Hknown)
    as (s' & Hrun & Hok' & Htot'); [split; [exact Hsq|auto]|exact Htot|exact Hpairs|lia|].
  rewrite Z.add_0_l in Hrun, Htot'. rewrite Hrun.
  pose proof (pixelCount_nonneg (zip predictionImgList groundTruthImgList)).
  assert (Hsum : matrix_sum (confMatrix s')
                 = pixelCount (zip predictionImgList groundTruthImgList)).
  { unfold matrix_sum. rewrite Htot'. apply wrap_u64_small. lia. }
  rewrite Hsum, Z.eqb_refl. exists s'. split; [reflexivity|].
  split; [apply Hok'|exact Htot'].
Qed.

(** The semantic IoU of a label on the matrix that the accumulation
    phase delivers. *)
Lemma getIouScoreForLabel_finished predictionImgList groundTruthImgList
    args0 args m0 lbl lab :
  generateMatrix labels args0 = Ok (args, m0) ->
  length predictionImgList = length groundTruthImgList ->
  Forall (countablePair labels args (length m0))
         (zip predictionImgList groundTruthImgList) ->
  pixelCount (zip predictionImgList groundTruthImgList) < 2 ^ 63 ->
  NoDup (evalLabels args) ->
  lbl ∈ evalLabels args ->
  id2label labels !! lbl = Some lab ->
  label.ignoreInEval lab = false ->
  ∃ final,
    evaluateImgLists labels predictionImgList groundTruthImgList args0
    = Ok (pixelCount (zip predictionImgList groundTruthImgList), final)
    ∧ let m := confMatrix final in
      let tp := spec_tp m lbl in
      let fn := spec_fn m lbl in
      let fp := spec_fp labels args m lbl in
      getIouScoreForLabel labels lbl m args
      = Ok (if tp + fp + fn =? 0 then (NaN, NaN)
            else (Num (ZtoQc tp / ZtoQc (tp + fp + fn))%Qc, Num (ZtoQc (spec_gt m lbl)))).
Proof.
  intros Hgen Hlen Hpairs Hbound Hnd Hin Hlab Hign.
  destruct (evaluateImgLists_finished _ _ _ _ _ Hgen Hlen Hpairs) as (final & Hrun & Hsq & Htot);
    [lia|].
  pose proof (generateMatrix_spec labels _ _ _ Hgen) as (_ & _ & _ & Hrange & Hknown).
  exists final. split; [exact Hrun|]. cbv zeta.
  apply (getIouScoreForLabel_run labels args (length m0) _ lbl lab); try assumption.
  - unfold evalLabels_indexed, evalLabels_in_range in *.
    rewrite Forall_forall in Hrange, Hknown |- *. auto.
  - apply (iou_operands_bounded labels args (length m0)); try assumption. lia.
Qed.

(** C2: a run of the evaluation loop that ends normally has passed the
    sanity check after each pair: for every number [k] of pairs, the run
    on the first [k] pairs ends with the matrix sum equal to the sum of
    [width * height] over these pairs. Whenever the sum after a pair
    differs from the running count, the loop stops with the fatal error
    of the sanity check. On pairs that can be counted (and fewer than
    2^64 pixels) the run ends normally and the matrix holds exactly one
    count per pixel. *)
Theorem matrix_conservation predictionImgList groundTruthImgList args0 :
  (∀ nb final,
     evaluateImgLists labels predictionImgList groundTruthImgList args0 = Ok (nb, final) ->
     ∀ k, ∃ nb_k s_k,
       evaluateImgLists labels (take k predictionImgList) (take k groundTruthImgList) args0
       = Ok (nb_k, s_k)
       ∧ matrix_sum (confMatrix s_k) = nb_k
       ∧ nb_k = pixelCount (take k (zip predictionImgList groundTruthImgList)))
  ∧ (∀ args (p : (string * Image) * GroundTruth) rest nb s n s1,
       evaluatePair labels p.1.1 p.1.2 (labelImg p.2) (instImg p.2) args s = (Ok n, s1) ->
       matrix_sum (confMatrix s1) ≠ nb + n ->
       evaluateLoop labels (p :: rest) args nb s
       = (Raise (PixelCountDisagree (matrix_sum (confMatrix s1)) (nb + n)), s1))
  ∧ (∀ args m0,
       generateMatrix labels args0 = Ok (args, m0) ->
       length predictionImgList = length groundTruthImgList ->
       Forall (countablePair labels args (length m0))
              (zip predictionImgList groundTruthImgList) ->
       pixelCount (zip predictionImgList groundTruthImgList) < 2 ^ 64 ->
       ∃ final,
         evaluateImgLists labels predictionImgList groundTruthImgList args0
         = Ok (pixelCount (zip predictionImgList groundTruthImgList), final)
         ∧ matrix_total (confMatrix final)
           = pixelCount (zip predictionImgList groundTruthImgList)).
Proof.
  split; [|split].
  - intros nb final Hrun k.
    destruct (evaluateImgLists_Ok_inv _ _ _ _ _ Hrun) as (Hlen & args & m0 & Hgen).
    rewrite (evaluateImgLists_run _ _ _ _ _ Hlen Hgen) in Hrun.
    assert (Hlenk : length (take k predictionImgList) = length (take k groundTruthImgList))
      by (rewrite !length_take; lia).
    rewrite (evaluateImgLists_run _ _ _ _ _ Hlenk Hgen).
    rewrite <- zip_with_take.
    set (pairs := zip predictionImgList groundTruthImgList) in *.
    rewrite <- (take_drop k pairs), evaluateLoop_app in Hrun.
    destruct (evaluateLoop labels (take k pairs) args 0 _) as [[nbk|e] sk] eqn:Hk;
      [|discriminate].
    apply evaluateLoop_checked in Hk as [Hsum Hnb].
    + exists nbk, sk. rewrite Hsum, Z.eqb_refl. split; [reflexivity|].
      split; [reflexivity|]. lia.
    + cbn [confMatrix]. apply generateMatrix_spec in Hgen as (_ & _ & Htot & _).
      unfold matrix_sum. rewrite Htot. reflexivity.
  - intros args p rest nb s n s1 Hpair Hne.
    rewrite evaluateLoop_cons, Hpair.
    destruct (Z.eqb_spec (matrix_sum (confMatrix s1)) (nb + n)); [contradiction|reflexivity].
  - intros args m0 Hgen Hlen Hpairs Hbound.
    destruct (evaluateImgLists_finished _ _ _ _ _ Hgen Hlen Hpairs Hbound)
      as (final & Hrun & _ & Htot).
    eauto.
Qed.

End Loop.

Lemma matrix_conservation_witness :
  ∃ final,
    evaluateImgLists demoLabels demoPredictions demoGroundTruths demoArgs0
    = Ok (pixelCount (zip demoPredictions demoGroundTruths), final)
    ∧ matrix_total (confMatrix final)
      = pixelCount (zip demoPredictions demoGroundTruths).
Proof.
  apply (proj2 (proj2 (matrix_conservation demoLabels demoPredictions
                         demoGroundTruths demoArgs0)) demoArgs (zeros 15)).
  - vm_compute. reflexivity.
  - reflexivity.
  - change (zip demoPredictions demoGroundTruths)
      with [("a_pred.png"%string, scenarioPred,
             {| labelImg := scenarioGt; instImg := scenarioGt |});
            ("b_pred.png"%string, carsPred,
             {| labelImg := carsGt; instImg := carsInst |})].
    change (length (zeros 15)) with 15%nat.
    apply Forall_cons; split; [|apply Forall_cons; split; [|constructor]];
      unfold countablePair; cbn [fst snd labelImg instImg];
      (split; [reflexivity|]); (split; [reflexivity|]);
      (split; [reflexivity|]); (split; [reflexivity|]);
      (split; [apply (bool_decide_unpack _); vm_compute; exact I|]);
      (split; [apply (bool_decide_unpack _); vm_compute; exact I|]);
      intros _; (split; [reflexivity|]).
    + change (instList scenarioGt) with (@nil Z). constructor.
    + change (instList carsInst) with [14001; 14002]. unfold instanceKnown.
      apply Forall_cons; split; [|apply Forall_cons; split; [|constructor]];
        (exists (label.mk "car" 14 "vehicle" true false);
         split; [vm_compute; reflexivity
                |right; unfold is_Some; split; eexists; vm_compute; reflexivity]).
  - vm_compute. reflexivity.
Defined.


Section Tables.

Variable labels : list Label.

Lemma id2label_fold (ls : list Label) (m : gmap Z Label) i lab :
  foldl (fun m l => <[label.id l := l]> m) m ls !! i = Some lab ->
  lab ∈ ls ∨ m !! i = Some lab.
Proof.
  revert m. induction ls as [|l ls IH]; intros m H; cbn in H; [now right|].
  apply IH in H as [H|H]; [left; now apply elem_of_cons; right|].
  apply lookup_insert_Some in H as [[_ <-]|[_ H]]; [left; apply elem_of_cons; now left|now right].
Qed.

(** A label that is looked up by id is a row of the table. *)
Lemma id2label_elem i lab : id2label labels !! i = Some lab -> lab ∈ labels.
Proof.
  intros H. apply id2label_fold in H as [H|H]; [exact H|].
  rewrite lookup_empty in H. discriminate.
Qed.

Lemma classes_fold (ls : list Label) (m : gmap string Stats) n :
  is_Some (foldl (fun m l =>
                    if label.hasInstances l && negb (label.ignoreInEval l)
                    then <[label.name l := zeroStats]> m else m) m ls !! n) ->
  (∃ l, l ∈ ls ∧ label.name l = n ∧ label.hasInstances l = true
        ∧ label.ignoreInEval l = false)
  ∨ is_Some (m !! n).
Proof.
  revert m. induction ls as [|l ls IH]; intros m H; cbn in H; [now right|].
  apply IH in H as [(l' & Hin & H)|H].
  - left. exists l'. split; [apply elem_of_cons; now right|exact H].
  - destruct (label.hasInstances l) eqn:Hi, (label.ignoreInEval l) eqn:Hg;
      cbn in H; try (now right).
    destruct (decide (label.name l = n)) as [Hn|Hn].
    + left. exists l. split; [apply elem_of_cons; now left|auto].
    + rewrite lookup_insert_ne in H by exact Hn. now right.
Qed.

(** The classes of the instance statistics are the names of the labels
    with instances that are not ignored. *)
Lemma generateInstanceStats_class n :
  is_Some (classes (generateInstanceStats labels) !! n) ->
  ∃ l, l ∈ labels ∧ label.name l = n ∧ label.hasInstances l = true
       ∧ label.ignoreInEval l = false.
Proof.
  intros H. apply classes_fold in H as [H|[x H]]; [exact H|].
  rewrite lookup_empty in H. discriminate.
Qed.

Lemma unique_names (l1 l2 : Label) :
  NoDup (label.name <$> labels) -> l1 ∈ labels -> l2 ∈ labels ->
  label.name l1 = label.name l2 -> l1 = l2.
Proof.
  induction labels as [|l ls IH]; intros Hnd H1 H2 Hn; [inversion H1|].
  cbn in Hnd. apply NoDup_cons in Hnd as [Hnotin Hnd].
  apply elem_of_cons in H1 as [->|H1]; apply elem_of_cons in H2 as [->|H2].
  - reflexivity.
  - exfalso. apply Hnotin. rewrite Hn. apply list_elem_of_fmap. eauto.
  - exfalso. apply Hnotin. rewrite <- Hn. apply list_elem_of_fmap. eauto.
  - now apply IH.
Qed.

(** C10: when the instance map holds an id above 1000 whose decoded
    label is in the taxonomy and not ignored but has no instances, the
    instance accumulation stops with a missing dictionary key: the
    classes were created for the labels with instances only (names being
    unique), and the loop skips ignored labels only. *)
Theorem accumulateInstances_label_without_instances
    args predictionNp instanceNp s instId lab :
  NoDup (label.name <$> labels) ->
  (∀ n, is_Some (classes (instanceStats s) !! n)
        -> is_Some (classes (generateInstanceStats labels) !! n)) ->
  same_shape instanceNp predictionNp = true ->
  instId ∈ pixels instanceNp ->
  1000 < instId ->
  id2label labels !! (instId / 1000) = Some lab ->
  label.ignoreInEval lab = false ->
  label.hasInstances lab = false ->
  ∃ k s', accumulateInstances labels args predictionNp instanceNp s
          = (Raise (KeyError k), s').
Proof.
  intros Hnd Hcls Hshape Hin Hgt Hlab Hign Hinst.
  unfold accumulateInstances. rewrite run_bind. unfold get.
  eapply instanceLoop_missing_class; try eassumption.
  - apply instList_spec. split; assumption.
  - destruct (classes (instanceStats s) !! label.name lab) eqn:E; [|reflexivity].
    exfalso. destruct (generateInstanceStats_class (label.name lab)) as (l & Hl & Hn & Hi & _).
    { apply Hcls. rewrite E. eauto. }
    assert (l = lab).
    { apply unique_names; try assumption. eapply id2label_elem; eassumption. }
    subst l. congruence.
Qed.

End Tables.

Lemma accumulateInstances_label_without_instances_witness :
  ∃ k s', accumulateInstances demoLabels demoArgs roadPred roadInst demoInit
          = (Raise (KeyError k), s').
Proof.
  apply (accumulateInstances_label_without_instances demoLabels demoArgs
           roadPred roadInst demoInit 7001 (label.mk "road" 7 "flat" false false)).
  - apply (bool_decide_unpack _). vm_compute. exact I.
  - intros n H. exact H.
  - reflexivity.
  - apply (bool_decide_unpack _). vm_compute. exact I.
  - lia.
  - vm_compute. reflexivity.
  - reflexivity.
  - reflexivity.
Defined.


Section Setup.

Variable labels : list Label.

Lemma foldr_max_attained x rest : foldr Z.max x rest ∈ x :: rest.
Proof.
  induction rest as [|y rest IH]; cbn; [apply elem_of_cons; now left|].
  destruct (Z.max_spec y (foldr Z.max x rest)) as [[_ ->]|[_ ->]].
  - apply elem_of_cons in IH as [->|IH]; [apply elem_of_cons; now left|].
    apply elem_of_cons; right. apply elem_of_cons; now right.
  - apply elem_of_cons; right. apply elem_of_cons; now left.
Qed.

(** X1: [generateMatrix] fails, with the [ValueError] of [max] on an
    empty list, exactly when no label of the table has a non-negative
    id. Otherwise the evaluated labels are the non-negative ids in table
    order, the other parameters are untouched, and the matrix is the zero
    matrix whose side is the largest evaluated id plus one, so that every
    evaluated id indexes it. *)
Theorem generateMatrix_shape args :
  match generateMatrix labels args with
  | Raise e => e = ValueError ∧ Forall (fun l => label.id l < 0) labels
  | Ok (args', m) =>
      evalLabels args'
      = label.id <$> List.filter (fun l => negb (label.id l <? 0)) labels
      ∧ evalInstLevelScore args' = evalInstLevelScore args
      ∧ evalPixelAccuracy args' = evalPixelAccuracy args
      ∧ avgClassSize args' = avgClassSize args
      ∧ m = zeros (length m)
      ∧ Z.of_nat (length m) - 1 ∈ evalLabels args'
      ∧ Forall (fun r => 0 <= r < Z.of_nat (length m)) (evalLabels args')
  end.
Proof.
  destruct (generateMatrix labels args) as [[args' m]|e] eqn:Hgen.
  - pose proof (generateMatrix_spec labels _ _ _ Hgen) as (-> & _ & _ & Hrange & _).
    unfold generateMatrix in Hgen.
    set (ids := label.id <$> List.filter _ labels) in *.
    destruct ids as [|x rest] eqn:E; [discriminate|].
    injection Hgen as <-.
    cbn [evalLabels evalInstLevelScore evalPixelAccuracy avgClassSize set_evalLabels].
    repeat (split; [reflexivity|]).
    unfold evalLabels_in_range in Hrange. cbn [evalLabels set_evalLabels] in Hrange.
    unfold zeros in Hrange |- *. rewrite !length_replicate in Hrange |- *.
    split; [reflexivity|]. split; [|exact Hrange].
    pose proof (foldr_max_attained x rest) as Hmax.
    rewrite Forall_forall in Hrange. specialize (Hrange _ Hmax).
    replace (Z.of_nat (Z.to_nat (foldr Z.max x rest + 1)) - 1)
      with (foldr Z.max x rest) by lia.
    exact Hmax.
  - unfold generateMatrix in Hgen.
    destruct (label.id <$> List.filter _ labels) as [|x rest] eqn:E; [|discriminate].
    injection Hgen as <-. split; [reflexivity|].
    apply Forall_forall. intros l Hl.
    destruct (Z.ltb_spec (label.id l) 0) as [Hneg|Hpos]; [exact Hneg|].
    assert (Hin : label.id l ∈ label.id <$> List.filter
                    (fun l => negb (label.id l <? 0)) labels).
    { apply list_elem_of_fmap. exists l. split; [reflexivity|].
      apply list_elem_of_In, filter_In. split; [now apply list_elem_of_In|].
      destruct (Z.ltb_spec (label.id l) 0); [lia|reflexivity]. }
    rewrite E in Hin. inversion Hin.
Qed.

Lemma classes_fold_lookup (ls : list Label) (m : gmap string Stats) n :
  foldl (fun m l =>
           if label.hasInstances l && negb (label.ignoreInEval l)
           then <[label.name l := zeroStats]> m else m) m ls !! n
  = if existsb (fun l => bool_decide (label.name l = n)
                         && (label.hasInstances l && negb (label.ignoreInEval l))) ls
    then Some zeroStats else m !! n.
Proof.
  revert m. induction ls as [|l ls IH]; intros m; cbn [foldl existsb]; [reflexivity|].
  rewrite IH. destruct (existsb _ ls); [now rewrite orb_true_r|].
  rewrite orb_false_r.
  destruct (label.hasInstances l && negb (label.ignoreInEval l));
    [|now rewrite andb_false_r].
  rewrite andb_true_r. case_bool_decide as Hn.
  - subst n. now rewrite lookup_insert_eq.
  - now rewrite lookup_insert_ne.
Qed.

(** X2: the classes of fresh instance statistics are exactly the names
    of the labels that have instances and are not ignored, each with its
    four counters at zero. *)
Theorem generateInstanceStats_classes n :
  classes (generateInstanceStats labels) !! n
  = if existsb (fun l => bool_decide (label.name l = n)
                         && (label.hasInstances l && negb (label.ignoreInEval l)))
               labels
    then Some zeroStats else None.
Proof.
  unfold generateInstanceStats. cbn [classes].
  rewrite classes_fold_lookup, lookup_empty. reflexivity.
Qed.

(** X3: images of different widths make [evaluatePair] stop with the
    width error, and images of equal widths and different heights with
    the height error; in both cases before anything is accumulated. *)
Theorem evaluatePair_size_mismatch name predictionImg groundTruthImg instanceImg args s :
  (width predictionImg ≠ width groundTruthImg ->
   evaluatePair labels name predictionImg groundTruthImg instanceImg args s
   = (Raise WidthMismatch, s))
  ∧ (width predictionImg = width groundTruthImg ->
     height predictionImg ≠ height groundTruthImg ->
     evaluatePair labels name predictionImg groundTruthImg instanceImg args s
     = (Raise HeightMismatch, s)).
Proof.
  split.
  - intros Hw. unfold evaluatePair. rewrite run_bind.
    destruct (Nat.eqb_spec (width predictionImg) (width groundTruthImg));
      [contradiction|reflexivity].
  - intros Hw Hh. unfold evaluatePair. rewrite run_bind, Hw, Nat.eqb_refl.
    cbn [negb]. rewrite run_failWhen_false, run_bind.
    destruct (Nat.eqb_spec (height predictionImg) (height groundTruthImg));
      [contradiction|reflexivity].
Qed.

End Setup.

Lemma evaluatePair_size_mismatch_witness :
  evaluatePair demoLabels "prediction.png" scenarioPred accuracyGt accuracyGt
               demoArgs demoInit
  = (Raise WidthMismatch, demoInit)
  ∧ evaluatePair demoLabels "prediction.png" scenarioPred unknownGt unknownGt
                 demoArgs demoInit
    = (Raise HeightMismatch, demoInit).
Proof.
  split.
  - apply (proj1 (evaluatePair_size_mismatch demoLabels "prediction.png" scenarioPred
                    accuracyGt accuracyGt demoArgs demoInit)).
    cbn. lia.
  - apply (proj2 (evaluatePair_size_mismatch demoLabels "prediction.png" scenarioPred
                    unknownGt unknownGt demoArgs demoInit)).
    + reflexivity.
    + cbn. lia.
Defined.


Section MainLists.

Lemma listsOfArguments_fold argv p g :
  foldl (fun '(predictionImgList, groundTruthImgList) arg =>
           if contains "gt" arg || contains "groundtruth" arg
           then (predictionImgList, groundTruthImgList ++ [arg])
           else if contains "pred" arg
           then (predictionImgList ++ [arg], groundTruthImgList)
           else (predictionImgList, groundTruthImgList))
        (p, g) argv
  = (p ++ List.filter (fun arg => negb (contains "gt" arg || contains "groundtruth" arg)
                                   && contains "pred" arg) argv,
     g ++ List.filter (fun arg => contains "gt" arg || contains "groundtruth" arg) argv).
Proof.
  revert p g. induction argv as [|arg argv IH]; intros p g; cbn -[contains].
  - now rewrite !app_nil_r.
  - destruct (contains "gt" arg || contains "groundtruth" arg); cbn -[contains].
    + rewrite IH. now rewrite <- app_assoc.
    + destruct (contains "pred" arg); rewrite IH; [now rewrite <- app_assoc|reflexivity].
Qed.

(** X4: with one, two or three arguments [main] evaluates empty lists,
    whatever the arguments are. With more than three, the ground-truth
    list is the arguments that contain "gt" or "groundtruth" and the
    prediction list is the other arguments that contain "pred", both in
    the order of the command line; an argument that contains "gt" and
    "pred" is a ground truth. *)
Theorem mainLists_arguments argv globbed getPrediction :
  ((0 < length argv <= 3)%nat -> mainLists argv globbed getPrediction = Lists [] [])
  ∧ ((3 < length argv)%nat ->
     mainLists argv globbed getPrediction
     = Lists (List.filter (fun arg => negb (contains "gt" arg || contains "groundtruth" arg)
                                      && contains "pred" arg) argv)
             (List.filter (fun arg => contains "gt" arg || contains "groundtruth" arg) argv)).
Proof.
  split; intros Hlen; unfold mainLists.
  - destruct (Nat.ltb_spec 3 (length argv)); [lia|].
    destruct (Nat.eqb_spec (length argv) 0); [lia|reflexivity].
  - destruct (Nat.ltb_spec 3 (length argv)); [|lia].
    unfold listsOfArguments. rewrite listsOfArguments_fold. reflexivity.
Qed.

(** What one ground-truth file adds: its predictions that differ from
    it and are no ground-truth file met so far, each paired with it. *)
Lemma addPredictions_exact gt elements p g :
  addPredictions gt elements (p, g)
  = let sel := List.filter (fun ele => negb (String.eqb gt ele)
                                       && negb (bool_decide (ele ∈ g))) elements in
    (p ++ sel, g ++ replicate (length sel) gt).
Proof.
  unfold addPredictions. revert p g.
  induction elements as [|ele elements IH]; intros p g; cbn [foldl List.filter].
  - cbn. now rewrite !app_nil_r.
  - cbv beta iota.
    destruct (negb (String.eqb gt ele) && negb (bool_decide (ele ∈ g))) eqn:Hc;
      [|apply IH].
    rewrite IH. cbv zeta.
    apply andb_true_iff in Hc as [Hne _]. apply negb_true_iff in Hne.
    assert (Hext : List.filter (fun e => negb (String.eqb gt e)
                                        && negb (bool_decide (e ∈ g ++ [gt]))) elements
                   = List.filter (fun e => negb (String.eqb gt e)
                                          && negb (bool_decide (e ∈ g))) elements).
    { apply filter_ext. intros e.
      destruct (String.eqb_spec gt e) as [->|Hd]; cbn [negb andb]; [reflexivity|].
      f_equal. apply bool_decide_ext. rewrite elem_of_app, list_elem_of_singleton.
      split; [intros [H|H]; [exact H|congruence]|now left]. }
    rewrite Hext. cbn [length replicate].
    rewrite <- !app_assoc. reflexivity.
Qed.

Lemma zip_replicate_elem (sel : list string) (gt ele : string) :
  ele ∈ sel -> (ele, gt) ∈ zip sel (replicate (length sel) gt).
Proof.
  induction sel as [|x sel IH]; intros H; [inversion H|].
  cbn. apply elem_of_cons in H as [->|H]; apply elem_of_cons; [now left|right; auto].
Qed.

Lemma searched_app globbed getPrediction gt elements sel p g :
  gt ∈ globbed -> getPrediction gt = Some elements ->
  Forall (fun ele => ele ∈ elements ∧ ele ≠ gt) sel ->
  searched globbed getPrediction p g ->
  searched globbed getPrediction (p ++ sel) (g ++ replicate (length sel) gt).
Proof.
  intros Hgt Hel Hsel H. apply Forall2_app; [exact H|].
  induction Hsel as [|ele sel [Hin Hne] _ IH]; cbn; constructor; [|exact IH].
  split; [exact Hne|]. split; [exact Hgt|]. eauto.
Qed.

(** The loop over the ground-truth files: where it stops, and what it
    has paired when it ends. *)
Lemma searchPredictions_spec globbed getPrediction gts p g :
  Forall (fun x => x ∈ globbed) gts ->
  length p = length g ->
  searched globbed getPrediction p g ->
  match searchPredictions getPrediction gts (p, g) with
  | inl gt =>
      ∃ before after, gts = before ++ gt :: after
                      ∧ getPrediction gt = None
                      ∧ Forall (fun x => is_Some (getPrediction x)) before
  | inr (p', g') =>
      Forall (fun x => is_Some (getPrediction x)) gts
      ∧ length p' = length g'
      ∧ searched globbed getPrediction p' g'
      ∧ (∀ x, x ∈ zip p g -> x ∈ zip p' g')
      ∧ (∀ gt elements ele,
           gt ∈ gts -> getPrediction gt = Some elements -> ele ∈ elements ->
           ele ≠ gt -> ele ∉ globbed -> (ele, gt) ∈ zip p' g')
  end.
Proof.
  intros Hgts. revert p g.
  induction Hgts as [|gt0 gts Hgt0 _ IH]; intros p g Hlen Hs; cbn [searchPredictions].
  - split; [constructor|]. split; [exact Hlen|]. split; [exact Hs|].
    split; [auto|]. intros gt elements ele Hin. inversion Hin.
  - destruct (getPrediction gt0) as [elements0|] eqn:Hp0.
    2:{ exists [], gts. split; [reflexivity|]. split; [exact Hp0|constructor]. }
    rewrite addPredictions_exact. cbv zeta.
    set (sel := List.filter _ elements0).
    assert (Hsel : ∀ ele, ele ∈ sel ↔ ele ∈ elements0 ∧ ele ≠ gt0 ∧ ele ∉ g).
    { intros ele. unfold sel.
      rewrite list_elem_of_In, filter_In, <- list_elem_of_In, andb_true_iff,
        !negb_true_iff, bool_decide_eq_false, String.eqb_neq.
      split; intros (H1 & H2 & H3); repeat split; auto; congruence. }
    assert (Hlen1 : length (p ++ sel) = length (g ++ replicate (length sel) gt0))
      by (rewrite !length_app, length_replicate; lia).
    assert (Hs1 : searched globbed getPrediction (p ++ sel)
                           (g ++ replicate (length sel) gt0)).
    { apply (searched_app globbed getPrediction gt0 elements0); try assumption.
      apply Forall_forall. intros ele Hele. apply Hsel in Hele. tauto. }
    specialize (IH _ _ Hlen1 Hs1).
    destruct (searchPredictions getPrediction gts _) as [gt|[p' g']].
    + destruct IH as (before & after & -> & Hnone & Hbefore).
      exists (gt0 :: before), after. split; [reflexivity|]. split; [exact Hnone|].
      constructor; [rewrite Hp0; eauto|exact Hbefore].
    + destruct IH as (Hall & Hlen' & Hs' & Hmono & Hcomplete).
      assert (Hzip : zip (p ++ sel) (g ++ replicate (length sel) gt0)
                     = zip p g ++ zip sel (replicate (length sel) gt0))
        by (apply zip_with_app; exact Hlen).
      split; [constructor; [rewrite Hp0; eauto|exact Hall]|].
      split; [exact Hlen'|]. split; [exact Hs'|]. split.
      * intros x Hx. apply Hmono. rewrite Hzip. apply elem_of_app. now left.
      * intros gt elements ele Hin Hp Hele Hne Hout.
        apply elem_of_cons in Hin as [->|Hin]; [|eauto].
        apply Hmono. rewrite Hzip. apply elem_of_app. right.
        apply zip_replicate_elem. apply Hsel.
        assert (elements = elements0) by congruence. subst elements.
        split; [exact Hele|]. split; [exact Hne|].
        intros Hg. apply Hout.
        clear -Hs Hg. unfold searched in Hs.
        induction Hs as [|pe ge p g (_ & Hge & _) _ IH']; [inversion Hg|].
        apply elem_of_cons in Hg as [->|Hg]; [exact Hge|]. now apply IH'.
Qed.

(** X5: without arguments [main] stops with its fatal error exactly when
    the ground-truth search finds nothing, and stops at the first
    ground-truth file for which [getPrediction] ends the program.
    Otherwise every call of [getPrediction] has returned, the two lists
    that [main] builds have the same length, each prediction is paired
    with a ground-truth file of the search from whose predictions it
    comes and from which it differs, and no pair is lost: a prediction
    found for a ground-truth file, different from it and not itself a
    ground-truth file of the search, is paired with it. *)
Theorem mainLists_search globbed getPrediction :
  match mainLists [] globbed getPrediction with
  | NoGroundTruthFound => globbed = []
  | PredictionSearchStopped gt =>
      ∃ before after, globbed = before ++ gt :: after
                      ∧ getPrediction gt = None
                      ∧ Forall (fun x => is_Some (getPrediction x)) before
  | Lists predictionImgList groundTruthImgList =>
      globbed ≠ []
      ∧ Forall (fun x => is_Some (getPrediction x)) globbed
      ∧ length predictionImgList = length groundTruthImgList
      ∧ searched globbed getPrediction predictionImgList groundTruthImgList
      ∧ (∀ gt elements ele,
           gt ∈ globbed -> getPrediction gt = Some elements -> ele ∈ elements ->
           ele ≠ gt -> ele ∉ globbed ->
           (ele, gt) ∈ zip predictionImgList groundTruthImgList)
  end.
Proof.
  unfold mainLists. cbn [length Nat.ltb Nat.leb Nat.eqb].
  destruct globbed as [|g0 rest] eqn:E; [reflexivity|]. rewrite <- E.
  pose proof (searchPredictions_spec globbed getPrediction globbed [] []) as H.
  destruct (searchPredictions getPrediction globbed ([], [])) as [gt|[p g]].
  - apply H; [apply Forall_forall; auto|reflexivity|constructor].
  - destruct H as (Hall & Hlen & Hs & _ & Hcomplete);
      [apply Forall_forall; auto|reflexivity|constructor|].
    split; [rewrite E; discriminate|]. auto.
Qed.

End MainLists.

Lemma mainLists_arguments_witness :
  mainLists ["a_gt.png"; "a_pred.png"]%string [] (fun _ => Some []) = Lists [] []
  ∧ mainLists ["a_gt.png"; "a_pred.png"; "b_gt_pred.png"; "notes.txt"]%string
              [] (fun _ => Some [])
    = Lists ["a_pred.png"]%string ["a_gt.png"; "b_gt_pred.png"]%string.
Proof.
  split.
  - apply (proj1 (mainLists_arguments ["a_gt.png"; "a_pred.png"]%string
                    [] (fun _ => Some []))).
    cbn. lia.
  - rewrite (proj2 (mainLists_arguments
                      ["a_gt.png"; "a_pred.png"; "b_gt_pred.png"; "notes.txt"]%string
                      [] (fun _ => Some []))).
    + vm_compute. reflexivity.
    + cbn. lia.
Defined.


Section EmptyRun.

Variable labels : list Label.




Lemma zsum_all_zero (l : list Z) : Forall (fun x => x = 0) l -> zsum l = 0.
Proof. induction 1 as [|x l -> _ IH]; [reflexivity|]. rewrite zsum_cons. lia. Qed.




End EmptyRun.



Section PairCells.

Variable labels : list Label.

(** X7: a pair that can be counted adds to every cell [[i][j]] of the
    matrix the number of its pixels with ground truth [i] and prediction
    [j] (a negative prediction counting from the last column, as numpy
    indexes), and returns [width * height]. *)
Theorem evaluatePair_cells args n (p : (string * Image) * GroundTruth) s :
  evalLabels_in_range args n ->
  Forall (fun r => is_Some (id2label labels !! r)) (evalLabels args) ->
  accumulators_ok labels n s ->
  countablePair labels args n p ->
  matrix_total (confMatrix s) + Z.of_nat (width p.1.2) * Z.of_nat (height p.1.2) < 2 ^ 64 ->
  ∃ s', evaluatePair labels p.1.1 p.1.2 (labelImg p.2) (instImg p.2) args s
        = (Ok (Z.of_nat (width p.1.2) * Z.of_nat (height p.1.2)), s')
        ∧ ∀ i j, 0 <= i -> 0 <= j ->
            matrix_at (confMatrix s') i j
            = matrix_at (confMatrix s) i j
              + countCell n i j (zip (pixels (labelImg p.2)) (pixels p.1.2)).
Proof.
  intros Hrange Hknown Hok (Hw & Hh & Hwp & Hwg & Hgt & Hpred & Hinst) Hbound.
  set (pxs := zip (pixels (labelImg p.2)) (pixels p.1.2)).
  assert (Hl : length (pixels (labelImg p.2)) = length (pixels p.1.2))
    by (unfold wf_image in *; congruence).
  assert (Hlen : length pxs = (width p.1.2 * height p.1.2)%nat).
  { unfold pxs. rewrite length_zip_with_l_eq; unfold wf_image in *; congruence. }
  destruct (accumulatePixels_cells args n pxs s) as (m1 & Hrun & Hsq1 & Hcells);
    [apply Hok|exact Hrange|now apply countable_zip|rewrite Hlen; lia|].
  rewrite (evaluatePair_run labels _ _ _ _ _ _ Hw Hh). fold pxs. rewrite Hrun.
  destruct (afterPixels_ok labels args n Hknown p.1.1 p.1.2 (labelImg p.2) (instImg p.2)
              (set_confMatrix m1 s)) as (s' & Hafter & Hm' & Hok').
  { split; [exact Hsq1|]. apply Hok. }
  { exact Hinst. }
  rewrite Hafter. exists s'. split; [reflexivity|].
  rewrite Hm'. exact Hcells.
Qed.

End PairCells.

Section Demo.

Lemma demoInit_ok : accumulators_ok demoLabels 15 demoInit.
Proof.
  split; [|intros name H; exact H].
  unfold square_counts. apply (bool_decide_unpack _). vm_compute. exact I.
Qed.

Lemma demoArgs_in_range : evalLabels_in_range demoArgs 15.
Proof. unfold evalLabels_in_range. apply (bool_decide_unpack _). vm_compute. exact I. Qed.

Lemma demoArgs_known :
  Forall (fun r => is_Some (id2label demoLabels !! r)) (evalLabels demoArgs).
Proof. apply (bool_decide_unpack _). vm_compute. exact I. Qed.

Lemma scenario_countable :
  countablePair demoLabels demoArgs 15
    ("a_pred.png"%string, scenarioPred,
     {| labelImg := scenarioGt; instImg := scenarioGt |}).
Proof.
  unfold countablePair; cbn [fst snd labelImg instImg].
  (split; [reflexivity|]); (split; [reflexivity|]);
  (split; [reflexivity|]); (split; [reflexivity|]);
  (split; [apply (bool_decide_unpack _); vm_compute; exact I|]);
  (split; [apply (bool_decide_unpack _); vm_compute; exact I|]);
  intros _; (split; [reflexivity|]).
  change (instList scenarioGt) with (@nil Z). constructor.
Qed.

End Demo.

Lemma evaluatePair_cells_witness :
  ∃ s', evaluatePair demoLabels "a_pred.png" scenarioPred scenarioGt scenarioGt
                     demoArgs demoInit = (Ok 4, s')
        ∧ matrix_at (confMatrix s') 7 8 = 1.
Proof.
  destruct (evaluatePair_cells demoLabels demoArgs 15
              ("a_pred.png"%string, scenarioPred,
               {| labelImg := scenarioGt; instImg := scenarioGt |}) demoInit
              demoArgs_in_range demoArgs_known demoInit_ok scenario_countable)
    as (s' & Hrun & Hcells).
  - vm_compute. reflexivity.
  - exists s'. split; [exact Hrun|].
    rewrite Hcells by lia. vm_compute. reflexivity.
Defined.


Section InstanceFrame.

Variable labels : list Label.
Variable args : Args.
Variables predictionNp instanceNp : Image.

Lemma sameFrame_refl s : sameFrame s s.
Proof. repeat split; auto. Qed.

Lemma sameFrame_trans s1 s2 s3 : sameFrame s1 s2 -> sameFrame s2 s3 -> sameFrame s1 s3.
Proof.
  intros (Hm & Hp & Hc & Hk) (Hm' & Hp' & Hc' & Hk').
  split; [congruence|]. split; [congruence|]. split.
  - intros name. rewrite Hc'. apply Hc.
  - intros c. rewrite Hk'. apply Hk.
Qed.

Lemma instanceStep_frame catMasks instId s :
  sameFrame s (instanceStep labels args predictionNp instanceNp catMasks instId s).2.
Proof.
  unfold instanceStep.
  rewrite run_bind. unfold lift at 1, lookupLabel.
  destruct (id2label labels !! (instId / 1000)) as [lab|]; cbn [from_option];
    [|apply sameFrame_refl].
  destruct (label.ignoreInEval lab); [apply sameFrame_refl|].
  rewrite run_bind.
  destruct (same_shape instanceNp predictionNp); cbn [negb];
    [|rewrite run_failWhen_true; apply sameFrame_refl].
  rewrite run_failWhen_false.
  rewrite run_bind. unfold lift at 1.
  destruct (avgClassSize args !! label.name lab) as [avg|]; cbn [from_option];
    [|apply sameFrame_refl].
  rewrite run_bind. unfold get at 1.
  rewrite run_bind. unfold lift at 1.
  destruct (classes (instanceStats s) !! label.name lab) as [cls|] eqn:Hcls;
    cbn [from_option]; [|apply sameFrame_refl].
  rewrite run_bind. unfold modify at 1.
  rewrite run_bind. unfold get at 1.
  cbn [instanceStats set_instanceStats categories classes].
  assert (Hdom : ∀ x name,
             is_Some (<[label.name lab := x]> (classes (instanceStats s)) !! name)
             ↔ is_Some (classes (instanceStats s) !! name)).
  { intros x name. destruct (decide (label.name lab = name)) as [<-|Hne].
    - rewrite lookup_insert_eq, Hcls. split; eauto.
    - now rewrite lookup_insert_ne. }
  destruct (categories (instanceStats s) !! label.category lab) as [cs|] eqn:Hcat.
  - rewrite run_bind. unfold lift at 1.
    destruct (catMasks !! label.category lab); cbn [from_option].
    + unfold modify. cbn [snd].
      split; [reflexivity|]. split; [reflexivity|]. split; [apply Hdom|].
      intros c. cbn [instanceStats set_instanceStats categories].
      destruct (decide (label.category lab = c)) as [<-|Hne].
      * now rewrite lookup_insert_eq, Hcat.
      * now rewrite lookup_insert_ne.
    + cbn [snd].
      split; [reflexivity|]. split; [reflexivity|]. split; [apply Hdom|reflexivity].
  - cbn [snd].
    split; [reflexivity|]. split; [reflexivity|]. split; [apply Hdom|reflexivity].
Qed.

Lemma instanceLoop_frame catMasks ids s :
  sameFrame s (forM_ ids (instanceStep labels args predictionNp instanceNp catMasks) s).2.
Proof.
  revert s. induction ids as [|i ids IH]; intros s; [apply sameFrame_refl|].
  cbn [forM_]. rewrite run_bind.
  pose proof (instanceStep_frame catMasks i s) as Hstep.
  destruct (instanceStep _ _ _ _ _ i s) as [[[]|e] s1]; cbn [snd] in *; [|exact Hstep].
  eapply sameFrame_trans; [exact Hstep|apply IH].
Qed.

(** X8: whether it succeeds or fails, the instance accumulation leaves
    the confusion matrix and the per-image statistics as they are, adds
    or removes no class and no category, and keeps the [labelIds] of
    every category. On an instance map without a value above 1000 it
    succeeds and changes nothing. *)
Theorem accumulateInstances_frame s :
  sameFrame s (accumulateInstances labels args predictionNp instanceNp s).2
  ∧ (Forall (fun x => x <= 1000) (pixels instanceNp) ->
     accumulateInstances labels args predictionNp instanceNp s = (Ok tt, s)).
Proof.
  split.
  - unfold accumulateInstances. rewrite run_bind. unfold get. apply instanceLoop_frame.
  - intros Hsmall. unfold accumulateInstances. rewrite run_bind. unfold get.
    assert (Hnil : instList instanceNp = []).
    { destruct (instList instanceNp) as [|x l] eqn:E; [reflexivity|].
      assert (Hx : x ∈ instList instanceNp) by (rewrite E; apply elem_of_cons; now left).
      apply instList_spec in Hx as [Hx Hgt].
      rewrite Forall_forall in Hsmall. specialize (Hsmall x Hx). lia. }
    rewrite Hnil. reflexivity.
Qed.

End InstanceFrame.

Lemma accumulateInstances_frame_witness :
  accumulateInstances demoLabels demoArgs scenarioPred scenarioGt demoInit
  = (Ok tt, demoInit).
Proof.
  apply (proj2 (accumulateInstances_frame demoLabels demoArgs scenarioPred scenarioGt
                  demoInit)).
  apply (bool_decide_unpack _). vm_compute. exact I.
Defined.

Section InstanceCounts.

Variable labels : list Label.
Variable args : Args.
Variables predictionNp instanceNp : Image.

(** The pixels of an instance that are predicted as its label are among
    the pixels of the instance. *)
Lemma spec_instTp_le instId :
  0 <= spec_instTp predictionNp instanceNp instId <= spec_instSize instanceNp instId.
Proof.
  unfold spec_instTp, spec_instSize. split; [lia|].
  apply inj_le. generalize (pixels predictionNp) as lp.
  induction (pixels instanceNp) as [|x li IH]; intros [|p lp]; cbn; try lia.
  specialize (IH lp). destruct (x =? instId); cbn [andb].
  - destruct (p =? instId / 1000); cbn [length]; lia.
  - exact IH.
Qed.

(** The plain counters of a class stay whole numbers, and grow together
    by the sizes of the instances. *)
Lemma classUpdate_counts name cls ids a b :
  tp cls = ZtoQc a -> fn cls = ZtoQc b ->
  ∃ a' b',
    tp (foldl (classUpdate args predictionNp instanceNp name) cls ids) = ZtoQc a'
    ∧ fn (foldl (classUpdate args predictionNp instanceNp name) cls ids) = ZtoQc b'
    ∧ a <= a' ∧ b <= b'
    ∧ a' + b' = a + b + zsum (spec_instSize instanceNp <$> ids).
Proof.
  revert cls a b. induction ids as [|instId ids IH]; intros cls a b Ha Hb.
  - exists a, b. cbn. repeat split; try assumption; lia.
  - cbn [foldl].
    pose proof (spec_instTp_le instId) as Hle.
    destruct (IH (classUpdate args predictionNp instanceNp name cls instId)
                 (a + spec_instTp predictionNp instanceNp instId)
                 (b + (spec_instSize instanceNp instId
                       - spec_instTp predictionNp instanceNp instId)))
      as (a' & b' & Ha' & Hb' & Hage & Hbge & Hsum).
    + unfold classUpdate. cbn [tp addStats]. now rewrite Ha, ZtoQc_add.
    + unfold classUpdate. cbn [fn addStats]. now rewrite Hb, ZtoQc_add.
    + exists a', b'. rewrite fmap_cons, zsum_cons.
      split; [exact Ha'|]. split; [exact Hb'|]. lia.
Qed.

(** X9: when the instance accumulation succeeds, the counters [tp] and
    [fn] of every class stay whole numbers, neither decreases, and
    together they grow by exactly the number of pixels of the visited
    instances of the class (the counts being below 2^53, where the
    floats that hold them are exact). *)
Theorem accumulateInstances_counts s :
  same_shape instanceNp predictionNp = true ->
  Forall (instanceKnown labels args (classes (instanceStats s)))
         (instList instanceNp) ->
  ∃ s', accumulateInstances labels args predictionNp instanceNp s = (Ok tt, s')
        ∧ ∀ name cls a b,
            classes (instanceStats s) !! name = Some cls ->
            tp cls = ZtoQc a -> fn cls = ZtoQc b -> 0 <= a -> 0 <= b ->
            let ids := idsOfClass labels name (instList instanceNp) in
            a + b + zsum (spec_instSize instanceNp <$> ids) < 2 ^ 53 ->
            ∃ cls' a' b',
              classes (instanceStats s') !! name = Some cls'
              ∧ tp cls' = ZtoQc a' ∧ fn cls' = ZtoQc b'
              ∧ a <= a' ∧ b <= b'
              ∧ a' + b' = a + b + zsum (spec_instSize instanceNp <$> ids).
Proof.
  intros Hshape Hids.
  destruct (accumulateInstances_run labels args predictionNp instanceNp s Hshape Hids)
    as (s' & Hrun & _ & Hc & _ & _).
  exists s'. split; [exact Hrun|].
  intros name cls a b Hcls Ha Hb _ _ ids _.
  destruct (classUpdate_counts name cls ids a b Ha Hb) as (a' & b' & H).
  eexists. exists a', b'. split; [rewrite Hc, Hcls; reflexivity|exact H].
Qed.

End InstanceCounts.

Lemma accumulateInstances_counts_witness :
  ∃ s' cls' a' b',
    accumulateInstances demoLabels demoArgs carsPred carsInst demoInit = (Ok tt, s')
    ∧ classes (instanceStats s') !! "car"%string = Some cls'
    ∧ tp cls' = ZtoQc a' ∧ fn cls' = ZtoQc b'
    ∧ a' + b' = 3.
Proof.
  destruct (accumulateInstances_counts demoLabels demoArgs carsPred carsInst demoInit)
    as (s' & Hrun & Hw).
  - reflexivity.
  - change (instList carsInst) with [14001; 14002]. unfold instanceKnown.
    repeat (apply Forall_cons; split); [| |constructor];
      (exists (label.mk "car" 14 "vehicle" true false);
       split; [vm_compute; reflexivity
              |right; unfold is_Some; split; eexists; vm_compute; reflexivity]).
  - destruct (Hw "car"%string zeroStats 0 0) as (cls' & a' & b' & Hcls' & Ha & Hb & _ & _ & Hsum).
    + vm_compute. reflexivity.
    + reflexivity.
    + reflexivity.
    + lia.
    + lia.
    + vm_compute. reflexivity.
    + exists s', cls', a', b'. split; [exact Hrun|]. split; [exact Hcls'|].
      split; [exact Ha|]. split; [exact Hb|]. exact Hsum.
Defined.


Section Ratios.

Lemma ZtoQc_le a b : a <= b -> (ZtoQc a <= ZtoQc b)%Qc.
Proof.
  intros H. unfold Qcle, ZtoQc. cbn [this Q2Qc].
  rewrite !Qred_correct. unfold Qle. cbn. lia.
Qed.

Lemma ZtoQc_lt a b : a < b -> (ZtoQc a < ZtoQc b)%Qc.
Proof.
  intros H. unfold Qclt, ZtoQc. cbn [this Q2Qc].
  rewrite !Qred_correct. unfold Qlt. cbn. lia.
Qed.

Lemma ZtoQc_inj a b : ZtoQc a = ZtoQc b -> a = b.
Proof.
  intros H. apply Q2Qc_eq_iff in H. unfold Qeq in H. cbn in H. lia.
Qed.

(** A part over the whole lies between 0 and 1, and is 1 only when the
    part is the whole. *)
Lemma ratio_bounds (a d : Qc) :
  (0 <= a)%Qc -> (a <= d)%Qc -> (0 < d)%Qc ->
  (0 <= a / d)%Qc ∧ (a / d <= 1)%Qc ∧ ((a / d)%Qc = 1%Qc -> a = d).
Proof.
  intros Ha Had Hd.
  assert (Hnz : d ≠ 0%Qc) by (intros ->; now apply Qclt_not_eq in Hd).
  assert (Hmul : (a / d * d = a)%Qc) by (field; exact Hnz).
  split; [|split].
  - apply (Qcmult_lt_0_le_reg_r _ _ d Hd). rewrite Hmul, Qcmult_0_l. exact Ha.
  - apply (Qcmult_lt_0_le_reg_r _ _ d Hd). rewrite Hmul, Qcmult_1_l. exact Had.
  - intros H1. rewrite <- Hmul, H1. ring.
Qed.

End Ratios.

Section LabelBounds.

Variable labels : list Label.



End LabelBounds.


Section Shares.

Lemma ratio_zero (a d : Qc) : d ≠ 0%Qc -> (a / d)%Qc = 0%Qc ↔ a = 0%Qc.
Proof.
  intros Hd. split.
  - intros H. replace a with (a / d * d)%Qc by (field; exact Hd).
    rewrite H. ring.
  - intros ->. field. exact Hd.
Qed.

(** A count [x] out of [total > 0]: the quotient is between 0 and 1, it
    is 0 only for no count and 1 only for all of them. *)
Lemma share_cases (x total : Z) :
  0 <= x <= total -> 0 < total ->
  (0 <= ZtoQc x / ZtoQc total)%Qc ∧ (ZtoQc x / ZtoQc total <= 1)%Qc
  ∧ ((ZtoQc x / ZtoQc total)%Qc = 0%Qc ↔ x = 0)
  ∧ ((ZtoQc x / ZtoQc total)%Qc = 1%Qc ↔ x = total).
Proof.
  intros Hx Ht.
  assert (Hnz : ZtoQc total ≠ 0%Qc) by (apply ZtoQc_nonzero; lia).
  destruct (ratio_bounds (ZtoQc x) (ZtoQc total)) as (H0 & H1 & Heq).
  { change 0%Qc with (ZtoQc 0). apply ZtoQc_le. lia. }
  { apply ZtoQc_le. lia. }
  { change 0%Qc with (ZtoQc 0). apply ZtoQc_lt. lia. }
  split; [exact H0|]. split; [exact H1|]. split; [|split].
  - rewrite (ratio_zero _ _ Hnz). split.
    + intros H. change 0%Qc with (ZtoQc 0) in H. now apply ZtoQc_inj in H.
    + intros ->. reflexivity.
  - intros H. apply Heq in H. now apply ZtoQc_inj in H.
  - intros ->. field. exact Hnz.
Qed.

(** X11: with [args.normalized], every value of a row of the confusion
    matrix without a count is NaN; in a row with counts (fewer than
    2^53, so that they are binary64 values) each value is the cell as a
    share of the row, a number between 0 and 1 that is 0 exactly for a
    cell without count and 1 exactly for the cell that holds the whole
    row. *)
Theorem getMatrixFieldValue_normalized n m i j :
  square_counts n m -> 0 <= i < Z.of_nat n -> 0 <= j < Z.of_nat n ->
  row_sum m i < 2 ^ 53 ->
  if row_sum m i =? 0
  then getMatrixFieldValue m i j true = Ok NaN
  else ∃ q, getMatrixFieldValue m i j true = Ok (Num q)
            ∧ q = (ZtoQc (matrix_at m i j) / ZtoQc (row_sum m i))%Qc
            ∧ (0 <= q)%Qc ∧ (q <= 1)%Qc
            ∧ (q = 0%Qc ↔ matrix_at m i j = 0)
            ∧ (q = 1%Qc ↔ matrix_at m i j = row_sum m i).
Proof.
  intros Hm Hi Hj Hsum.
  destruct (square_counts_row n m i Hm Hi) as (row & Hrow & Hlen & Hpos).
  assert (Hget : getitem m i = Ok row).
  { rewrite getitem_nonneg by (destruct Hm as [-> _]; exact Hi). now rewrite Hrow. }
  assert (Hrs : row_sum m i = zsum row) by (unfold row_sum; now rewrite Hrow).
  pose proof (zsum_nonneg row Hpos) as H0.
  assert (Hu : u64sum row = zsum row) by (apply wrap_u64_small; lia).
  destruct (getitem2_matrix_at n m i j Hm Hi Hj) as [Hcell Hbound].
  unfold getMatrixFieldValue. rewrite Hget. cbn [mbind outcome_bind].
  rewrite Hu, <- Hrs.
  destruct (Z.eqb_spec (row_sum m i) 0) as [Hz|Hz]; [reflexivity|].
  rewrite Hcell. cbn [mbind outcome_bind]. unfold ndiv.
  rewrite Qc_is_zero_ZtoQc.
  destruct (Z.eqb_spec (row_sum m i) 0) as [|_]; [contradiction|].
  eexists. split; [reflexivity|]. split; [reflexivity|].
  apply share_cases; lia.
Qed.

(** X12: on a confusion matrix without any count the prior of every row
    is nan, and nothing is raised; on a matrix with counts (fewer than
    2^53) the prior of a row is its share of the counts, a number
    between 0 and 1 that is 0 exactly for a row without count and 1
    exactly for the row that holds every count. *)
Theorem getPrior_shares n m lbl :
  square_counts n m -> 0 <= lbl < Z.of_nat n -> matrix_total m < 2 ^ 53 ->
  if matrix_total m =? 0
  then getPrior lbl m = Ok FNaN
  else ∃ q, getPrior lbl m = Ok (FNum q)
            ∧ q = (ZtoQc (row_sum m lbl) / ZtoQc (matrix_total m))%Qc
            ∧ (0 <= q)%Qc ∧ (q <= 1)%Qc
            ∧ (q = 0%Qc ↔ row_sum m lbl = 0)
            ∧ (q = 1%Qc ↔ row_sum m lbl = matrix_total m).
Proof.
  intros Hm Hl Htot.
  pose proof (matrix_total_nonneg n m Hm) as H0.
  assert (Hms : matrix_sum m = matrix_total m) by (apply wrap_u64_small; lia).
  destruct (square_counts_row n m lbl Hm Hl) as (row & Hrow & _ & Hpos).
  assert (Hget : getitem m lbl = Ok row).
  { rewrite getitem_nonneg by (destruct Hm as [-> _]; exact Hl). now rewrite Hrow. }
  assert (Hrs : row_sum m lbl = zsum row) by (unfold row_sum; now rewrite Hrow).
  pose proof (zsum_nonneg row Hpos) as Hr0.
  pose proof (matrix_total_row_le n m _ row Hm Hrow) as Hle.
  assert (Hu : u64sum row = zsum row) by (apply wrap_u64_small; lia).
  unfold getPrior. rewrite Hget. cbn [mbind outcome_bind].
  rewrite Hu, Hms, <- Hrs. unfold np_divide.
  destruct (Z.eqb_spec (matrix_total m) 0) as [Hz|Hz].
  - replace (row_sum m lbl) with 0 by lia. reflexivity.
  - eexists. split; [reflexivity|]. split; [reflexivity|].
    apply share_cases; lia.
Qed.

End Shares.

Lemma getMatrixFieldValue_normalized_witness :
  ∃ q, getMatrixFieldValue demoMatrix 7 8 true = Ok (Num q)
       ∧ q = (ZtoQc (matrix_at demoMatrix 7 8) / ZtoQc (row_sum demoMatrix 7))%Qc
       ∧ (0 <= q)%Qc ∧ (q <= 1)%Qc
       ∧ (q = 0%Qc ↔ matrix_at demoMatrix 7 8 = 0)
       ∧ (q = 1%Qc ↔ matrix_at demoMatrix 7 8 = row_sum demoMatrix 7).
Proof.
  apply (getMatrixFieldValue_normalized 15 demoMatrix 7 8).
  - unfold square_counts. apply (bool_decide_unpack _). vm_compute. exact I.
  - lia.
  - lia.
  - vm_compute. reflexivity.
Defined.

Lemma getPrior_shares_witness :
  ∃ q, getPrior 7 demoMatrix = Ok (FNum q)
       ∧ q = (ZtoQc (row_sum demoMatrix 7) / ZtoQc (matrix_total demoMatrix))%Qc
       ∧ (0 <= q)%Qc ∧ (q <= 1)%Qc
       ∧ (q = 0%Qc ↔ row_sum demoMatrix 7 = 0)
       ∧ (q = 1%Qc ↔ row_sum demoMatrix 7 = matrix_total demoMatrix).
Proof.
  apply (getPrior_shares 15 demoMatrix 7).
  - unfold square_counts. apply (bool_decide_unpack _). vm_compute. exact I.
  - lia.
  - vm_compute. reflexivity.
Defined.


Section InstanceScores.

Variable labels : list Label.

Lemma id2label_fold_id (ls : list Label) (m : gmap Z Label) i lab :
  foldl (fun m l => <[label.id l := l]> m) m ls !! i = Some lab ->
  label.id lab = i ∨ m !! i = Some lab.
Proof.
  revert m. induction ls as [|l ls IH]; intros m H; cbn in H; [now right|].
  apply IH in H as [H|H]; [now left|].
  apply lookup_insert_Some in H as [[Hi Hl]|[_ H]]; [left; congruence|now right].
Qed.

(** A label is filed under its own id. *)
Lemma id2label_id i lab : id2label labels !! i = Some lab -> label.id lab = i.
Proof.
  intros H. apply id2label_fold_id in H as [H|H]; [exact H|].
  rewrite lookup_empty in H. discriminate.
Qed.

(** X13: the instance-level IoU score of an evaluated label is
    undefined for a label that is ignored or has no instances; for the
    others it is the weighted true positives over the sum of the weighted
    true positives, the pixel-level false positives and the weighted
    false negatives, undefined when this sum is zero, and comes with the
    weighted ground-truth size as its weight. *)
Theorem getInstanceIouScoreForLabel_cases args n m instStats lbl lab :
  NoDup (label.name <$> labels) ->
  (∀ name, is_Some (classes instStats !! name)
           ↔ is_Some (classes (generateInstanceStats labels) !! name)) ->
  id2label labels !! lbl = Some lab ->
  lbl ∈ evalLabels args ->
  evalLabels_indexed labels args n ->
  square_counts n m ->
  spec_fp labels args m lbl < 2 ^ 63 ->
  if label.ignoreInEval lab || negb (label.hasInstances lab)
  then getInstanceIouScoreForLabel labels lbl m instStats args = Ok (NaN, NaN)
  else ∃ cls, classes instStats !! label.name lab = Some cls
         ∧ let denom := (tpWeighted cls + ZtoQc (spec_fp labels args m lbl)
                         + fnWeighted cls)%Qc in
           getInstanceIouScoreForLabel labels lbl m instStats args
           = if Qc_is_zero denom then Ok (NaN, NaN)
             else Ok (Num (tpWeighted cls / denom)%Qc,
                      Num (tpWeighted cls + fnWeighted cls)%Qc).
Proof.
  intros Hnd Hkeys Hlab Hin Hidx Hm Hbound.
  unfold getInstanceIouScoreForLabel.
  rewrite (lookupLabel_Some labels lbl lab Hlab). cbn.
  destruct (label.ignoreInEval lab) eqn:Hign; [reflexivity|].
  destruct (label.hasInstances lab) eqn:Hinst; cbn [orb negb].
  - assert (Hsome : is_Some (classes instStats !! label.name lab)).
    { apply Hkeys. unfold generateInstanceStats. cbn [classes].
      rewrite classes_fold_lookup.
      replace (existsb _ labels) with true; [eauto|].
      symmetry. apply existsb_exists. exists lab. split.
      - apply list_elem_of_In. eapply id2label_elem, Hlab.
      - rewrite Hinst, Hign. now rewrite bool_decide_eq_true_2. }
    destruct Hsome as [cls Hcls]. exists cls. split; [exact Hcls|].
    rewrite Hcls. cbv zeta.
    rewrite (notIgnoredExcept_filter labels args n lbl Hidx). cbn.
    assert (Hl : 0 <= lbl < Z.of_nat n).
    { unfold evalLabels_indexed in Hidx. rewrite Forall_forall in Hidx.
      now apply Hidx. }
    unfold spec_fp in *.
    set (rs := List.filter _ (evalLabels args)) in *.
    assert (Hrs : Forall (fun r => 0 <= r < Z.of_nat n) rs).
    { apply Forall_forall. intros r Hr.
      apply list_elem_of_In, filter_In in Hr as [Hr _]. apply list_elem_of_In in Hr.
      unfold evalLabels_indexed in Hidx. rewrite Forall_forall in Hidx.
      now apply Hidx. }
    destruct (mapM_column n m lbl rs Hm Hl Hrs) as [Hcol Hpos].
    rewrite Hcol. cbn. unfold u64sum.
    rewrite longlong_u64_small by lia. reflexivity.
  - destruct (classes instStats !! label.name lab) as [cls|] eqn:Hcls;
      [|reflexivity].
    exfalso.
    destruct (generateInstanceStats_class labels (label.name lab)) as (l & Hl & Hn & Hi & _).
    { apply Hkeys. eauto. }
    assert (l = lab).
    { apply (unique_names labels l lab Hnd Hl); [|exact Hn].
      eapply id2label_elem, Hlab. }
    congruence.
Qed.

End InstanceScores.

Lemma getInstanceIouScoreForLabel_cases_witness :
  ∃ cls, classes (generateInstanceStats demoLabels) !! "car"%string = Some cls
    ∧ let denom := (tpWeighted cls + ZtoQc (spec_fp demoLabels demoArgs demoMatrix 14)
                    + fnWeighted cls)%Qc in
      getInstanceIouScoreForLabel demoLabels 14 demoMatrix
        (generateInstanceStats demoLabels) demoArgs
      = if Qc_is_zero denom then Ok (NaN, NaN)
        else Ok (Num (tpWeighted cls / denom)%Qc,
                 Num (tpWeighted cls + fnWeighted cls)%Qc).
Proof.
  apply (getInstanceIouScoreForLabel_cases demoLabels demoArgs 15 demoMatrix
           (generateInstanceStats demoLabels) 14
           (label.mk "car" 14 "vehicle" true false)).
  - apply (bool_decide_unpack _). vm_compute. exact I.
  - intros name. reflexivity.
  - vm_compute. reflexivity.
  - apply (bool_decide_unpack _). vm_compute. exact I.
  - unfold evalLabels_indexed. apply (bool_decide_unpack _). vm_compute. exact I.
  - unfold square_counts. apply (bool_decide_unpack _). vm_compute. exact I.
  - vm_compute. reflexivity.
Defined.


Section CategoryScores.

Variable labels : list Label.

Lemma unique_ids (l1 l2 : Label) :
  NoDup (label.id <$> labels) -> l1 ∈ labels -> l2 ∈ labels ->
  label.id l1 = label.id l2 -> l1 = l2.
Proof.
  induction labels as [|l ls IH]; intros Hnd H1 H2 Hn; [inversion H1|].
  cbn in Hnd. apply NoDup_cons in Hnd as [Hnotin Hnd].
  apply elem_of_cons in H1 as [->|H1]; apply elem_of_cons in H2 as [->|H2].
  - reflexivity.
  - exfalso. apply Hnotin. rewrite Hn. apply list_elem_of_fmap. eauto.
  - exfalso. apply Hnotin. rewrite <- Hn. apply list_elem_of_fmap. eauto.
  - now apply IH.
Qed.

Lemma submatrixSum_column n m rs l :
  square_counts n m -> 0 <= l < Z.of_nat n ->
  Forall (fun r => 0 <= r < Z.of_nat n) rs ->
  submatrixSum m rs [l] = Ok (u64sum ((fun r => matrix_at m r l) <$> rs)).
Proof.
  intros Hm Hl Hrs. unfold submatrixSum.
  assert (H : ∃ rows, mapM (getitem m) rs = Ok rows
                ∧ mapM (fun row => mapM (getitem row) [l]) rows
                  = Ok ((fun r => [matrix_at m r l]) <$> rs)).
  { induction Hrs as [|r rs Hr _ IH]; [exists []; split; reflexivity|].
    destruct IH as (rows & Hrows & Hcells).
    destruct (square_counts_row n m r Hm Hr) as (row & Hrow & Hlen & _).
    destruct (getitem2_matrix_at n m r l Hm Hr Hl) as [Hcell _].
    assert (Hget : getitem m r = Ok row).
    { rewrite getitem_nonneg by (destruct Hm as [-> _]; exact Hr). now rewrite Hrow. }
    unfold getitem2 in Hcell. rewrite Hget in Hcell. cbn in Hcell.
    exists (row :: rows). split.
    - cbn [mapM]. rewrite Hget. cbn. now rewrite Hrows.
    - cbn in Hcells |- *. rewrite Hcell. cbn. rewrite Hcells. reflexivity. }
  destruct H as (rows & -> & Hcells). cbn in Hcells |- *. rewrite Hcells. cbn.
  do 2 f_equal. clear. induction rs as [|r rs IH]; [reflexivity|].
  cbn. now rewrite IH.
Qed.

(** X14: for a category with exactly one valid label (not ignored and
    evaluated), the IoU score of the category and its weight are those
    of that label, the label ids of the table being pairwise
    different. *)
Theorem getIouScoreForCategory_single_label args n m category members l :
  NoDup (label.id <$> labels) ->
  category2labels labels !! category = Some members ->
  validLabelIds args members = [l] ->
  evalLabels_indexed labels args n ->
  square_counts n m ->
  spec_gt m l + spec_fp labels args m l < 2 ^ 63 ->
  getIouScoreForCategory labels category m args
  = getIouScoreForLabel labels l m args.
Proof.
  intros Hnd Hcat Hvalid Hidx Hm Hbound.
  (* the one valid member *)
  assert (Hmem : ∀ x, x ∈ members ↔ x ∈ labels ∧ label.category x = category).
  { intros x. rewrite category2labels_members in Hcat.
    destruct (List.filter _ labels) as [|y ys] eqn:Hf; [discriminate|].
    injection Hcat as <-. rewrite <- Hf.
    rewrite list_elem_of_In, filter_In, <- list_elem_of_In.
    now rewrite bool_decide_eq_true. }
  assert (Hvalid_iff : ∀ x, x ∈ validLabelIds args members
                           ↔ ∃ mem, mem ∈ members ∧ label.id mem = x
                                    ∧ label.ignoreInEval mem = false
                                    ∧ x ∈ evalLabels args).
  { intros x. unfold validLabelIds. rewrite list_elem_of_fmap. split.
    - intros (mem & -> & H). apply list_elem_of_In, filter_In in H as [H Hp].
      apply andb_true_iff in Hp as [Hp1 Hp2].
      apply negb_true_iff in Hp1. apply bool_decide_eq_true in Hp2.
      exists mem. split; [now apply list_elem_of_In|auto].
    - intros (mem & Hin & <- & Hign & Hev). exists mem. split; [reflexivity|].
      apply list_elem_of_In, filter_In. split; [now apply list_elem_of_In|].
      rewrite Hign. cbn. now apply bool_decide_eq_true. }
  destruct (proj1 (Hvalid_iff l)) as (mem & Hmin & Hmid & Hmign & Hev).
  { rewrite Hvalid. apply elem_of_cons. now left. }
  apply Hmem in Hmin as [Hmlab Hmcat].
  assert (Hlab : id2label labels !! l = Some mem).
  { destruct (id2label_complete labels mem Hmlab) as [lab' Hlab'].
    rewrite Hmid in Hlab'. rewrite Hlab'. f_equal.
    apply (unique_ids lab' mem Hnd); [eapply id2label_elem, Hlab'|exact Hmlab|].
    rewrite Hmid. eapply id2label_id, Hlab'. }
  assert (Hl : 0 <= l < Z.of_nat n).
  { unfold evalLabels_indexed in Hidx. rewrite Forall_forall in Hidx. now apply Hidx. }
  (* the rows of the other categories are the rows of the other labels *)
  assert (Hothers : notIgnoredAndNotInCategory labels args category
                    = Ok (List.filter (fun r => negb (ignoredId labels r) && negb (r =? l))
                                      (evalLabels args))).
  { unfold notIgnoredAndNotInCategory.
    rewrite (filterM_known labels
               (fun lab => negb (label.ignoreInEval lab)
                           && negb (bool_decide (label.category lab = category)))).
    2:{ eapply Forall_impl; [exact Hidx|]. intros r [Hr _]. exact Hr. }
    f_equal. apply filter_ext_in. intros r Hr. apply list_elem_of_In in Hr.
    unfold ignoredId.
    destruct (id2label labels !! r) as [lab|] eqn:Hr'.
    2:{ unfold evalLabels_indexed in Hidx. rewrite Forall_forall in Hidx.
        destruct (Hidx r Hr) as [[? Hs] _]. congruence. }
    destruct (label.ignoreInEval lab) eqn:Hign; [reflexivity|]. cbn. f_equal.
    destruct (Z.eqb_spec r l) as [->|Hne].
    - apply bool_decide_eq_true. congruence.
    - apply bool_decide_eq_false. intros Hc. apply Hne.
      assert (Hin : r ∈ validLabelIds args members).
      { apply Hvalid_iff. exists lab. split; [|split; [|split]]; auto.
        - apply Hmem. split; [eapply id2label_elem, Hr'|exact Hc].
        - eapply id2label_id, Hr'. }
      rewrite Hvalid in Hin. apply elem_of_cons in Hin as [Hin|Hin]; [exact Hin|inversion Hin]. }
  (* the score of the label *)
  rewrite (getIouScoreForLabel_run labels args n m l mem Hev Hlab Hmign Hidx Hm Hbound).
  cbv zeta.
  (* the score of the category *)
  destruct (getitem2_matrix_at n m l l Hm Hl Hl) as [_ Htp].
  destruct (square_counts_row n m l Hm Hl) as (row & Hrow & Hlen & Hpos).
  assert (Hget : getitem m l = Ok row).
  { rewrite getitem_nonneg by (destruct Hm as [-> _]; exact Hl). now rewrite Hrow. }
  assert (Hrs : row_sum m l = zsum row) by (unfold row_sum; now rewrite Hrow).
  assert (Hrows : Forall (fun r => 0 <= r < Z.of_nat n)
            (List.filter (fun r => negb (ignoredId labels r) && negb (r =? l))
                         (evalLabels args))).
  { apply Forall_forall. intros r Hr. apply list_elem_of_In, filter_In in Hr.
    destruct Hr as [Hr _]. unfold evalLabels_indexed in Hidx.
    rewrite Forall_forall in Hidx. apply (Hidx r). now apply list_elem_of_In. }
  destruct (mapM_column n m l _ Hm Hl Hrows) as [_ Hfp].
  fold (spec_fp labels args m l) in Hfp.
  unfold getIouScoreForCategory. rewrite Hcat. cbn [from_option]. cbn [mbind outcome_bind].
  rewrite Hvalid.
  rewrite (submatrixSum_column n m [l] l Hm Hl) by (constructor; [exact Hl|constructor]).
  cbn [mbind outcome_bind].
  unfold rowsSum. cbn [mapM]. rewrite Hget. cbn [mbind outcome_bind mret outcome_ret concat].
  rewrite app_nil_r, Hothers. cbn [mbind outcome_bind].
  rewrite (submatrixSum_column n m _ l Hm Hl Hrows). cbn [mbind outcome_bind].
  unfold u64sum. fold (spec_fp labels args m l).
  unfold spec_gt, spec_fn, spec_tp, spec_gt in *.
  rewrite Hrs in *.
  cbn [fmap list_fmap]. rewrite zsum_cons. cbn [zsum foldr]. rewrite Z.add_0_r.
  set (tp := matrix_at m l l) in *. set (fp := spec_fp labels args m l) in *.
  set (gt := zsum row) in *.
  rewrite !longlong_u64_small by lia.
  rewrite (wrap_i64_small (gt - tp)) by lia.
  rewrite (wrap_i64_small (tp + fp)) by lia.
  rewrite (wrap_i64_small (tp + fp + (gt - tp))) by lia.
  rewrite (wrap_i64_small (tp + (gt - tp))) by lia.
  destruct (Z.eqb_spec (tp + fp + (gt - tp)) 0) as [Hz|Hz]; [reflexivity|].
  unfold ndiv. rewrite Qc_is_zero_ZtoQc.
  destruct (Z.eqb_spec (tp + fp + (gt - tp)) 0) as [|_]; [lia|].
  replace (tp + (gt - tp)) with gt by lia. reflexivity.
Qed.

End CategoryScores.

Lemma getIouScoreForCategory_single_label_witness :
  getIouScoreForCategory demoLabels "vehicle" demoMatrix demoArgs
  = getIouScoreForLabel demoLabels 14 demoMatrix demoArgs.
Proof.
  apply (getIouScoreForCategory_single_label demoLabels demoArgs 15 demoMatrix
           "vehicle"
           [label.mk "car" 14 "vehicle" true false;
            label.mk "license plate" (-1) "vehicle" false true] 14).
  - apply (bool_decide_unpack _). vm_compute. exact I.
  - vm_compute. reflexivity.
  - vm_compute. reflexivity.
  - unfold evalLabels_indexed. apply (bool_decide_unpack _). vm_compute. exact I.
  - unfold square_counts. apply (bool_decide_unpack _). vm_compute. exact I.
  - vm_compute. reflexivity.
Defined.


Section PixelOrder.

Lemma matrix_ext n (m m' : Matrix) :
  square_counts n m -> square_counts n m' ->
  (∀ i j, 0 <= i -> 0 <= j -> matrix_at m i j = matrix_at m' i j) ->
  m = m'.
Proof.
  intros [Hlen Hrows] [Hlen' Hrows'] Hat.
  apply list_eq_same_length with n; [exact Hlen'|exact Hlen|].
  intros k row row' Hk Hrow Hrow'.
  rewrite Forall_forall in Hrows, Hrows'.
  destruct (Hrows row) as [Hl _]; [eapply list_elem_of_lookup_2, Hrow|].
  destruct (Hrows' row') as [Hl' _]; [eapply list_elem_of_lookup_2, Hrow'|].
  apply list_eq_same_length with n; [exact Hl'|exact Hl|].
  intros j x x' Hj Hx Hx'.
  specialize (Hat (Z.of_nat k) (Z.of_nat j) ltac:(lia) ltac:(lia)).
  unfold matrix_at in Hat. rewrite !Nat2Z.id, Hrow, Hrow' in Hat. cbn in Hat.
  rewrite Hx, Hx' in Hat. exact Hat.
Qed.

Lemma countCell_Permutation n i j (pxs pxs' : list (Z * Z)) :
  pxs ≡ₚ pxs' -> countCell n i j pxs = countCell n i j pxs'.
Proof.
  intros H. unfold countCell. f_equal.
  induction H as [|x l l' _ IH|x y l|l l' l'' _ IH1 _ IH2]; cbn.
  - reflexivity.
  - destruct (_ && _); cbn; now rewrite IH.
  - destruct (_ && _), (_ && _); reflexivity.
  - congruence.
Qed.

(** X15: the confusion matrix that the pixel loop leaves does not depend
    on the order in which the pixels are visited: two lists of countable
    pixels that are permutations of each other give the same matrix. *)
Theorem accumulatePixels_order args n (pxs pxs' : list (Z * Z)) s :
  square_counts n (confMatrix s) ->
  evalLabels_in_range args n ->
  Forall (fun gp => gp.1 ∈ evalLabels args ∧ is_Some (np_index n gp.2)) pxs ->
  matrix_total (confMatrix s) + Z.of_nat (length pxs) < 2 ^ 64 ->
  pxs ≡ₚ pxs' ->
  ∃ m', accumulatePixels args pxs s = (Ok tt, set_confMatrix m' s)
        ∧ accumulatePixels args pxs' s = (Ok tt, set_confMatrix m' s).
Proof.
  intros Hm Hrange Hpx Hbound Hperm.
  destruct (accumulatePixels_cells args n pxs s Hm Hrange Hpx Hbound)
    as (m1 & Hrun1 & Hsq1 & Hc1).
  destruct (accumulatePixels_cells args n pxs' s Hm Hrange)
    as (m2 & Hrun2 & Hsq2 & Hc2).
  { rewrite Forall_forall in Hpx |- *. intros x Hx. apply Hpx. now rewrite Hperm. }
  { now rewrite <- (Permutation_length Hperm). }
  exists m1. split; [exact Hrun1|].
  rewrite Hrun2. do 2 f_equal. symmetry.
  apply (matrix_ext n m1 m2 Hsq1 Hsq2). intros i j Hi Hj.
  rewrite Hc1, Hc2 by assumption.
  now rewrite (countCell_Permutation n i j pxs pxs' Hperm).
Qed.

End PixelOrder.

Section PerImageEntries.

Variable labels : list Label.

Lemma count_nonzero_bounds (mask other : list bool) :
  0 <= count_nonzero (zip_with andb mask other) <= count_nonzero mask
  ∧ count_nonzero mask <= Z.of_nat (length mask).
Proof.
  unfold count_nonzero. revert other.
  induction mask as [|b mask IH]; intros other; [cbn; lia|].
  destruct other as [|o other].
  - specialize (IH []). destruct b; cbn [zip_with List.filter length] in *; lia.
  - specialize (IH other).
    destruct b, o; cbn [zip_with andb List.filter length] in *; lia.
Qed.

(** X16: the pixel-accuracy block never fails on known labels; it writes
    the entry of the prediction file and leaves the other entries, and
    in the entry [nbCorrectPixels] is between 0 and
    [nbNotIgnoredPixels], which is at most the number of ground-truth
    pixels. *)
Theorem accumulatePixelAccuracy_entry args predictionImgFileName
    predictionNp groundTruthNp s :
  Forall (fun r => is_Some (id2label labels !! r)) (evalLabels args) ->
  ∃ entry,
    accumulatePixelAccuracy labels args predictionImgFileName predictionNp
      groundTruthNp s
    = (Ok tt, set_perImageStats
                (<[predictionImgFileName := entry]> (perImageStats s)) s)
    ∧ 0 <= nbCorrectPixels entry <= nbNotIgnoredPixels entry
    ∧ nbNotIgnoredPixels entry <= Z.of_nat (length (pixels groundTruthNp)).
Proof.
  intros Hknown. unfold accumulatePixelAccuracy.
  rewrite run_bind. unfold lift at 1.
  rewrite (filterM_known labels (fun lab => negb (label.ignoreInEval lab)) _ Hknown).
  rewrite run_bind. unfold get at 1. unfold modify.
  eexists. split; [reflexivity|]. cbn [nbCorrectPixels nbNotIgnoredPixels].
  match goal with
  | |- context [count_nonzero (zip_with andb ?a ?b)] =>
      pose proof (count_nonzero_bounds a b) as [H1 H2]
  end.
  rewrite length_fmap in H2. split; [exact H1|exact H2].
Qed.

End PerImageEntries.

Lemma accumulatePixels_order_witness :
  ∃ m', accumulatePixels demoArgs [(7, 8); (8, 8); (7, 7)] demoInit
        = (Ok tt, set_confMatrix m' demoInit)
        ∧ accumulatePixels demoArgs [(7, 7); (7, 8); (8, 8)] demoInit
          = (Ok tt, set_confMatrix m' demoInit).
Proof.
  apply (accumulatePixels_order demoArgs 15).
  - unfold square_counts. apply (bool_decide_unpack _). vm_compute. exact I.
  - unfold evalLabels_in_range. apply (bool_decide_unpack _). vm_compute. exact I.
  - apply (bool_decide_unpack _). vm_compute. exact I.
  - vm_compute. reflexivity.
  - apply (bool_decide_unpack _). vm_compute. exact I.
Defined.

Lemma accumulatePixelAccuracy_entry_witness :
  ∃ entry,
    accumulatePixelAccuracy demoLabels demoArgs "prediction.png" accuracyPred
      accuracyGt demoInit
    = (Ok tt, set_perImageStats
                (<["prediction.png"%string := entry]> (perImageStats demoInit)) demoInit)
    ∧ 0 <= nbCorrectPixels entry <= nbNotIgnoredPixels entry
    ∧ nbNotIgnoredPixels entry <= Z.of_nat (length (pixels accuracyGt)).
Proof.
  apply (accumulatePixelAccuracy_entry demoLabels demoArgs).
  apply (bool_decide_unpack _). vm_compute. exact I.
Defined.


Section ArgSort.

Variable key : nat -> Z.

Lemma insert_by_Permutation i l : insert_by key i l ≡ₚ i :: l.
Proof.
  induction l as [|j l IH]; cbn [insert_by]; [reflexivity|].
  destruct (key j <=? key i); [|reflexivity].
  rewrite IH. apply perm_swap.
Qed.

Lemma insert_by_sorted i l :
  StronglySorted (fun a b => key a <= key b) l ->
  StronglySorted (fun a b => key a <= key b) (insert_by key i l).
Proof.
  induction l as [|j l IH]; intros H; cbn [insert_by].
  - constructor; constructor.
  - apply StronglySorted_inv in H as [Hl Hj].
    destruct (Z.leb_spec (key j) (key i)) as [Hle|Hlt].
    + constructor; [now apply IH|].
      rewrite insert_by_Permutation. constructor; assumption.
    + constructor; [constructor; assumption|].
      constructor; [lia|].
      eapply Forall_impl; [exact Hj|]. intros x Hx. cbv beta in Hx. lia.
Qed.

Lemma insert_all_sorted (idxs acc : list nat) :
  StronglySorted (fun a b => key a <= key b) acc ->
  StronglySorted (fun a b => key a <= key b)
    (foldl (fun acc i => insert_by key i acc) acc idxs)
  ∧ foldl (fun acc i => insert_by key i acc) acc idxs ≡ₚ acc ++ idxs.
Proof.
  revert acc. induction idxs as [|i idxs IH]; intros acc H; cbn [foldl].
  - split; [exact H|now rewrite app_nil_r].
  - destruct (IH (insert_by key i acc) (insert_by_sorted i acc H)) as [Hs Hp].
    split; [exact Hs|]. rewrite Hp, insert_by_Permutation.
    cbn [app]. apply Permutation_middle.
Qed.

End ArgSort.

Section Descending.

Context {A : Type}.

Lemma StronglySorted_snoc (R : A -> A -> Prop) l x :
  StronglySorted R l -> Forall (fun y => R y x) l -> StronglySorted R (l ++ [x]).
Proof.
  induction l as [|a l IH]; intros Hs Hx; cbn.
  - constructor; constructor.
  - apply StronglySorted_inv in Hs as [Hs Ha].
    apply Forall_cons in Hx as [Hax Hx].
    constructor; [now apply IH|].
    apply Forall_app. split; [exact Ha|]. constructor; [exact Hax|constructor].
Qed.

Lemma StronglySorted_rev (R : A -> A -> Prop) l :
  StronglySorted R l -> StronglySorted (fun a b => R b a) (rev l).
Proof.
  induction l as [|a l IH]; intros Hs; cbn [rev]; [constructor|].
  apply StronglySorted_inv in Hs as [Hs Ha].
  apply StronglySorted_snoc; [now apply IH|].
  apply Forall_forall. intros y Hy. rewrite Forall_forall in Ha.
  apply Ha. apply list_elem_of_In. apply in_rev. now apply list_elem_of_In.
Qed.

Lemma StronglySorted_filter (R : A -> A -> Prop) (p : A -> bool) l :
  StronglySorted R l -> StronglySorted R (List.filter p l).
Proof.
  induction l as [|a l IH]; intros Hs; cbn [List.filter]; [constructor|].
  apply StronglySorted_inv in Hs as [Hs Ha].
  destruct (p a); [|now apply IH].
  constructor; [now apply IH|].
  apply Forall_forall. intros y Hy. rewrite Forall_forall in Ha. apply Ha.
  apply list_elem_of_In, filter_In in Hy as [Hy _]. now apply list_elem_of_In.
Qed.

Lemma StronglySorted_map {B} (R : B -> B -> Prop) (f : A -> B) l :
  StronglySorted (fun a b => R (f a) (f b)) l -> StronglySorted R (f <$> l).
Proof.
  induction l as [|a l IH]; intros Hs; cbn; [constructor|].
  apply StronglySorted_inv in Hs as [Hs Ha].
  constructor; [now apply IH|]. apply Forall_fmap. exact Ha.
Qed.

End Descending.

Section Flattening.

Lemma concat_lookup n (m : Matrix) k :
  (0 < n)%nat -> Forall (fun row => length row = n) m ->
  concat m !! k = (m !! (k / n)%nat) ≫= (fun row => row !! (k mod n)%nat).
Proof.
  intros Hn Hm. revert k. induction Hm as [|row m Hrow _ IH]; intros k.
  - cbn. now rewrite !lookup_nil.
  - cbn [concat]. destruct (Nat.lt_ge_cases k n) as [Hlt|Hge].
    + rewrite lookup_app_l by lia.
      rewrite Nat.div_small, Nat.mod_small by lia. reflexivity.
    + rewrite lookup_app_r by lia. rewrite Hrow, IH.
      assert (Hd : (k / n)%nat = S ((k - n) / n)).
      { replace (S ((k - n) / n)) with ((k - n) / n + 1)%nat by lia.
        rewrite <- Nat.div_add by lia. f_equal. lia. }
      assert (Hmd : (k mod n)%nat = ((k - n) mod n)%nat).
      { rewrite <- (Nat.Div0.mod_add (k - n) 1 n). f_equal. lia. }
      rewrite Hd, Hmd. reflexivity.
Qed.

Lemma concat_length n (m : Matrix) :
  Forall (fun row => length row = n) m -> length (concat m) = (length m * n)%nat.
Proof.
  induction 1 as [|row m Hrow _ IH]; [reflexivity|].
  cbn [concat length]. rewrite length_app, IH, Hrow. lia.
Qed.

End Flattening.

Section TopMismatches.

Variable labels : list Label.

Lemma mismatchLoop_take n m total cells ct :
  square_counts n m ->
  (∀ r, 4 <= r < Z.of_nat n -> is_Some (id2label labels !! r)) ->
  Forall (fun rc => (rc.1 < n)%nat ∧ (rc.2 < n)%nat) cells ->
  0 <= ct <= 89 ->
  ∃ pairs, mismatchLoop labels m total cells ct = Ok pairs
    ∧ pixErrorCount <$> pairs
      = cellCount m
          <$> take (Z.to_nat (89 - ct))
                (List.filter
                   (fun '(r, c) =>
                      negb ((r =? c)%nat || (Z.of_nat r <? 4) || (Z.of_nat c <? 4)))
                   cells).
Proof.
  intros Hm Hknown Hcells. revert ct.
  induction Hcells as [|[r c] cells [Hr Hc] _ IH]; intros ct Hct.
  - exists []. split; [reflexivity|]. cbn [List.filter]. now rewrite take_nil.
  - cbn [mismatchLoop List.filter fst snd] in *.
    destruct ((r =? c)%nat || (Z.of_nat r <? 4) || (Z.of_nat c <? 4)) eqn:Hskip;
      cbn [negb]; [apply IH; exact Hct|].
    apply orb_false_iff in Hskip as [Hskip Hc4].
    apply orb_false_iff in Hskip as [_ Hr4].
    apply Z.ltb_ge in Hc4, Hr4.
    destruct (Z.eqb_spec (ct + 1) 90) as [E|E].
    + exists []. split; [reflexivity|].
      replace (89 - ct) with 0 by lia. reflexivity.
    + destruct (Hknown (Z.of_nat r)) as [lr Hlr]; [lia|].
      destruct (Hknown (Z.of_nat c)) as [lc Hlc]; [lia|].
      rewrite (lookupLabel_Some labels _ _ Hlr), (lookupLabel_Some labels _ _ Hlc).
      cbn [mbind outcome_bind].
      destruct (getitem2_matrix_at n m (Z.of_nat r) (Z.of_nat c) Hm) as [Hget _];
        [lia|lia|].
      rewrite Hget. cbn [mbind outcome_bind].
      destruct (IH (ct + 1)) as (more & Hmore & Hcounts); [lia|].
      rewrite Hmore. cbn [mbind outcome_bind mret outcome_ret].
      eexists. split; [reflexivity|].
      rewrite fmap_cons. cbn [pixErrorCount]. rewrite Hcounts.
      replace (Z.to_nat (89 - ct)) with (S (Z.to_nat (89 - (ct + 1)))) by lia.
      reflexivity.
Qed.

Lemma sorted2dArray_descending n m :
  square_counts n m ->
  Forall (fun rc => (rc.1 < n)%nat ∧ (rc.2 < n)%nat) (sorted2dArray m)
  ∧ StronglySorted (fun a b => cellCount m b <= cellCount m a) (sorted2dArray m)
  ∧ ∀ r c, (r < n)%nat -> (c < n)%nat -> (r, c) ∈ sorted2dArray m.
Proof.
  intros Hm.
  assert (Hrows : Forall (fun row => length row = n) m).
  { destruct Hm as [_ Hm]. eapply Forall_impl; [exact Hm|]. now intros row [H _]. }
  assert (Hlen : length m = n) by apply Hm.
  destruct n as [|n'].
  { destruct m; [|discriminate]. split; [constructor|]. split; [constructor|]. lia. }
  set (n := S n') in *.
  assert (Hncols : length (default [] (m !! 0%nat)) = n).
  { destruct m as [|row m]; [discriminate|]. cbn.
    apply Forall_cons in Hrows as [Hrow _]. exact Hrow. }
  unfold sorted2dArray. rewrite Hncols.
  set (key := fun k => default 0 (concat m !! k)).
  destruct (insert_all_sorted key (seq 0 (length (concat m))) [])
    as [Hsorted Hperm]; [constructor|].
  assert (Harg : argsort (concat m)
                 = foldl (fun acc i => insert_by key i acc) []
                         (seq 0 (length (concat m)))) by reflexivity.
  rewrite <- Harg in Hsorted, Hperm. cbn [app] in Hperm.
  assert (Hidx : ∀ k, k ∈ argsort (concat m) -> (k < n * n)%nat).
  { intros k Hk. rewrite Hperm in Hk. apply list_elem_of_In, in_seq in Hk.
    rewrite (concat_length n m Hrows), Hlen in Hk. lia. }
  assert (Hkey : ∀ k, (k < n * n)%nat ->
                   cellCount m ((k / n)%nat, (k mod n)%nat) = key k).
  { intros k Hk. unfold cellCount, key, matrix_at. cbn [fst snd].
    rewrite !Nat2Z.id, (concat_lookup n m k) by (unfold n; lia || exact Hrows).
    reflexivity. }
  split; [|split].
  - apply Forall_forall. intros rc Hrc.
    apply list_elem_of_In, in_rev, list_elem_of_In, list_elem_of_fmap in Hrc
      as (k & -> & Hk).
    apply Hidx in Hk. cbn [fst snd]. split.
    + apply Nat.Div0.div_lt_upper_bound. lia.
    + apply Nat.mod_upper_bound. unfold n. lia.
  - apply (StronglySorted_rev (fun a b => cellCount m a <= cellCount m b)).
    apply (StronglySorted_map (fun a b => cellCount m a <= cellCount m b)).
    assert (Hall : Forall (fun k => (k < n * n)%nat) (argsort (concat m)))
      by (apply Forall_forall; exact Hidx).
    clear Hperm Hidx Harg. revert Hsorted Hall.
    generalize (argsort (concat m)) as ks. intros ks Hsorted.
    induction Hsorted as [|k ks Hks IH Hk]; intros Hall; [constructor|].
    apply Forall_cons in Hall as [Hkn Hall].
    constructor; [now apply IH|].
    rewrite Forall_forall in Hk, Hall |- *. intros k' Hk'.
    cbv beta. rewrite (Hkey k Hkn), (Hkey k' (Hall k' Hk')). now apply Hk.
  - intros r c Hr Hc.
    apply list_elem_of_In, in_rev. rewrite rev_involutive. apply list_elem_of_In.
    apply list_elem_of_fmap. exists (c + r * n)%nat. split.
    + rewrite Nat.div_add, Nat.Div0.mod_add by (unfold n; lia).
      rewrite Nat.div_small, Nat.mod_small by lia. reflexivity.
    + rewrite Hperm. apply list_elem_of_In, in_seq.
      rewrite (concat_length n m Hrows), Hlen. nia.
Qed.

(** X17: on a square matrix of counts whose labels from 4 on are known,
    the global mismatch report succeeds and prints the counts of the
    first 89 eligible cells; the eligible cells hold every cell off the
    diagonal with both label ids at least 4, in descending order of
    count: no cell left out has more pixels than a printed one. *)
Theorem evaluateTrueVsOtherPixError_top n m total :
  square_counts n m ->
  (∀ r, 4 <= r < Z.of_nat n -> is_Some (id2label labels !! r)) ->
  ∃ pairs, evaluateTrueVsOtherPixError labels m total = Ok pairs
    ∧ pixErrorCount <$> pairs
      = cellCount m <$> take 89 (eligibleCells m)
    ∧ StronglySorted (fun a b => b <= a) (cellCount m <$> eligibleCells m)
    ∧ ∀ r c, (4 <= r < n)%nat -> (4 <= c < n)%nat -> r ≠ c ->
             (r, c) ∈ eligibleCells m.
Proof.
  intros Hm Hknown.
  destruct (sorted2dArray_descending n m Hm) as (Hcells & Hsorted & Hall).
  destruct (mismatchLoop_take n m total (sorted2dArray m) 0 Hm Hknown Hcells)
    as (pairs & Hrun & Hcounts); [lia|].
  exists pairs. split; [exact Hrun|]. split; [|split].
  - rewrite Hcounts. reflexivity.
  - apply StronglySorted_map. apply StronglySorted_filter. exact Hsorted.
  - intros r c Hr Hc Hne. unfold eligibleCells.
    apply list_elem_of_In, filter_In. split.
    + apply list_elem_of_In, Hall; lia.
    + destruct (Nat.eqb_spec r c) as [|_]; [contradiction|].
      destruct (Z.ltb_spec (Z.of_nat r) 4); [lia|].
      destruct (Z.ltb_spec (Z.of_nat c) 4); [lia|]. reflexivity.
Qed.

End TopMismatches.

Lemma evaluateTrueVsOtherPixError_top_witness :
  ∃ pairs, evaluateTrueVsOtherPixError demoLabels demoMatrix 194 = Ok pairs
    ∧ pixErrorCount <$> pairs
      = cellCount demoMatrix <$> take 89 (eligibleCells demoMatrix)
    ∧ StronglySorted (fun a b => b <= a)
        (cellCount demoMatrix <$> eligibleCells demoMatrix)
    ∧ ∀ r c, (4 <= r < 15)%nat -> (4 <= c < 15)%nat -> r ≠ c ->
             (r, c) ∈ eligibleCells demoMatrix.
Proof.
  apply (evaluateTrueVsOtherPixError_top demoLabels 15 demoMatrix 194).
  - unfold square_counts. apply (bool_decide_unpack _). vm_compute. exact I.
  - intros r Hr.
    assert (H : r ∈ seqZ 4 11) by (apply elem_of_seqZ; lia).
    clear Hr. revert r H. apply Forall_forall.
    apply (bool_decide_unpack _). vm_compute. exact I.
Defined.


Section TopConfusions.

Variable labels : list Label.

Lemma topConfusions_take n m total lbl labelPixelSum idxs ct :
  square_counts n m ->
  0 <= lbl < Z.of_nat n ->
  (∀ r, 0 <= r < Z.of_nat n -> is_Some (id2label labels !! r)) ->
  Forall (fun j => (j < n)%nat) idxs ->
  0 <= ct <= 4 ->
  ∃ entries, topConfusions labels m total lbl labelPixelSum idxs ct = Ok entries
    ∧ val <$> entries
      = (fun j => np_divide (ZtoQc (matrix_at m lbl (Z.of_nat j)) * ZtoQc 100)%Qc
                            labelPixelSum)
          <$> take (Z.to_nat (4 - ct))
                (List.filter (fun j => negb (Z.of_nat j =? lbl)) idxs).
Proof.
  intros Hm Hl Hknown Hidx. revert ct.
  induction Hidx as [|j idxs Hj _ IH]; intros ct Hct.
  - exists []. split; [reflexivity|]. cbn [List.filter]. now rewrite take_nil.
  - cbn [topConfusions List.filter].
    destruct (Z.of_nat j =? lbl); cbn [negb]; [apply IH; exact Hct|].
    destruct (Z.eqb_spec (ct + 1) 5) as [E|E].
    + exists []. split; [reflexivity|].
      replace (4 - ct) with 0 by lia. reflexivity.
    + destruct (Hknown (Z.of_nat j)) as [lj Hlj]; [lia|].
      rewrite (lookupLabel_Some labels _ _ Hlj). cbn [mbind outcome_bind].
      destruct (getitem2_matrix_at n m lbl (Z.of_nat j) Hm Hl) as [Hget _]; [lia|].
      rewrite Hget. cbn [mbind outcome_bind].
      destruct (IH (ct + 1)) as (more & Hmore & Hvals); [lia|].
      rewrite Hmore. cbn [mbind outcome_bind mret outcome_ret].
      eexists. split; [reflexivity|].
      rewrite fmap_cons. cbn [val]. rewrite Hvals.
      replace (Z.to_nat (4 - ct)) with (S (Z.to_nat (4 - (ct + 1)))) by lia.
      reflexivity.
Qed.

(** The line of the per-label report for one label. *)
Lemma pixelErrorLine_run n m total lbl lab :
  square_counts n m ->
  0 <= lbl < Z.of_nat n ->
  (∀ r, 0 <= r < Z.of_nat n -> is_Some (id2label labels !! r)) ->
  id2label labels !! lbl = Some lab ->
  row_sum m lbl < 2 ^ 63 ->
  if row_sum m lbl =? 0
  then pixelErrorLine labels m total lbl = Ok (NoPixels (label.name lab))
  else
    ∃ entries,
      pixelErrorLine labels m total lbl = Ok (Confusions (label.name lab) entries)
      ∧ val <$> entries
        = (fun j => np_divide (ZtoQc (matrix_at m lbl (Z.of_nat j)) * ZtoQc 100)%Qc
                              (row_sum m lbl))
            <$> take 4 (otherColumns m lbl)
      ∧ StronglySorted (fun a b => b <= a)
          ((fun j => matrix_at m lbl (Z.of_nat j)) <$> otherColumns m lbl)
      ∧ ∀ j, (j < n)%nat -> Z.of_nat j ≠ lbl -> j ∈ otherColumns m lbl.
Proof.
  intros Hm Hl Hknown Hlab Hbound.
  destruct (square_counts_row n m lbl Hm Hl) as (row & Hrow & Hlen & Hpos).
  assert (Hget : getitem m lbl = Ok row).
  { rewrite getitem_nonneg by (destruct Hm as [-> _]; exact Hl). now rewrite Hrow. }
  assert (Hrs : row_sum m lbl = zsum row) by (unfold row_sum; now rewrite Hrow).
  pose proof (zsum_nonneg row Hpos) as H0.
  assert (Hsum : longlong (u64sum row) = zsum row)
    by (apply longlong_u64_small; lia).
  unfold pixelErrorLine. rewrite Hget. cbn [mbind outcome_bind].
  rewrite (lookupLabel_Some labels _ _ Hlab). cbn [mbind outcome_bind].
  rewrite Hsum, Hrs.
  destruct (Z.eqb_spec (zsum row) 0) as [Hz|Hz].
  - rewrite Hz. reflexivity.
  - destruct (Z.leb_spec (zsum row) 0) as [|_]; [lia|].
    set (key := fun k => default 0 (row !! k)).
    destruct (insert_all_sorted key (seq 0 (length row)) [])
      as [Hsorted Hperm]; [constructor|].
    assert (Harg : argsort row
                   = foldl (fun acc i => insert_by key i acc) []
                           (seq 0 (length row))) by reflexivity.
    rewrite <- Harg in Hsorted, Hperm. cbn [app] in Hperm. clear Harg.
    assert (Hidx : Forall (fun j => (j < n)%nat) (rev (argsort row))).
    { apply Forall_forall. intros j Hj.
      apply list_elem_of_In, in_rev, list_elem_of_In in Hj.
      rewrite Hperm in Hj. apply list_elem_of_In, in_seq in Hj. lia. }
    assert (Hkey : ∀ j, matrix_at m lbl (Z.of_nat j) = key j).
    { intros j. unfold matrix_at, key. rewrite Hrow. cbn. now rewrite Nat2Z.id. }
    destruct (topConfusions_take n m total lbl (zsum row) (rev (argsort row)) 0
                Hm Hl Hknown Hidx) as (entries & Hrun & Hvals); [lia|].
    rewrite Hrun. cbn [mbind outcome_bind].
    assert (Hoc : otherColumns m lbl
                  = List.filter (fun j => negb (Z.of_nat j =? lbl)) (rev (argsort row))).
    { unfold otherColumns. now rewrite Hrow. }
    exists entries. split; [reflexivity|]. rewrite Hoc. split; [exact Hvals|]. split.
    + apply StronglySorted_map, StronglySorted_filter.
      apply (StronglySorted_rev
               (fun a b => matrix_at m lbl (Z.of_nat a) <= matrix_at m lbl (Z.of_nat b))).
      eapply StronglySorted_ind with (P := fun l => StronglySorted _ l);
        [constructor| |exact Hsorted].
      intros a l _ IH Ha. constructor; [exact IH|].
      eapply Forall_impl; [exact Ha|]. intros b Hb. cbv beta in Hb |- *.
      now rewrite !Hkey.
    + intros j Hj Hne. apply list_elem_of_In, filter_In. split.
      * apply in_rev. rewrite rev_involutive. apply list_elem_of_In.
        rewrite Hperm. apply list_elem_of_In, in_seq. lia.
      * destruct (Z.eqb_spec (Z.of_nat j) lbl); [contradiction|reflexivity].
Qed.

(** X18: the line of the per-label report for a known label of a square
    matrix of counts is the dashes when the label has no ground-truth
    pixel; otherwise it gives, as percentages of the row sum, the counts
    of the first 4 other columns, the other columns being all columns
    but the label's own in descending order of count. *)
Theorem pixelErrorLine_top n m total lbl lab :
  square_counts n m ->
  0 <= lbl < Z.of_nat n ->
  (∀ r, 0 <= r < Z.of_nat n -> is_Some (id2label labels !! r)) ->
  id2label labels !! lbl = Some lab ->
  row_sum m lbl < 2 ^ 63 ->
  if row_sum m lbl =? 0
  then pixelErrorLine labels m total lbl = Ok (NoPixels (label.name lab))
  else
    ∃ entries,
      pixelErrorLine labels m total lbl = Ok (Confusions (label.name lab) entries)
      ∧ val <$> entries
        = (fun j => np_divide (ZtoQc (matrix_at m lbl (Z.of_nat j)) * ZtoQc 100)%Qc
                              (row_sum m lbl))
            <$> take 4 (otherColumns m lbl)
      ∧ StronglySorted (fun a b => b <= a)
          ((fun j => matrix_at m lbl (Z.of_nat j)) <$> otherColumns m lbl)
      ∧ ∀ j, (j < n)%nat -> Z.of_nat j ≠ lbl -> j ∈ otherColumns m lbl.
Proof. apply pixelErrorLine_run. Qed.

End TopConfusions.

Lemma pixelErrorLine_top_witness :
  ∃ entries,
    pixelErrorLine demoLabels demoMatrix 194 7 = Ok (Confusions "road" entries)
    ∧ val <$> entries
      = (fun j => np_divide (ZtoQc (matrix_at demoMatrix 7 (Z.of_nat j)) * ZtoQc 100)%Qc
                            (row_sum demoMatrix 7))
          <$> take 4 (otherColumns demoMatrix 7)
    ∧ StronglySorted (fun a b => b <= a)
        ((fun j => matrix_at demoMatrix 7 (Z.of_nat j)) <$> otherColumns demoMatrix 7)
    ∧ ∀ j, (j < 15)%nat -> Z.of_nat j ≠ 7 -> j ∈ otherColumns demoMatrix 7.
Proof.
  apply (pixelErrorLine_top demoLabels 15 demoMatrix 194 7
           (label.mk "road" 7 "flat" false false)).
  - unfold square_counts. apply (bool_decide_unpack _). vm_compute. exact I.
  - lia.
  - intros r Hr.
    assert (H : r ∈ seqZ 0 15) by (apply elem_of_seqZ; lia).
    clear Hr. revert r H. apply Forall_forall.
    apply (bool_decide_unpack _). vm_compute. exact I.
  - vm_compute. reflexivity.
  - vm_compute. reflexivity.
Defined.


Section Percentages.

Variable labels : list Label.

Lemma mapM_ok {A B} (f : A -> outcome B) (l : list A) :
  Forall (fun x => ∃ y, f x = Ok y) l -> ∃ ys, mapM f l = Ok ys.
Proof.
  induction 1 as [|x l [y Hy] _ [ys IH]]; [exists []; reflexivity|].
  exists (y :: ys). cbn [mapM]. rewrite Hy. cbn. rewrite IH. reflexivity.
Qed.

Lemma zsum_filter_le (f : Z -> Z) (p : Z -> bool) (l : list Z) :
  (∀ x, x ∈ l -> 0 <= f x) ->
  0 <= zsum (f <$> List.filter p l) <= zsum (f <$> l).
Proof.
  induction l as [|x l IH]; intros H; [cbn; lia|].
  assert (Hx : 0 <= f x) by (apply H, elem_of_cons; now left).
  assert (Hl : ∀ y, y ∈ l -> 0 <= f y) by (intros y Hy; apply H, elem_of_cons; now right).
  specialize (IH Hl). cbn [List.filter]. rewrite fmap_cons, zsum_cons.
  destruct (p x); [rewrite fmap_cons, zsum_cons|]; lia.
Qed.

(** The labels of the first loop are among those of the second. *)
Lemma nonVoid_of_nonEdge (l : list Z) :
  List.filter (fun lbl => negb (lbl <? 7)) l
  = List.filter (fun lbl => negb (lbl <? 7)) (List.filter (fun lbl => negb (lbl <? 4)) l).
Proof.
  induction l as [|x l IH]; [reflexivity|]. cbn [List.filter].
  destruct (Z.ltb_spec x 4); cbn [negb List.filter].
  - destruct (Z.ltb_spec x 7); [exact IH|lia].
  - destruct (Z.ltb_spec x 7); cbn [negb]; [exact IH|now rewrite IH].
Qed.

(** The two sums of a loop over labels that index the matrix. *)
Lemma sums_of_labels n m ls :
  square_counts n m ->
  Forall (fun r => 0 <= r < Z.of_nat n) ls ->
  zsum (spec_gt m <$> ls) < 2 ^ 63 ->
  pixelsOfLabels m ls = Ok (zsum (spec_gt m <$> ls))
  ∧ truePositivesOfLabels m ls = Ok (zsum (spec_tp m <$> ls))
  ∧ 0 <= zsum (spec_tp m <$> ls) <= zsum (spec_gt m <$> ls).
Proof.
  intros Hm Hls Hbound. unfold pixelsOfLabels, truePositivesOfLabels.
  assert (Hgen : ∀ a b, 0 <= b <= a -> a + zsum (spec_gt m <$> ls) < 2 ^ 63 ->
            foldl (fun acc lbl => total ← acc; row ← getitem m lbl;
                                  Ok (wrap_i64 (total + longlong (u64sum row))))
                  (Ok a) ls = Ok (a + zsum (spec_gt m <$> ls))
            ∧ foldl (fun acc lbl => total ← acc; d ← getitem2 m lbl lbl;
                                    Ok (wrap_i64 (total + longlong d)))
                    (Ok b) ls = Ok (b + zsum (spec_tp m <$> ls))
            ∧ 0 <= b + zsum (spec_tp m <$> ls) <= a + zsum (spec_gt m <$> ls)).
  { clear Hbound. induction Hls as [|lbl ls Hl Hls' IH]; intros a b Hab Hbound.
    - cbn. rewrite !Z.add_0_r. auto.
    - rewrite !fmap_cons, !zsum_cons in *. cbn [foldl].
      destruct (square_counts_row n m lbl Hm Hl) as (row & Hrow & _ & Hpos).
      destruct (getitem2_matrix_at n m lbl lbl Hm Hl Hl) as [Hd Hdb].
      assert (Hget : getitem m lbl = Ok row).
      { rewrite getitem_nonneg by (destruct Hm as [-> _]; exact Hl). now rewrite Hrow. }
      assert (Hrs : spec_gt m lbl = zsum row)
        by (unfold spec_gt, row_sum; now rewrite Hrow).
      fold (spec_tp m lbl) in Hd, Hdb. fold (spec_gt m lbl) in Hdb.
      assert (Hrest : 0 <= zsum (spec_gt m <$> ls)).
      { apply zsum_nonneg, Forall_fmap, Forall_forall. intros r Hr.
        rewrite Forall_forall in Hls'.
        destruct (getitem2_matrix_at n m r r Hm (Hls' r Hr) (Hls' r Hr)) as [_ H].
        cbn. unfold spec_gt. lia. }
      cbn [mbind outcome_bind]. rewrite Hget, Hd. cbn [mbind outcome_bind].
      assert (Hu : longlong (u64sum row) = spec_gt m lbl).
      { unfold u64sum. rewrite <- Hrs. apply longlong_u64_small. lia. }
      rewrite Hu.
      assert (Hll : longlong (spec_tp m lbl) = spec_tp m lbl)
        by (apply wrap_i64_small; lia).
      rewrite Hll, !wrap_i64_small by lia.
      destruct (IH (a + spec_gt m lbl) (b + spec_tp m lbl)) as (H1 & H2 & H3);
        [lia|lia|].
      rewrite H1, H2. split; [f_equal; lia|]. split; [f_equal; lia|]. lia. }
  destruct (Hgen 0 0) as (H1 & H2 & H3); [lia|lia|].
  rewrite H1, H2, !Z.add_0_l in *. auto.
Qed.

(** X20: [evaluatePixelAccuracy] never returns when no evaluated label
    is 7 or more: its first percentage divides by the Python integer 0.
    On a square matrix of counts over known labels it then raises
    [ZeroDivisionError], and with an evaluated label of 7 or more it
    returns its two reports and the two percentages, true positives
    times 100 over pixels of the labels from 7 and of the labels from 4;
    on a matrix without counts the first percentage is nan, numpy's
    value of 0/0: the function does not raise there. *)
Theorem evaluatePixelAccuracy_percentages n m args :
  (List.filter (fun lbl => negb (lbl <? 7)) (evalLabels args) = [] ->
   is_ok (evaluatePixelAccuracy labels m args) = false)
  ∧ (square_counts n m ->
     evalLabels_in_range args n ->
     (∀ r, 0 <= r < Z.of_nat n -> is_Some (id2label labels !! r)) ->
     let nonVoid := List.filter (fun lbl => negb (lbl <? 7)) (evalLabels args) in
     let nonEdge := List.filter (fun lbl => negb (lbl <? 4)) (evalLabels args) in
     zsum (spec_gt m <$> nonEdge) < 2 ^ 63 ->
     match nonVoid with
     | [] => evaluatePixelAccuracy labels m args = Raise ZeroDivisionError
     | _ =>
         ∃ perLabel pairs,
           evaluatePixelAccuracy labels m args
           = Ok (perLabel, pairs,
                 (np_divide (ZtoQc (zsum (spec_tp m <$> nonVoid)) * ZtoQc 100)%Qc
                            (zsum (spec_gt m <$> nonVoid)),
                  np_divide (ZtoQc (zsum (spec_tp m <$> nonEdge)) * ZtoQc 100)%Qc
                            (zsum (spec_gt m <$> nonEdge))))
           ∧ (matrix_total m = 0 ->
              np_divide (ZtoQc (zsum (spec_tp m <$> nonVoid)) * ZtoQc 100)%Qc
                        (zsum (spec_gt m <$> nonVoid)) = FNaN)
     end).
Proof.
  split.
  - intros Hnone. unfold evaluatePixelAccuracy. cbv zeta. rewrite Hnone.
    unfold percentage at 1.
    cbn [pixelsOfLabels truePositivesOfLabels foldl mbind outcome_bind].
    destruct (pixelsOfLabels m _); cbn [mbind outcome_bind]; [|reflexivity].
    destruct (allNonEdgeTruePositives m args); cbn [mbind outcome_bind]; [|reflexivity].
    destruct (evaluatePixelError labels m _ args); cbn [mbind outcome_bind]; [|reflexivity].
    destruct (evaluateTrueVsOtherPixError labels m _); reflexivity.
  - intros Hm Hrange Hknown nonVoid nonEdge Hbound.
    assert (Hgt0 : ∀ r, r ∈ evalLabels args -> 0 <= spec_gt m r).
    { intros r Hr. unfold evalLabels_in_range in Hrange. rewrite Forall_forall in Hrange.
      destruct (getitem2_matrix_at n m r r Hm (Hrange r Hr) (Hrange r Hr)) as [_ H].
      unfold spec_gt. lia. }
    assert (HrE : Forall (fun r => 0 <= r < Z.of_nat n) nonEdge).
    { apply Forall_forall. intros r Hr.
      apply list_elem_of_In, filter_In in Hr as [Hr _]. apply list_elem_of_In in Hr.
      unfold evalLabels_in_range in Hrange. rewrite Forall_forall in Hrange. auto. }
    assert (HrV : Forall (fun r => 0 <= r < Z.of_nat n) nonVoid).
    { apply Forall_forall. intros r Hr.
      apply list_elem_of_In, filter_In in Hr as [Hr _]. apply list_elem_of_In in Hr.
      unfold evalLabels_in_range in Hrange. rewrite Forall_forall in Hrange. auto. }
    assert (HVE : nonVoid = List.filter (fun lbl => negb (lbl <? 7)) nonEdge).
    { apply nonVoid_of_nonEdge. }
    assert (HboundV : zsum (spec_gt m <$> nonVoid) < 2 ^ 63).
    { rewrite HVE.
      pose proof (zsum_filter_le (spec_gt m) (fun lbl => negb (lbl <? 7)) nonEdge) as H.
      destruct H; [|lia]. intros x Hx. apply Hgt0.
      apply list_elem_of_In, filter_In in Hx as [Hx _]. now apply list_elem_of_In. }
    destruct (sums_of_labels n m nonVoid Hm HrV HboundV) as (HpV & HtV & HbV).
    destruct (sums_of_labels n m nonEdge Hm HrE Hbound) as (HpE & HtE & HbE).
    (* the two reports *)
    assert (Hlines : ∃ perLabel,
               evaluatePixelError labels m (zsum (spec_tp m <$> nonEdge)) args
               = Ok perLabel).
    { unfold evaluatePixelError. apply mapM_ok. fold nonEdge.
      apply Forall_forall. intros lbl Hl.
      rewrite Forall_forall in HrE. specialize (HrE lbl Hl).
      destruct (Hknown lbl HrE) as [lab Hlab].
      assert (Hrow : row_sum m lbl < 2 ^ 63).
      { apply list_elem_of_lookup in Hl as [k Hk].
        assert (Hpos : Forall (fun x => 0 <= x) (spec_gt m <$> nonEdge)).
        { apply Forall_fmap, Forall_forall. intros r Hr. apply Hgt0.
          apply list_elem_of_In, filter_In in Hr as [Hr _]. now apply list_elem_of_In. }
        pose proof (zsum_lookup_le (spec_gt m <$> nonEdge) k (spec_gt m lbl) Hpos) as H.
        rewrite list_lookup_fmap, Hk in H. specialize (H eq_refl).
        change (spec_gt m lbl) with (row_sum m lbl) in H. lia. }
      pose proof (pixelErrorLine_run labels n m (zsum (spec_tp m <$> nonEdge)) lbl lab
                    Hm HrE Hknown Hlab Hrow) as H.
      destruct (row_sum m lbl =? 0); [eauto|].
      destruct H as (entries & H & _). eauto. }
    assert (Hpairs : ∃ pairs,
               evaluateTrueVsOtherPixError labels m (zsum (spec_tp m <$> nonEdge))
               = Ok pairs).
    { destruct (sorted2dArray_descending n m Hm) as (Hcells & _ & _).
      destruct (mismatchLoop_take labels n m (zsum (spec_tp m <$> nonEdge))
                  (sorted2dArray m) 0 Hm) as (pairs & Hrun & _);
        [intros r Hr; apply Hknown; lia|exact Hcells|lia|].
      exists pairs. exact Hrun. }
    destruct Hlines as [perLabel Hlines]. destruct Hpairs as [pairs Hpairs].
    unfold evaluatePixelAccuracy. cbv zeta. fold nonVoid. fold nonEdge.
    unfold allNonEdgeTruePositives. fold nonEdge.
    fold (truePositivesOfLabels m nonEdge).
    rewrite HpV, HtV, HpE, HtE. cbn [mbind outcome_bind].
    rewrite Hlines, Hpairs. cbn [mbind outcome_bind].
    destruct nonVoid as [|v rest] eqn:EV; [reflexivity|].
    assert (HEne : nonEdge ≠ []).
    { intros HE. rewrite HE in HVE. discriminate. }
    destruct nonEdge as [|e restE] eqn:EE; [contradiction|].
    cbn [percentage mbind outcome_bind].
    exists perLabel, pairs. split; [reflexivity|].
    intros Htot.
    assert (Hz : zsum (spec_gt m <$> v :: rest) = 0).
    { assert (Hall : Forall (fun x => x = 0) (spec_gt m <$> v :: rest)).
      { apply Forall_fmap, Forall_forall. intros r Hr. change (row_sum m r = 0).
        rewrite Forall_forall in HrV. specialize (HrV r Hr).
        destruct (square_counts_row n m r Hm HrV) as (row & Hrow & _ & Hpos).
        pose proof (matrix_total_row_le n m _ row Hm Hrow) as Hle.
        pose proof (zsum_nonneg row Hpos).
        unfold row_sum. rewrite Hrow. change (zsum row = 0). lia. }
      now apply zsum_all_zero. }
    rewrite Hz in *. replace (zsum (spec_tp m <$> v :: rest)) with 0 by lia.
    reflexivity.
Qed.

End Percentages.

Lemma evaluatePixelAccuracy_percentages_witness :
  is_ok (evaluatePixelAccuracy demoLabels (zeros 7) (set_evalLabels [0; 4; 6] demoArgs))
  = false
  ∧ ∃ perLabel pairs,
      evaluatePixelAccuracy demoLabels (zeros 15) demoArgs
      = Ok (perLabel, pairs, (FNaN, FNaN)).
Proof.
  split.
  - apply (proj1 (evaluatePixelAccuracy_percentages demoLabels 7 (zeros 7)
                    (set_evalLabels [0; 4; 6] demoArgs))).
    reflexivity.
  - destruct (proj2 (evaluatePixelAccuracy_percentages demoLabels 15 (zeros 15) demoArgs))
      as (perLabel & pairs & Hrun & _).
    + unfold square_counts. apply (bool_decide_unpack _). vm_compute. exact I.
    + unfold evalLabels_in_range. apply (bool_decide_unpack _). vm_compute. exact I.
    + intros r Hr.
      assert (H : r ∈ seqZ 0 15) by (apply elem_of_seqZ; lia).
      clear Hr. revert r H. apply Forall_forall.
      apply (bool_decide_unpack _). vm_compute. exact I.
    + vm_compute. reflexivity.
    + exists perLabel, pairs. rewrite Hrun. vm_compute. reflexivity.
Defined.
